(** * Stock correlation analysis: a shallow embedding of
    [StockCorrelationAnalysis_TS_Final.py] and the properties of its pipeline.

    The script is one linear pipeline: resolve tickers, fetch prices, clean,
    derive returns / correlation / normalized prices, present.  Text is
    modelled by strings over the code points below 256 (see [Text]), tables
    by column-major data frames whose cells
    are extended rationals (a finite value, the two infinities, or NaN), and
    the effects of [main] (printing, files, charts) by an event trace.
    Library calls are modelled as pandas 3 and Python 3 perform them. *)

From Stdlib Require Import String Ascii List Bool Arith NArith ZArith QArith Lia.
From Stdlib Require Import Permutation Sorted DecimalString.
From Stdlib Require Qcanon.
From Stdlib Require Import Lqa.
Import ListNotations.

Local Open Scope string_scope.
Local Open Scope list_scope.

(* ================================================================== *)
(** * Text: the [str] methods used by the script                        *)
(* ================================================================== *)

Module Text.

(** A character is a code point below 256: ASCII and the Latin-1
    supplement.  Three letters of that range have a capital that is not a
    single character of it (the micro sign 0xB5, the sharp s 0xDF, the y
    with diaeresis 0xFF); strings holding one of them, like strings with
    code points from 256 on, are outside the model, and the three codes are
    treated as characters without case. *)

(** Characters that [str.strip()] removes: tab, line feed, vertical tab,
    form feed, carriage return, the four separators 0x1c-0x1f, the space,
    the next-line control 0x85 and the no-break space 0xA0. *)
Definition is_space (c : ascii) : bool :=
  let n := N_of_ascii c in
  (((9 <=? n) && (n <=? 13)) || ((28 <=? n) && (n <=? 32))
   || (n =? 133) || (n =? 160))%N.

(** The lowercase letters of ASCII, [a] to [z]. *)
Definition is_lower (c : ascii) : bool :=
  let n := N_of_ascii c in ((97 <=? n) && (n <=? 122))%N.

(** The Latin-1 small letters that have a capital in the range. *)
Definition is_latin_small (c : ascii) : bool :=
  let n := N_of_ascii c in
  (((224 <=? n) && (n <=? 246)) || ((248 <=? n) && (n <=? 254)))%N.

(** [c.islower()]: the lowercase characters of the alphabet.  Besides the
    letters with a capital there are two without one, the ordinal
    indicators 0xAA and 0xBA. *)
Definition is_lowercase (c : ascii) : bool :=
  let n := N_of_ascii c in
  (is_lower c || is_latin_small c || (n =? 170) || (n =? 186))%N.

(** [str.upper()] on one character: a letter with a capital is replaced by
    it (32 places below), every other character is kept. *)
Definition upper_char (c : ascii) : ascii :=
  if is_lower c || is_latin_small c then ascii_of_N (N_of_ascii c - 32) else c.

Definition is_ascii (c : ascii) : bool := (N_of_ascii c <? 128)%N.

Definition is_comma (c : ascii) : bool := Ascii.eqb c ","%char.

Fixpoint upper (s : string) : string :=
  match s with
  | EmptyString => EmptyString
  | String c s' => String (upper_char c) (upper s')
  end.

Definition is_empty (s : string) : bool :=
  match s with EmptyString => true | String _ _ => false end.

Fixpoint lstrip (s : string) : string :=
  match s with
  | EmptyString => EmptyString
  | String c s' => if is_space c then lstrip s' else s
  end.

Fixpoint rstrip (s : string) : string :=
  match s with
  | EmptyString => EmptyString
  | String c s' =>
      let r := rstrip s' in
      if is_space c && is_empty r then EmptyString else String c r
  end.

(** [s.strip()] *)
Definition strip (s : string) : string := rstrip (lstrip s).

(** [s.split(",")]: always at least one piece; [n] commas give [n+1]
    pieces, empty ones included. *)
Fixpoint split_comma (s : string) : list string :=
  match s with
  | EmptyString => [EmptyString]
  | String c s' =>
      if is_comma c then EmptyString :: split_comma s'
      else match split_comma s' with
           | h :: t => String c h :: t
           | [] => [String c EmptyString]
           end
  end.

(** [sep.join(l)] *)
Fixpoint join (sep : string) (l : list string) : string :=
  match l with
  | [] => EmptyString
  | [x] => x
  | x :: t => x ++ sep ++ join sep t
  end.

(** Truthiness of a [str]: the empty string is falsy. *)
Definition truthy (s : string) : bool := negb (is_empty s).

(** Predicates on results. *)
Fixpoint all_chars (p : ascii -> bool) (s : string) : bool :=
  match s with
  | EmptyString => true
  | String c s' => p c && all_chars p s'
  end.

Definition no_comma (s : string) : bool := all_chars (fun c => negb (is_comma c)) s.
Definition no_lower (s : string) : bool := all_chars (fun c => negb (is_lower c)) s.
Definition no_lowercase (s : string) : bool :=
  all_chars (fun c => negb (is_lowercase c)) s.
Definition ascii_only (s : string) : bool := all_chars is_ascii s.

Fixpoint chars (s : string) : list ascii :=
  match s with
  | EmptyString => []
  | String c s' => c :: chars s'
  end.

Definition first_char (s : string) : option ascii :=
  match s with EmptyString => None | String c _ => Some c end.

Fixpoint last_char (s : string) : option ascii :=
  match s with
  | EmptyString => None
  | String c EmptyString => Some c
  | String _ s' => last_char s'
  end.

(** No leading and no trailing whitespace. *)
Definition no_surrounding_space (s : string) : bool :=
  match first_char s, last_char s with
  | Some a, Some b => negb (is_space a) && negb (is_space b)
  | _, _ => true
  end.

End Text.

Import Text.

(** ** [parse_tickers] (lines 38-41) *)

Definition parse_tickers (s : string) : list string :=
  if negb (truthy s) then []
  else map (fun t => upper (strip t))
           (filter (fun t => truthy (strip t)) (split_comma s)).

(** The resolver in the words of the specification: split at commas, trim
    and upper-case every token, then drop the empty ones, keeping order. *)
Definition resolver_spec (s : string) : list string :=
  filter truthy (map (fun t => upper (strip t)) (split_comma s)).

Definition default_tickers : string := "SPY,QQQ,IWM,XLK,XLF,TLT".

(* ================================================================== *)
(** * Numbers: table cells                                              *)
(* ================================================================== *)

(** A cell of a numeric table.  Python's [float] is idealised: finite
    values are exact rationals kept in lowest terms, and the three special
    values the script explicitly handles (NaN as the "no value" marker and
    the two infinities produced by a division by zero) are kept apart.
    Rounding, overflow and signed zeros are outside this model. *)
Module Num.

Inductive cell : Type :=
| Fin (q : Q)
| PInf
| NInf
| NaN.

Definition fin (q : Q) : cell := Fin (Qred q).

Definition one : cell := Fin 1.

Definition Qlt_bool (x y : Q) : bool := negb (Qle_bool y x).

(** [pandas.isna] / [notna]: only NaN is missing, infinities are not. *)
Definition isna (c : cell) : bool :=
  match c with NaN => true | _ => false end.

Definition notna (c : cell) : bool := negb (isna c).

(** [numpy.isfinite] *)
Definition isfinite (c : cell) : bool :=
  match c with Fin _ => true | _ => false end.

Definition isinf (c : cell) : bool :=
  match c with PInf | NInf => true | _ => false end.

(** Float division as numpy performs it on arrays: no exception, a
    non-zero value over zero is an infinity, zero over zero is NaN. *)
Definition div (a b : cell) : cell :=
  match a, b with
  | NaN, _ | _, NaN => NaN
  | Fin x, Fin y =>
      if Qeq_bool y 0 then
        if Qeq_bool x 0 then NaN
        else if Qlt_bool 0 x then PInf else NInf
      else fin (x / y)
  | Fin _, (PInf | NInf) => fin 0
  | PInf, Fin y => if Qle_bool 0 y then PInf else NInf
  | NInf, Fin y => if Qle_bool 0 y then NInf else PInf
  | (PInf | NInf), (PInf | NInf) => NaN
  end.

Definition sub (a b : cell) : cell :=
  match a, b with
  | NaN, _ | _, NaN => NaN
  | Fin x, Fin y => fin (x - y)
  | Fin _, PInf => NInf
  | Fin _, NInf => PInf
  | PInf, PInf => NaN
  | PInf, _ => PInf
  | NInf, NInf => NaN
  | NInf, _ => NInf
  end.

(** Order used when sorting values in descending order: [geb a b] is
    [a >= b]; NaN is below everything, so that it sorts last. *)
Definition geb (a b : cell) : bool :=
  match a, b with
  | _, NaN => true
  | NaN, _ => false
  | PInf, _ => true
  | _, PInf => false
  | _, NInf => true
  | NInf, _ => false
  | Fin x, Fin y => Qle_bool y x
  end.

(** Square root on rationals, rounded down at fifteen decimal digits below
    the denominator of its argument; it is exact on squares of rationals
    and vanishes only at (or below) zero, which is all the correlation
    needs of the floating-point [sqrt]. *)
Definition sqrt_scale : Z := 10 ^ 15.

Definition Qsqrt (q : Q) : Q :=
  let r := Qred q in
  let n := Qnum r in
  let d := Zpos (Qden r) in
  if (n <=? 0)%Z then 0
  else Z.sqrt (n * d * (sqrt_scale * sqrt_scale)) # Z.to_pos (d * sqrt_scale).

(** Clamp to [-1, 1], the guard of the correlation against a rounded
    divisor. *)
Definition clip1 (q : Q) : Q :=
  if Qlt_bool 1 q then 1 else if Qlt_bool q (-1) then -1 else q.

(** A cell is in [-1, 1]. *)
Definition in_unit_range (c : cell) : Prop :=
  match c with Fin q => -1 <= q /\ q <= 1 | _ => False end.

End Num.

Import Num.

(* ================================================================== *)
(** * Tables: the [DataFrame] operations used by the script             *)
(* ================================================================== *)

(** Dates are day numbers. *)
Definition Date : Type := nat.

(** A data frame, column-major: row labels and named columns.  The price,
    returns and normalized tables are indexed by dates, the correlation
    matrix by ticker names. *)
Record Frame (I : Type) : Type := mkFrame {
  index : list I;
  columns : list (string * list cell)
}.

Arguments mkFrame {I} _ _.
Arguments index {I} _.
Arguments columns {I} _.

Module DF.

Section Generic.
Context {I : Type}.

Definition names (df : Frame I) : list string := map fst (columns df).
Definition nrows (df : Frame I) : nat := length (index df).
Definition ncols (df : Frame I) : nat := length (columns df).

(** Every column has one cell per row label. *)
Definition wf (df : Frame I) : Prop :=
  Forall (fun c => length (snd c) = nrows df) (columns df).

(** [df.empty]: some axis has length zero. *)
Definition empty (df : Frame I) : bool :=
  Nat.eqb (nrows df) 0 || Nat.eqb (ncols df) 0.

(** Cell of a column at a row position (NaN outside). *)
Definition at_row (t : nat) (c : string * list cell) : cell := nth t (snd c) NaN.

(** The cell at row position [t] and column position [j]. *)
Definition cell_at (df : Frame I) (t j : nat) : cell :=
  match nth_error (columns df) j with
  | Some c => at_row t c
  | None => NaN
  end.

(** Keep the rows at the given positions, in that order. *)
Definition pick {A} (ks : list nat) (l : list A) : list A :=
  flat_map (fun t => match nth_error l t with Some a => [a] | None => [] end) ks.

Definition take_rows (ks : list nat) (df : Frame I) : Frame I :=
  mkFrame (pick ks (index df))
          (map (fun c => (fst c, pick ks (snd c))) (columns df)).

(** Row positions whose cells satisfy a row predicate. *)
Definition rows_where (p : nat -> bool) (df : Frame I) : list nat :=
  filter p (seq 0 (nrows df)).

(** [df.dropna()]: drop every row holding at least one NaN. *)
Definition row_complete (df : Frame I) (t : nat) : bool :=
  forallb (fun c => notna (at_row t c)) (columns df).

Definition dropna (df : Frame I) : Frame I :=
  take_rows (rows_where (row_complete df) df) df.

(** [df.dropna(how="all")]: drop the rows in which every cell is NaN. *)
Definition row_has_value (df : Frame I) (t : nat) : bool :=
  existsb (fun c => notna (at_row t c)) (columns df).

Definition dropna_all (df : Frame I) : Frame I :=
  take_rows (rows_where (row_has_value df) df) df.

(** [col.dropna().empty]: the column has no non-missing observation. *)
Definition all_missing (c : string * list cell) : bool :=
  negb (existsb notna (snd c)).

(** [df.dropna(axis=1, how="all")]: drop the columns that are all NaN. *)
Definition dropna_cols_all (df : Frame I) : Frame I :=
  mkFrame (index df) (filter (fun c => negb (all_missing c)) (columns df)).

(** [data.shift(1)] on one column. *)
Definition shift1 (l : list cell) : list cell := firstn (length l) (NaN :: l).

(** [df.pct_change()], computed as [data / data.shift(1) - 1] between
    consecutive rows, without filling missing values beforehand. *)
Definition pct_change_col (l : list cell) : list cell :=
  map (fun p => Num.sub (Num.div (fst p) (snd p)) one) (combine l (shift1 l)).

Definition pct_change (df : Frame I) : Frame I :=
  mkFrame (index df) (map (fun c => (fst c, pct_change_col (snd c))) (columns df)).

(** The historical default of [pct_change] first filled every missing
    value with the last value seen ([fill_method="pad"]). *)
Fixpoint ffill_from (last : cell) (l : list cell) : list cell :=
  match l with
  | [] => []
  | x :: l' => if isna x then last :: ffill_from last l' else x :: ffill_from x l'
  end.

Definition ffill (l : list cell) : list cell := ffill_from NaN l.

Definition pct_change_pad_col (l : list cell) : list cell := pct_change_col (ffill l).

(** No missing value after the first observation. *)
Fixpoint gap_free (l : list cell) : bool :=
  match l with
  | [] => true
  | x :: l' => if isna x then gap_free l' else forallb notna l'
  end.

(** [col.dropna().iloc[0]]: the first non-missing value; [None] stands for
    the [IndexError] of [iloc[0]] on an empty series. *)
Definition first_valid (l : list cell) : option cell := find notna l.

(** [df.apply(lambda col: col.dropna().iloc[0])] *)
Fixpoint first_vals (cs : list (string * list cell)) : option (list cell) :=
  match cs with
  | [] => Some []
  | c :: cs' =>
      match first_valid (snd c), first_vals cs' with
      | Some v, Some vs => Some (v :: vs)
      | _, _ => None
      end
  end.

(** [df.divide(first_vals, axis=1)]: column [j] is divided by the [j]-th
    divisor (the divisors are labelled by the same column names). *)
Definition divide (df : Frame I) (ds : list cell) : Frame I :=
  mkFrame (index df)
          (map (fun cd => (fst (fst cd), map (fun v => Num.div v (snd cd)) (snd (fst cd))))
               (combine (columns df) ds)).

(** [df.divide(df)]: every cell divided by itself. *)
Definition div_self (df : Frame I) : Frame I :=
  mkFrame (index df)
          (map (fun c => (fst c, map (fun v => Num.div v v) (snd c))) (columns df)).

(** [df.replace([np.inf, -np.inf], np.nan)] *)
Definition no_inf (v : cell) : cell := if isinf v then NaN else v.

Definition replace_inf (df : Frame I) : Frame I :=
  mkFrame (index df) (map (fun c => (fst c, map no_inf (snd c))) (columns df)).

(** [df.notna().any().any()] *)
Definition any_notna (df : Frame I) : bool :=
  existsb (fun c => existsb notna (snd c)) (columns df).

(** [df[cols]] for the column selection [valid_cols] of the cleaner. *)
Definition select_cols (keep : string * list cell -> bool) (df : Frame I) : Frame I :=
  mkFrame (index df) (filter keep (columns df)).

End Generic.

End DF.

(* ================================================================== *)
(** * Correlation: [DataFrame.corr()] with its defaults                 *)
(* ================================================================== *)

Module Corr.

(** Running state of the one-pass (Welford) computation that pandas runs
    for every pair of columns. *)
Record welford : Type := mkW {
  nobs : Q;
  meanx : Q;
  meany : Q;
  ssqdm_x : Q;
  ssqdm_y : Q;
  covxy : Q
}.

Definition w0 : welford := mkW 0 0 0 0 0 0.

Definition update (w : welford) (vx vy : Q) : welford :=
  let n := nobs w + 1 in
  let dx := vx - meanx w in
  let dy := vy - meany w in
  let mx := meanx w + 1 / n * dx in
  let my := meany w + 1 / n * dy in
  mkW n mx my
      (ssqdm_x w + (vx - mx) * dx)
      (ssqdm_y w + (vy - my) * dy)
      (covxy w + (vx - mx) * dy).

Definition value (c : cell) : Q :=
  match c with Fin q => q | _ => 0 end.

(** The loop over the rows: a row counts for the pair only when both of
    its cells are finite. *)
Fixpoint scan (w : welford) (xs ys : list cell) : welford :=
  match xs, ys with
  | x :: xs', y :: ys' =>
      scan (if isfinite x && isfinite y then update w (value x) (value y) else w)
           xs' ys'
  | _, _ => w
  end.

(** The entry computed from the final state, with [min_periods = 1]. *)
Definition finish (w : welford) : cell :=
  if Qlt_bool (nobs w) 1 then NaN
  else
    let divisor := Qsqrt (ssqdm_x w * ssqdm_y w) in
    if negb (Qeq_bool divisor 0) then fin (clip1 (covxy w / divisor))
    else NaN.

Definition pair_corr (xs ys : list cell) : cell := finish (scan w0 xs ys).

Definition col_values {I} (df : Frame I) (j : nat) : list cell :=
  match nth_error (columns df) j with
  | Some c => snd c
  | None => []
  end.

(** pandas fills [result[xi, yi]] and [result[yi, xi]] with the one value
    computed for [yi <= xi]. *)
Definition entry {I} (df : Frame I) (i j : nat) : cell :=
  pair_corr (col_values df (Nat.max i j)) (col_values df (Nat.min i j)).

(** [df.corr()]: a frame labelled by the column names on both axes. *)
Definition corr {I} (df : Frame I) : Frame string :=
  let k := DF.ncols df in
  mkFrame (DF.names df)
          (map (fun j => (nth j (DF.names df) EmptyString,
                          map (fun i => entry df i j) (seq 0 k)))
               (seq 0 k)).

(** ** Pearson's coefficient in the words of the specification *)

(** The observations of a pair of columns: the rows where both cells hold a
    defined (finite) value. *)
Fixpoint pairwise_complete (xs ys : list cell) : list (Q * Q) :=
  match xs, ys with
  | x :: xs', y :: ys' =>
      match x, y with
      | Fin a, Fin b => (a, b) :: pairwise_complete xs' ys'
      | _, _ => pairwise_complete xs' ys'
      end
  | _, _ => []
  end.

Definition Qsum (l : list Q) : Q := fold_right Qplus 0 l.

Definition mean (l : list Q) : Q := Qsum l / inject_Z (Z.of_nat (length l)).

(** Sum of the products of the deviations from the means. *)
Definition codev (obs : list (Q * Q)) : Q :=
  let mx := mean (map fst obs) in
  let my := mean (map snd obs) in
  Qsum (map (fun p => (fst p - mx) * (snd p - my)) obs).

Definition sqdev (l : list Q) : Q := codev (combine l l).

(** [r = cov(x, y) / sqrt(var(x) var(y))], undefined without observations
    or when a variance vanishes. *)
Definition pearson (obs : list (Q * Q)) : cell :=
  match obs with
  | [] => NaN
  | _ :: _ =>
      let d := Qsqrt (sqdev (map fst obs) * sqdev (map snd obs)) in
      if Qeq_bool d 0 then NaN else fin (clip1 (codev obs / d))
  end.

(** The invariant of the loop after the observations [obs]: the state
    holds their count, means, and centred second moments. *)
Definition count (obs : list (Q * Q)) : Q := inject_Z (Z.of_nat (length obs)).

Definition sum_over (f : Q * Q -> Q) (obs : list (Q * Q)) : Q := Qsum (map f obs).

Definition welford_inv (obs : list (Q * Q)) (w : welford) : Prop :=
  let n := count obs in
  let sx := sum_over fst obs in
  let sy := sum_over snd obs in
  nobs w == n /\
  meanx w == sx / n /\
  meany w == sy / n /\
  ssqdm_x w == sum_over (fun p => fst p * fst p) obs - sx * sx / n /\
  ssqdm_y w == sum_over (fun p => snd p * snd p) obs - sy * sy / n /\
  covxy w == sum_over (fun p => fst p * snd p) obs - sx * sy / n.

(** The rows in which every column holds a finite value, and the
    observations a listwise deletion would leave to a pair of columns. *)
Definition all_finite_rows {I} (df : Frame I) : list nat :=
  DF.rows_where (fun t => forallb (fun c => isfinite (DF.at_row t c)) (columns df)) df.

Definition listwise_complete {I} (df : Frame I) (i j : nat) : list (Q * Q) :=
  map (fun t => (value (DF.cell_at df t i), value (DF.cell_at df t j)))
      (all_finite_rows df).

Definition swap (p : Q * Q) : Q * Q := (snd p, fst p).

(** The finite observations of one column. *)
Definition finite_values (xs : list cell) : list Q :=
  map fst (pairwise_complete xs xs).

(** A column has zero variance when its finite observations all coincide. *)
Definition zero_variance (xs : list cell) : Prop :=
  forall a b, In a (finite_values xs) -> In b (finite_values xs) -> a == b.

End Corr.

(* ================================================================== *)
(** * Top pairs: [corr.where(upper).stack().sort_values().head(5)]      *)
(* ================================================================== *)

Module Pairs.

(** One entry of the stacked series: (row label, column label) and value. *)
Definition item : Type := ((string * string) * cell)%type.

Definition val (e : item) : cell := snd e.

(** [np.triu(np.ones_like(corr, dtype=bool), k=1)]: true strictly above
    the diagonal. *)
Definition triu1 (i j : nat) : bool := Nat.ltb i j.

Definition indexed {A} (l : list A) : list (nat * A) :=
  combine (seq 0 (length l)) l.

(** [corr.where(mask)]: the entry where the mask holds, NaN elsewhere. *)
Definition where_ (mask : nat -> nat -> bool) (m : Frame string) : Frame string :=
  mkFrame (index m)
          (map (fun jc =>
                  (fst (snd jc),
                   map (fun iv => if mask (fst iv) (fst jc) then snd iv else NaN)
                       (indexed (snd (snd jc)))))
               (indexed (columns m))).

(** [df.stack()]: the cells row by row, keyed by (row label, column
    label).  Since pandas 3 the missing cells are kept. *)
Definition stack (m : Frame string) : list item :=
  flat_map (fun ir =>
              map (fun c => ((snd ir, fst c), DF.at_row (fst ir) c)) (columns m))
           (indexed (index m)).

(** An entry with a value, and one without. *)
Definition defined (e : item) : bool := notna (val e).
Definition undefined (e : item) : bool := isna (val e).

(** The entries of the stacked series that hold a value, row by row. *)
Definition defined_cells (m : Frame string) : list item :=
  flat_map (fun ir =>
              flat_map (fun c =>
                          let v := DF.at_row (fst ir) c in
                          if isna v then [] else [((snd ir, fst c), v)])
                       (columns m))
           (indexed (index m)).

(** Insertion sort, stable, for a boolean order. *)
Fixpoint insert {A} (le : A -> A -> bool) (a : A) (l : list A) : list A :=
  match l with
  | [] => [a]
  | b :: l' => if le a b then a :: l else b :: insert le a l'
  end.

Fixpoint isort {A} (le : A -> A -> bool) (l : list A) : list A :=
  match l with
  | [] => []
  | a :: l' => insert le a (isort le l')
  end.

(** The order of the sort: the larger value first.  The sort of pandas
    (numpy's quicksort) is not stable, so entries of equal value come out
    in an order that the library does not fix; a run takes it from its
    surroundings as a ranking [rank] of the entries, which decides between
    equal values only. *)
Definition before (rank : item -> nat) (a b : item) : bool :=
  if Num.geb (val a) (val b)
  then (if Num.geb (val b) (val a) then Nat.leb (rank a) (rank b) else true)
  else false.

(** The ranking under which equal values keep their stacking order. *)
Definition stacking_order (e : item) : nat := 0.

(** [s.sort_values(ascending=False)]: the entries with a value, largest
    first, then the entries without one in their original order
    ([na_position="last"]). *)
Definition sort_values_desc (rank : item -> nat) (s : list item) : list item :=
  isort (before rank) (filter defined s) ++ filter undefined s.

(** [s.head(n)] *)
Definition head {A} (n : nat) (s : list A) : list A := firstn n s.

(** Lines 171-173. *)
Definition top_pairs (rank : item -> nat) (corr : Frame string) : list item :=
  head 5 (sort_values_desc rank (stack (where_ triu1 corr))).


End Pairs.

(* ================================================================== *)
(** * Effects: what a run of the script does to the outside world       *)
(* ================================================================== *)

Inductive exn : Type :=
| ImportError (msg : string)
| IndexError
| FileNotFoundError.

(** How a call ends: it returns (Python's [return] / falling off the end)
    or an exception escapes. *)
Inductive outcome : Type :=
| Returned
| Raised (e : exn).

Inductive event : Type :=
| Prompt (msg : string)
| Print (msg : string)
| PrintList (msg : string) (l : list string)
| PrintSeries (s : list Pairs.item)
| MakeDirs (path : string)
| WriteCsv (path : string) (index_label : string) (table : Frame Date)
| PlotLines (table : Frame Date) (title : string)
| PlotHeatmap (table : Frame string) (title : string)
| ShowFig
| SaveFig (path : string) (dpi : nat)
| CloseFig.

(** A computation emits events and either goes on with a value or stops
    the enclosing function with an outcome. *)
Inductive flow (A : Type) : Type :=
| Go (a : A)
| Stop (o : outcome).

Arguments Go {A} _.
Arguments Stop {A} _.

Definition M (A : Type) : Type := (list event * flow A)%type.

Definition ret {A} (a : A) : M A := ([], Go a).

Definition bind {A B} (m : M A) (f : A -> M B) : M B :=
  match m with
  | (tr, Go a) => let (tr', r) := f a in (tr ++ tr', r)
  | (tr, Stop o) => (tr, Stop o)
  end.

Definition emit (e : event) : M unit := ([e], Go tt).
Definition exit_with {A} (o : outcome) : M A := ([], Stop o).
Definition print (msg : string) : M unit := emit (Print msg).

Notation "x <- m ;; k" := (bind m (fun x => k))
  (at level 61, m at next level, right associativity).
Notation "m ;; k" := (bind m (fun _ => k))
  (at level 61, right associativity).

(** The events of a run and the way it ended. *)
Definition trace {A} (m : M A) : list event := fst m.

Definition result {A} (m : M A) : outcome :=
  match snd m with
  | Go _ => Returned
  | Stop o => o
  end.



(* ================================================================== *)
(** * Acquisition: [get_price_data] (lines 10-35)                       *)
(* ================================================================== *)

(** What [yf.download] hands back: columns grouped under a first level of
    field names (a [MultiIndex]), or one flat level of field names. *)
Inductive RawFrame : Type :=
| MultiCols (idx : list Date) (groups : list (string * list (string * list cell)))
| FlatCols (idx : list Date) (fields : list (string * list cell)).

Definition lookup {A} (k : string) (l : list (string * A)) : option A :=
  match find (fun p => String.eqb (fst p) k) l with
  | Some p => Some (snd p)
  | None => None
  end.

(** [str(c)] of a two-level column label. *)
Definition tuple_str (f t : string) : string :=
  "('" ++ f ++ "', '" ++ t ++ "')".

Definition flatten_groups (groups : list (string * list (string * list cell)))
  : list (string * list cell) :=
  flat_map (fun g => map (fun c => (tuple_str (fst g) (fst c), snd c)) (snd g)) groups.

(** Lines 22-31: prefer "Adj Close", fall back to "Close", else the frame
    itself; a bare series becomes a one-column frame named after the first
    ticker. *)
Definition select_prices (tickers : list string) (raw : RawFrame)
  : option (Frame Date) :=
  match raw with
  | MultiCols idx groups =>
      match lookup "Adj Close" groups with
      | Some cs => Some (mkFrame idx cs)
      | None =>
          match lookup "Close" groups with
          | Some cs => Some (mkFrame idx cs)
          | None => Some (mkFrame idx (flatten_groups groups))
          end
      end
  | FlatCols idx fields =>
      match lookup "Adj Close" fields with
      | Some col => Some (mkFrame idx [("Adj Close", col)])
      | None =>
          match lookup "Close" fields with
          | Some col =>
              match tickers with
              | t :: _ => Some (mkFrame idx [(t, col)])
              | [] => None
              end
          | None => Some (mkFrame idx fields)
          end
      end
  end.

(** Line 33. *)
Definition upper_names (df : Frame Date) : Frame Date :=
  mkFrame (index df) (map (fun c => (upper (fst c), snd c)) (columns df)).

(** The provider: [None] when [import yfinance] fails, else the download
    function of tickers, start and end. *)
Definition provider : Type :=
  option (list string -> string -> option string -> RawFrame).

Definition import_error_msg : string :=
  "yfinance is required to fetch stock data (pip install yfinance)".

Definition get_price_data (yf : provider) (tickers : list string)
           (start : string) (end_ : option string) : M (Frame Date) :=
  match yf with
  | None => exit_with (Raised (ImportError import_error_msg))
  | Some download =>
      match select_prices tickers (download tickers start end_) with
      | None => exit_with (Raised IndexError)
      | Some adj => ret (DF.dropna_all (upper_names adj))
      end
  end.

(* ================================================================== *)
(** * The pipeline: [main] (lines 44-173)                               *)
(* ================================================================== *)

(** The parsed command line (after lines 45-67). *)
Record Args : Type := mkArgs {
  tickers : option string;
  start : string;
  end_ : option string;
  outdir : string;
  save_csv : bool;
  display : bool
}.

(** The surroundings of a run: the provider, the line typed at the prompt,
    the UTC clock already formatted as [%Y%m%dT%H%M%SZ], and the order in
    which the library's sort leaves entries of equal value. *)
Record Env : Type := mkEnv {
  yfinance : provider;
  stdin_line : string;
  utcnow : string;
  tie_rank : Pairs.item -> nat
}.

Definition opt_or (o : option string) (d : string) : string :=
  match o with Some s => if truthy s then s else d | None => d end.

Definition nat_str (n : nat) : string :=
  NilEmpty.string_of_uint (Nat.to_uint n).

Fixpoint ends_with_slash (s : string) : bool :=
  match s with
  | EmptyString => false
  | String c EmptyString => Ascii.eqb c "/"%char
  | String _ s' => ends_with_slash s'
  end.

(** [os.path.join(a, b)] on POSIX, for two components. *)
Definition path_join (a b : string) : string :=
  match b with
  | String "/"%char _ => b
  | _ => if is_empty a || ends_with_slash a then a ++ b else a ++ "/" ++ b
  end.

Definition prompt_msg : string :=
  "Enter tickers separated by comma (leave blank for defaults: "
  ++ default_tickers ++ "): ".

(** Lines 72-74: ask at the prompt; a blank answer selects the defaults. *)
Definition prompt_tickers (env : Env) : M (list string) :=
  emit (Prompt prompt_msg) ;;
  let user := strip (stdin_line env) in
  ret (if truthy user then parse_tickers user else parse_tickers default_tickers).

(** Lines 69-74. *)
Definition resolve_tickers (args : Args) (env : Env) : M (list string) :=
  match tickers args with
  | Some s => if truthy s then ret (parse_tickers s) else prompt_tickers env
  | None => prompt_tickers env
  end.

(** Line 91. *)
Definition tickers_part (tks : list string) : string :=
  join "_" (firstn 5 tks) ++ (if Nat.ltb 5 (length tks) then "_more" else "").

(** Line 93. *)
Definition csv_path (args : Args) (ts : string) (tks : list string) : string :=
  path_join (outdir args) ("prices_" ++ ts ++ "_" ++ tickers_part tks ++ "_adj_close.csv").

(** Lines 92-95. *)
Definition export_csv (args : Args) (ts : string) (tks : list string)
           (prices : Frame Date) : M unit :=
  if save_csv args then
    emit (WriteCsv (csv_path args ts tks) "Date" prices) ;;
    print ("Saved adjusted close CSV to " ++ csv_path args ts tks)
  else ret tt.

(** Lines 98-99 (and 107-108). *)
Definition returns_of (prices : Frame Date) : Frame Date :=
  DF.dropna (DF.pct_change prices).

Definition corr_of (prices : Frame Date) : Frame string :=
  Corr.corr (returns_of prices).

(** Line 102: the columns with at least one non-missing observation. *)
Definition valid_cols (prices : Frame Date) : list (string * list cell) :=
  filter (fun c => negb (DF.all_missing c)) (columns prices).

Definition mem (s : string) (l : list string) : bool := existsb (String.eqb s) l.

(** Line 104: [sorted(list(set(prices.columns) - set(valid_cols)))]. *)
Definition dropped_names (prices : Frame Date) : list string :=
  let valid := map fst (valid_cols prices) in
  Pairs.isort String.leb
    (nodup string_dec (filter (fun n => negb (mem n valid)) (DF.names prices))).

(** Line 106: [prices[valid_cols]]. *)
Definition cleaned (prices : Frame Date) : Frame Date :=
  DF.select_cols (fun c => negb (DF.all_missing c)) prices.

(** The return at row [t] of a price column in the words of the
    specification: [price[t] / price[t-1] - 1]. *)
Definition return_at (col : list cell) (t : nat) : cell :=
  Num.sub (Num.div (nth t col NaN) (nth (t - 1) col NaN)) one.

(** The row positions that the returns table keeps. *)
Definition return_rows (prices : Frame Date) : list nat :=
  DF.rows_where (DF.row_complete (DF.pct_change prices)) (DF.pct_change prices).

(** The return of column [j] at date [t]. *)
Definition return_cell (prices : Frame Date) (t j : nat) : cell :=
  match nth_error (columns prices) j with
  | Some c => return_at (snd c) t
  | None => NaN
  end.

(** The dates after the first on which no ticker's return is missing. *)
Definition complete_dates (prices : Frame Date) : list nat :=
  filter (fun t => forallb (fun c => notna (return_at (snd c) t)) (columns prices))
         (seq 1 (DF.nrows prices - 1)).

(** The observations of a pair of tickers that enter its correlation,
    read off the prices: the returns of the two on the complete dates,
    where both are finite. *)
Definition complete_obs (prices : Frame Date) (i j : nat) : list (Q * Q) :=
  flat_map (fun t => match return_cell prices t i, return_cell prices t j with
                     | Fin a, Fin b => [(a, b)]
                     | _, _ => []
                     end)
           (complete_dates prices).

(** The observations of a pair under pairwise deletion, as the
    specification has it: all the dates on which the two tickers have a
    return, whatever the other tickers have. *)
Definition pairwise_obs (prices : Frame Date) (i j : nat) : list (Q * Q) :=
  Corr.pairwise_complete (Corr.col_values (DF.pct_change prices) i)
                         (Corr.col_values (DF.pct_change prices) j).

(** [r] is Pearson's coefficient of the observations: both sums of squared
    deviations are positive and [r sqrt(Sxx Syy) = Sxy], written without
    the root. *)
Definition is_pearson (obs : list (Q * Q)) (r : Q) : Prop :=
  let sxx := Corr.sqdev (map fst obs) in
  let syy := Corr.sqdev (map snd obs) in
  let sxy := Corr.codev obs in
  0 < sxx /\ 0 < syy /\ r * r * (sxx * syy) == sxy * sxy /\ 0 <= r * sxy.

(** Everything the later stages read. *)
Record derived : Type := mkDerived {
  d_prices : Frame Date;
  d_returns : Frame Date;
  d_corr : Frame string
}.

(** Lines 97-108: derive returns and correlation, then clean and, when a
    column went away, derive them again. *)
Definition derive_and_clean (prices : Frame Date) : M derived :=
  let returns := returns_of prices in
  let corr := Corr.corr returns in
  if negb (Nat.eqb (length (valid_cols prices)) (length (columns prices))) then
    emit (PrintList "Dropping columns with no data:" (dropped_names prices)) ;;
    let prices' := cleaned prices in
    let returns' := returns_of prices' in
    let corr' := Corr.corr returns' in
    ret (mkDerived prices' returns' corr')
  else ret (mkDerived prices returns corr).

(** Lines 114-121, before the finiteness test. *)
Definition normalize_with (prices : Frame Date) (first_vals : list cell) : Frame Date :=
  DF.replace_inf (DF.dropna_all (DF.dropna_cols_all (DF.divide prices first_vals))).

(** One column divided by its own first non-missing value, in the words of
    the specification. *)
Definition normalize_col (c : string * list cell) : string * list cell :=
  match DF.first_valid (snd c) with
  | Some d => (fst c, map (fun v => Num.div v d) (snd c))
  | None => c
  end.

(** Lines 114-121.  On a table with an axis of length zero
    [DataFrame.apply] does not go through the columns: it tries the
    function on an empty series, swallows the [IndexError] of [iloc[0]] and
    returns a copy of the table, which the table is then divided by. *)
Definition normalize (prices : Frame Date) : M (Frame Date) :=
  if DF.empty prices then
    ret (DF.replace_inf (DF.dropna_all (DF.dropna_cols_all (DF.div_self prices))))
  else
    match DF.first_vals (columns prices) with
    | None => exit_with (Raised IndexError)
    | Some fv => ret (normalize_with prices fv)
    end.

Definition skip_normalized_msg : string :=
  "No finite numeric data to plot after normalization; skipping normalized chart.".

(** Lines 137-145 and 159-167: show or save the current figure, then
    release it. *)
Definition show_or_save (args : Args) (shown saved path : string) : M unit :=
  (if display args then
     emit ShowFig ;; print shown
   else
     emit (SaveFig path 200) ;; print (saved ++ path)) ;;
  emit CloseFig.

(** Lines 126-145. *)
Definition present_normalized (args : Args) (ts : string) (normalized : Frame Date)
  : M unit :=
  if negb (DF.any_notna normalized) then print skip_normalized_msg
  else
    emit (PlotLines normalized "Normalized Price Chart (Start = 1.0)") ;;
    show_or_save args "Displayed normalized price chart inline"
                 "Saved normalized price chart to "
                 (path_join (outdir args) ("normalized_price_chart_" ++ ts ++ ".png")).

Definition empty_corr_msg : string :=
  "Correlation matrix is empty; skipping heatmap and pair listing.".

(** Lines 150-173. *)
Definition present_corr (args : Args) (ts : string) (rank : Pairs.item -> nat)
           (corr : Frame string) : M unit :=
  if DF.empty corr || Nat.ltb (DF.nrows corr) 1 then
    print empty_corr_msg ;; exit_with Returned
  else
    emit (PlotHeatmap corr "Daily Returns Correlation Heatmap") ;;
    show_or_save args "Displayed correlation heatmap inline"
                 "Saved correlation heatmap to "
                 (path_join (outdir args) ("correlation_heatmap_" ++ ts ++ ".png")) ;;
    print "Highest Correlations (unique pairs):" ;;
    emit (PrintSeries (Pairs.top_pairs rank corr)).

Definition no_tickers_msg : string := "No tickers specified; exiting.".
Definition no_data_msg : string :=
  "No data returned for the requested tickers/date range; exiting.".
Definition no_columns_msg : string :=
  "No price data available after dropping empty columns; skipping plots.".

Definition fetching_msg (args : Args) (tks : list string) : string :=
  "Fetching " ++ nat_str (length tks) ++ " tickers from " ++ start args
  ++ " to " ++ opt_or (end_ args) "today" ++ "...".

(** Lines 85-173: what the run does with the fetched price table. *)
Definition analyse (args : Args) (ts : string) (rank : Pairs.item -> nat)
           (tks : list string) (prices : Frame Date) : M unit :=
  if DF.empty prices then print no_data_msg ;; exit_with Returned
  else
    export_csv args ts tks prices ;;
    d <- derive_and_clean prices ;;
    if DF.empty (d_prices d) then print no_columns_msg ;; exit_with Returned
    else
      normalized <- normalize (d_prices d) ;;
      present_normalized args ts normalized ;;
      present_corr args ts rank (d_corr d).

(** Line 80: [os.makedirs(outdir, exist_ok=True)].  The empty path names
    no directory: the call raises [FileNotFoundError]. *)
Definition makedirs (path : string) : M unit :=
  emit (MakeDirs path) ;;
  if is_empty path then exit_with (Raised FileNotFoundError) else ret tt.

(** Lines 69-173.  The calls to the outside world other than line 80 are
    taken to succeed: what the file system, the network, the display or
    the end of the input can make of them is not part of a run here.  One
    such failure is decided by the arguments, see [csv_name_plain]. *)
Definition main (args : Args) (env : Env) : M unit :=
  tks <- resolve_tickers args env ;;
  match tks with
  | [] => print no_tickers_msg ;; exit_with Returned
  | _ :: _ =>
      makedirs (outdir args) ;;
      print (fetching_msg args tks) ;;
      prices <- get_price_data (yfinance env) tks (start args) (end_ args) ;;
      analyse args (utcnow env) (tie_rank env) tks prices
  end.

(** ** The values a run goes through *)

(** The tickers resolved by lines 69-74. *)
Definition resolved_tickers (args : Args) (env : Env) : list string :=
  match snd (resolve_tickers args env) with
  | Go tks => tks
  | Stop _ => []
  end.

(** The price table handed back by [get_price_data] when the provider is
    there. *)
Definition acquired (download : list string -> string -> option string -> RawFrame)
           (args : Args) (tks : list string) : Frame Date :=
  match select_prices tks (download tks (start args) (end_ args)) with
  | Some adj => DF.dropna_all (upper_names adj)
  | None => mkFrame [] []
  end.

(** The normalized table of a cleaned price table. *)
Definition normalized_table (prices : Frame Date) : Frame Date :=
  match DF.first_vals (columns prices) with
  | Some fv => normalize_with prices fv
  | None => prices
  end.

(** ** Observations on tables and traces *)

(** A price column quoted in another unit: every finite price multiplied
    by [k]. *)
Definition scale (k : Q) (c : cell) : cell :=
  match c with
  | Fin q => fin (k * q)
  | _ => c
  end.

Definition scale_frame (k : Q) (df : Frame Date) : Frame Date :=
  mkFrame (index df) (map (fun c => (fst c, map (scale k) (snd c))) (columns df)).

(** A download in which every column has one cell per date. *)
Definition raw_wf (raw : RawFrame) : Prop :=
  match raw with
  | MultiCols idx groups =>
      Forall (fun g => Forall (fun c => length (snd c) = length idx) (snd g)) groups
  | FlatCols idx fields =>
      Forall (fun c => length (snd c) = length idx) fields
  end.

(** Events that create a figure, that release one, and the path of a file
    an event writes. *)
Definition opens_fig (e : event) : bool :=
  match e with PlotLines _ _ | PlotHeatmap _ _ => true | _ => false end.

Definition closes_fig (e : event) : bool :=
  match e with CloseFig => true | _ => false end.

Definition written_path (e : event) : option string :=
  match e with
  | WriteCsv p _ _ => Some p
  | SaveFig p _ => Some p
  | _ => None
  end.

Definition count_events (p : event -> bool) (tr : list event) : nat :=
  length (filter p tr).

(** Figures are handled one at a time: a figure is created only when none
    is open, shown or saved only while one is open, and released before
    the trace ends. *)
Fixpoint figures_ok (open : bool) (tr : list event) : bool :=
  match tr with
  | [] => negb open
  | e :: tr' =>
      match e with
      | PlotLines _ _ | PlotHeatmap _ _ => negb open && figures_ok true tr'
      | ShowFig | SaveFig _ _ => open && figures_ok open tr'
      | CloseFig => open && figures_ok false tr'
      | _ => figures_ok open tr'
      end
  end.



(** The three file names of a run. *)
Definition run_paths (args : Args) (env : Env) : list string :=
  [csv_path args (utcnow env) (resolved_tickers args env);
   path_join (outdir args) ("normalized_price_chart_" ++ utcnow env ++ ".png");
   path_join (outdir args) ("correlation_heatmap_" ++ utcnow env ++ ".png")].

(** The defined entries strictly above the diagonal, as the report sees
    them. *)
Definition upper_entries (m : Frame string) : list Pairs.item :=
  filter Pairs.defined (Pairs.stack (Pairs.where_ Pairs.triu1 m)).

(* ================================================================== *)
(** * Properties of the text operations                                 *)
(* ================================================================== *)

Module TextFacts.

Ltac ascii_cases c := destruct c as [[] [] [] [] [] [] [] []]; reflexivity.

Lemma is_space_upper (c : ascii) : is_space (upper_char c) = is_space c.
Proof. ascii_cases c. Qed.

Lemma is_comma_upper (c : ascii) : is_comma (upper_char c) = is_comma c.
Proof. ascii_cases c. Qed.

Lemma is_lower_upper (c : ascii) : is_lower (upper_char c) = false.
Proof. ascii_cases c. Qed.

Lemma upper_char_idem (c : ascii) : upper_char (upper_char c) = upper_char c.
Proof. ascii_cases c. Qed.

Lemma upper_idem (s : string) : upper (upper s) = upper s.
Proof.
  induction s as [|c s IH]; simpl; [reflexivity|].
  now rewrite upper_char_idem, IH.
Qed.

Lemma is_empty_upper (s : string) : is_empty (upper s) = is_empty s.
Proof. now destruct s. Qed.

Lemma truthy_upper (s : string) : truthy (upper s) = truthy s.
Proof. unfold truthy. now rewrite is_empty_upper. Qed.

Lemma lstrip_upper (s : string) : lstrip (upper s) = upper (lstrip s).
Proof.
  induction s as [|c s IH]; simpl; [reflexivity|].
  rewrite is_space_upper. now destruct (is_space c).
Qed.

Lemma rstrip_upper (s : string) : rstrip (upper s) = upper (rstrip s).
Proof.
  induction s as [|c s IH]; simpl; [reflexivity|].
  rewrite is_space_upper, IH, is_empty_upper.
  now destruct (is_space c && is_empty (rstrip s)).
Qed.

Lemma strip_upper (s : string) : strip (upper s) = upper (strip s).
Proof. unfold strip. now rewrite lstrip_upper, rstrip_upper. Qed.

Lemma lstrip_idem (s : string) : lstrip (lstrip s) = lstrip s.
Proof.
  induction s as [|c s IH]; simpl; [reflexivity|].
  destruct (is_space c) eqn:E; [assumption|]. simpl. now rewrite E.
Qed.

Lemma rstrip_idem (s : string) : rstrip (rstrip s) = rstrip s.
Proof.
  induction s as [|c s IH]; simpl; [reflexivity|].
  destruct (is_space c && is_empty (rstrip s)) eqn:E; [reflexivity|].
  simpl. now rewrite IH, E.
Qed.

(** Trimming on the left and on the right commute. *)
Lemma lstrip_rstrip (s : string) : lstrip (rstrip s) = rstrip (lstrip s).
Proof.
  induction s as [|c s IH]; simpl; [reflexivity|].
  destruct (is_space c) eqn:Ec; simpl.
  - destruct (is_empty (rstrip s)) eqn:Er; simpl.
    + rewrite <- IH. destruct (rstrip s); [reflexivity|discriminate].
    + now rewrite Ec.
  - now rewrite Ec.
Qed.

Lemma strip_idem (s : string) : strip (strip s) = strip s.
Proof.
  unfold strip.
  now rewrite lstrip_rstrip, lstrip_idem, rstrip_idem.
Qed.

(** What [lstrip] and [rstrip] leave starts, respectively ends, with a
    character that is not whitespace. *)
Lemma lstrip_first (s : string) (c : ascii) :
  first_char (lstrip s) = Some c -> is_space c = false.
Proof.
  induction s as [|a s IH]; simpl; [discriminate|].
  destruct (is_space a) eqn:E; [assumption|].
  simpl. now intros [= <-].
Qed.

Lemma rstrip_last (s : string) (c : ascii) :
  last_char (rstrip s) = Some c -> is_space c = false.
Proof.
  induction s as [|a s IH]; simpl; [discriminate|].
  destruct (is_space a) eqn:Ea; simpl.
  - destruct (rstrip s) as [|b r] eqn:Er; simpl; [discriminate|]. exact IH.
  - destruct (rstrip s) as [|b r] eqn:Er; simpl.
    + now intros [= <-].
    + exact IH.
Qed.

Lemma strip_no_surrounding_space (s : string) :
  no_surrounding_space (strip s) = true.
Proof.
  unfold no_surrounding_space.
  destruct (first_char (strip s)) as [a|] eqn:Ea; [|reflexivity].
  destruct (last_char (strip s)) as [b|] eqn:Eb; [|reflexivity].
  unfold strip in Eb. apply rstrip_last in Eb.
  unfold strip in Ea. rewrite <- lstrip_rstrip in Ea. apply lstrip_first in Ea.
  now rewrite Ea, Eb.
Qed.

Lemma first_char_upper (s : string) :
  first_char (upper s) = option_map upper_char (first_char s).
Proof. now destruct s. Qed.

Lemma last_char_upper (s : string) :
  last_char (upper s) = option_map upper_char (last_char s).
Proof.
  induction s as [|a s IH]; simpl; [reflexivity|].
  destruct s as [|b s]; [reflexivity|]. exact IH.
Qed.

Lemma no_surrounding_space_upper (s : string) :
  no_surrounding_space (upper s) = no_surrounding_space s.
Proof.
  unfold no_surrounding_space.
  rewrite first_char_upper, last_char_upper.
  destruct (first_char s), (last_char s); simpl; try reflexivity.
  now rewrite !is_space_upper.
Qed.

Lemma no_lower_upper (s : string) : no_lower (upper s) = true.
Proof.
  induction s as [|c s IH]; simpl; [reflexivity|].
  unfold no_lower in *. simpl. now rewrite is_lower_upper, IH.
Qed.

(** Commas. *)
Lemma no_comma_upper (s : string) : no_comma (upper s) = no_comma s.
Proof.
  unfold no_comma.
  induction s as [|c s IH]; simpl; [reflexivity|].
  now rewrite is_comma_upper, IH.
Qed.

Lemma no_comma_lstrip (s : string) : no_comma s = true -> no_comma (lstrip s) = true.
Proof.
  unfold no_comma.
  induction s as [|c s IH]; simpl; [reflexivity|].
  intros H. apply andb_prop in H as [Hc Hs].
  destruct (is_space c); [auto|]. simpl. now rewrite Hc, Hs.
Qed.

Lemma no_comma_rstrip (s : string) : no_comma s = true -> no_comma (rstrip s) = true.
Proof.
  unfold no_comma.
  induction s as [|c s IH]; simpl; [reflexivity|].
  intros H. apply andb_prop in H as [Hc Hs].
  destruct (is_space c && is_empty (rstrip s)); [reflexivity|].
  simpl. now rewrite Hc, IH.
Qed.

Lemma no_comma_strip (s : string) : no_comma s = true -> no_comma (strip s) = true.
Proof. intros H. unfold strip. now apply no_comma_rstrip, no_comma_lstrip. Qed.

Lemma split_comma_nonempty (s : string) : split_comma s <> [].
Proof.
  induction s as [|c s IH]; simpl; [discriminate|].
  destruct (is_comma c); [discriminate|].
  destruct (split_comma s); discriminate.
Qed.

Lemma split_comma_no_comma (s : string) :
  Forall (fun t => no_comma t = true) (split_comma s).
Proof.
  induction s as [|c s IH]; simpl.
  - now constructor.
  - destruct (is_comma c) eqn:E.
    + now constructor.
    + destruct (split_comma s) as [|h t].
      * constructor; [|constructor]. unfold no_comma. simpl. now rewrite E.
      * inversion IH as [|? ? Hh Ht]; subst.
        constructor; [|assumption]. unfold no_comma in *. simpl. now rewrite E.
Qed.

(** A piece without commas is a single token. *)
Lemma split_comma_single (x : string) :
  no_comma x = true -> split_comma x = [x].
Proof.
  unfold no_comma.
  induction x as [|c x IH]; simpl; [reflexivity|].
  intros H. apply andb_prop in H as [Hc Hx].
  apply negb_true_iff in Hc. rewrite Hc, (IH Hx). reflexivity.
Qed.

Lemma split_comma_app (x rest : string) :
  no_comma x = true ->
  split_comma (x ++ "," ++ rest) = x :: split_comma rest.
Proof.
  unfold no_comma.
  induction x as [|c x IH]; simpl; [reflexivity|].
  intros H. apply andb_prop in H as [Hc Hx].
  apply negb_true_iff in Hc. rewrite Hc.
  simpl in IH. now rewrite (IH Hx).
Qed.

(** Splitting undoes joining for comma-free pieces. *)
Lemma split_join (l : list string) :
  l <> [] -> Forall (fun t => no_comma t = true) l ->
  split_comma (join "," l) = l.
Proof.
  induction l as [|x l IH]; [congruence|].
  intros _ H. inversion H as [|? ? Hx Hl]; subst.
  destruct l as [|y l].
  - simpl. now apply split_comma_single.
  - change (join "," (x :: y :: l)) with ((x ++ "," ++ join "," (y :: l))%string).
    rewrite split_comma_app by assumption.
    f_equal. apply IH; [discriminate|assumption].
Qed.

End TextFacts.

(* ================================================================== *)
(** * The input resolver                                                *)
(* ================================================================== *)

Section Resolver.
Import TextFacts.

(** The guard [if not s] changes nothing: the comprehension already
    yields the empty list on the empty string. *)
Lemma parse_tickers_comprehension (s : string) :
  parse_tickers s =
  map (fun t => upper (strip t)) (filter (fun t => truthy (strip t)) (split_comma s)).
Proof.
  unfold parse_tickers. destruct s; reflexivity.
Qed.

Lemma filter_map_truthy (l : list string) :
  filter truthy (map (fun t => upper (strip t)) l) =
  map (fun t => upper (strip t)) (filter (fun t => truthy (strip t)) l).
Proof.
  induction l as [|t l IH]; simpl; [reflexivity|].
  rewrite truthy_upper. destruct (truthy (strip t)); simpl; now rewrite IH.
Qed.

(** Every ticker produced is a trimmed, upper-cased, non-empty,
    comma-free token. *)
Lemma parse_tickers_elements (s : string) :
  Forall (fun t => truthy t = true /\ no_surrounding_space t = true /\
                   no_lower t = true /\ no_comma t = true /\
                   upper (strip t) = t)
         (parse_tickers s).
Proof.
  rewrite parse_tickers_comprehension.
  apply Forall_forall. intros t Ht.
  apply in_map_iff in Ht as (u & <- & Hu).
  apply filter_In in Hu as [Hin Htr].
  repeat split.
  - now rewrite truthy_upper.
  - rewrite no_surrounding_space_upper. apply strip_no_surrounding_space.
  - apply no_lower_upper.
  - rewrite no_comma_upper. apply no_comma_strip.
    pose proof (split_comma_no_comma s) as H.
    rewrite Forall_forall in H. now apply H.
  - now rewrite strip_upper, strip_idem, upper_idem.
Qed.

Lemma parse_tickers_fixpoint (l : list string) :
  Forall (fun t => truthy t = true /\ no_comma t = true /\ upper (strip t) = t) l ->
  parse_tickers (join "," l) = l.
Proof.
  intros H. rewrite parse_tickers_comprehension.
  destruct l as [|x l]; [reflexivity|].
  rewrite split_join.
  - induction H as [|t l' (Ht & _ & Hf) _ IH]; [reflexivity|].
    cbn [filter map].
    assert (Hs : truthy (strip t) = true).
    { rewrite <- truthy_upper. now rewrite Hf. }
    rewrite Hs. cbn [map]. now rewrite Hf, IH.
  - discriminate.
  - eapply Forall_impl; [|exact H]. now intros t (_ & Hc & _).
Qed.

(** The characters of the tickers are upper-cased characters of the
    input. *)
Lemma chars_upper (s : string) : chars (upper s) = map upper_char (chars s).
Proof. induction s as [|c s IH]; simpl; [reflexivity|]. now rewrite IH. Qed.

Lemma chars_lstrip (s : string) (c : ascii) :
  In c (chars (lstrip s)) -> In c (chars s).
Proof.
  induction s as [|a s IH]; simpl; [tauto|].
  destruct (is_space a); simpl; tauto.
Qed.

Lemma chars_rstrip (s : string) (c : ascii) :
  In c (chars (rstrip s)) -> In c (chars s).
Proof.
  induction s as [|a s IH]; simpl; [tauto|].
  destruct (is_space a && is_empty (rstrip s)); simpl; tauto.
Qed.

Lemma chars_strip (s : string) (c : ascii) :
  In c (chars (strip s)) -> In c (chars s).
Proof. unfold strip. intros H. now apply chars_lstrip, chars_rstrip. Qed.

Lemma chars_split_comma (s t : string) (c : ascii) :
  In t (split_comma s) -> In c (chars t) -> In c (chars s).
Proof.
  revert t. induction s as [|a s IH]; simpl; intros t Ht Hc.
  - destruct Ht as [<-|[]]. exact Hc.
  - destruct (is_comma a).
    + destruct Ht as [<-|Ht]; [destruct Hc|]. right. eauto.
    + destruct (split_comma s) as [|h l] eqn:E.
      * destruct Ht as [<-|[]]. simpl in Hc. tauto.
      * destruct Ht as [<-|Ht].
        -- simpl in Hc. destruct Hc as [Hc|Hc]; [now left|right].
           apply (IH h); [now left|exact Hc].
        -- right. apply (IH t); [now right|exact Hc].
Qed.

Lemma parse_tickers_chars (s t : string) (c : ascii) :
  In t (parse_tickers s) -> In c (chars t) ->
  exists c0, In c0 (chars s) /\ c = upper_char c0.
Proof.
  rewrite parse_tickers_comprehension. intros Ht Hc.
  apply in_map_iff in Ht as (u & <- & Hu).
  apply filter_In in Hu as [Hu _].
  rewrite chars_upper in Hc. apply in_map_iff in Hc as (c0 & <- & Hc0).
  exists c0. split; [|reflexivity].
  eapply chars_split_comma; [exact Hu|]. now apply chars_strip.
Qed.

Lemma all_chars_In (p : ascii -> bool) (s : string) :
  all_chars p s = true <-> forall c, In c (chars s) -> p c = true.
Proof.
  induction s as [|a s IH]; simpl.
  - split; [intros _ c []|reflexivity].
  - rewrite andb_true_iff, IH. split.
    + intros [Ha Hs] c [<-|Hc]; auto.
    + intros H. split; [apply H; now left|]. intros c Hc. apply H. now right.
Qed.

(** A lowercase character that [upper] returns is one without a capital,
    and not an ASCII character. *)
Lemma lowercase_after_upper (c : ascii) :
  is_lowercase (upper_char c) = true ->
  upper_char c = c /\ is_ascii c = false.
Proof. destruct c as [[] [] [] [] [] [] [] []]; simpl; intros H; (discriminate H || now split). Qed.

Lemma is_ascii_upper (c : ascii) : is_ascii c = true -> is_ascii (upper_char c) = true.
Proof. destruct c as [[] [] [] [] [] [] [] []]; simpl; intros H; (discriminate H || reflexivity). Qed.

(** The resolver, case by case (lines 69-74). *)
Lemma resolve_tickers_given (args : Args) (env : Env) (s : string) :
  tickers args = Some s -> s <> "" ->
  resolve_tickers args env = ([], Go (parse_tickers s)).
Proof.
  intros Ht Hs. unfold resolve_tickers. rewrite Ht.
  destruct s as [|c s]; [congruence|reflexivity].
Qed.

Lemma resolve_tickers_prompted (args : Args) (env : Env) :
  tickers args = None \/ tickers args = Some "" ->
  resolve_tickers args env =
  ([Prompt prompt_msg],
   Go (if is_empty (strip (stdin_line env)) then parse_tickers default_tickers
       else parse_tickers (strip (stdin_line env)))).
Proof.
  intros [Ht|Ht]; unfold resolve_tickers, prompt_tickers; rewrite Ht;
    unfold truthy; simpl; now destruct (is_empty (strip (stdin_line env))).
Qed.

End Resolver.

(** C9: the resolver returns the comma-separated tokens trimmed,
    upper-cased, without the empty ones and in their original order, as on
    the example [" aapl, MSFT ,"]; lines 69-74 apply it to the value of
    [-t] when it is not empty and otherwise to the line typed at the
    prompt, where a blank line selects the default list
    SPY, QQQ, IWM, XLK, XLF, TLT. *)
Theorem resolver_normalizes_tickers :
  (forall s, parse_tickers s = resolver_spec s) /\
  (forall s t, In t (parse_tickers s) <->
               exists u, In u (split_comma s) /\ strip u <> "" /\ t = upper (strip u)) /\
  parse_tickers " aapl, MSFT ," = ["AAPL"; "MSFT"] /\
  (forall args env s,
      tickers args = Some s -> s <> "" ->
      resolve_tickers args env = ([], Go (parse_tickers s))) /\
  (forall args env,
      tickers args = None \/ tickers args = Some "" ->
      strip (stdin_line env) <> "" ->
      resolve_tickers args env =
      ([Prompt prompt_msg], Go (parse_tickers (strip (stdin_line env))))) /\
  (forall args env,
      tickers args = None \/ tickers args = Some "" ->
      strip (stdin_line env) = "" ->
      resolve_tickers args env =
      ([Prompt prompt_msg], Go ["SPY"; "QQQ"; "IWM"; "XLK"; "XLF"; "TLT"])).
Proof.
  split; [|split; [|split; [|split; [|split]]]].
  - intros s. rewrite parse_tickers_comprehension. unfold resolver_spec.
    symmetry. apply filter_map_truthy.
  - intros s t. rewrite parse_tickers_comprehension, in_map_iff. split.
    + intros (u & <- & Hu). apply filter_In in Hu as [Hu Htr].
      exists u. split; [exact Hu|]. split; [|reflexivity].
      intros E. rewrite E in Htr. discriminate.
    + intros (u & Hu & Hne & ->). exists u. split; [reflexivity|].
      apply filter_In. split; [exact Hu|].
      destruct (strip u); [congruence|reflexivity].
  - reflexivity.
  - intros args env s. apply resolve_tickers_given.
  - intros args env Ht Hl. rewrite (resolve_tickers_prompted args env Ht).
    destruct (strip (stdin_line env)); [congruence|reflexivity].
  - intros args env Ht Hl. rewrite (resolve_tickers_prompted args env Ht), Hl.
    reflexivity.
Qed.

Lemma resolver_normalizes_tickers_witness :
  resolve_tickers (mkArgs None "2021-01-01" None "outputs" false false)
                  (mkEnv None "   " "20240102T030405Z" Pairs.stacking_order) =
  ([Prompt prompt_msg], Go ["SPY"; "QQQ"; "IWM"; "XLK"; "XLF"; "TLT"]) /\
  resolve_tickers (mkArgs None "2021-01-01" None "outputs" false false)
                  (mkEnv None " msft,aapl " "20240102T030405Z" Pairs.stacking_order) =
  ([Prompt prompt_msg], Go ["MSFT"; "AAPL"]) /\
  resolve_tickers (mkArgs (Some "tlt") "2021-01-01" None "outputs" false false)
                  (mkEnv None "msft" "20240102T030405Z" Pairs.stacking_order) =
  ([], Go ["TLT"]).
Proof.
  destruct resolver_normalizes_tickers as (_ & _ & _ & H1 & H2 & H3).
  split; [|split].
  - apply H3; [now left|reflexivity].
  - rewrite H2; [reflexivity|now left|discriminate].
  - rewrite (H1 _ _ "tlt"); [reflexivity|reflexivity|discriminate].
Defined.

(** C10, as the code has it: [parse_tickers] is idempotent through the
    comma-join of its own output, and every ticker it returns is
    non-empty, has no surrounding whitespace and no lowercase ASCII
    letter; for an ASCII input no lowercase letter is left at all, and a
    lowercase letter that does remain is one without a capital, which
    [str.upper()] leaves as it is. *)
Theorem parse_tickers_idempotent (s : string) :
  parse_tickers (join "," (parse_tickers s)) = parse_tickers s /\
  Forall (fun t => truthy t = true /\ no_surrounding_space t = true /\
                   no_lower t = true)
         (parse_tickers s) /\
  (ascii_only s = true ->
   Forall (fun t => no_lowercase t = true) (parse_tickers s)) /\
  (forall t c, In t (parse_tickers s) -> In c (chars t) ->
               is_lowercase c = true ->
               upper_char c = c /\ is_ascii c = false /\ In c (chars s)).
Proof.
  pose proof (parse_tickers_elements s) as H.
  split; [|split; [|split]].
  - apply parse_tickers_fixpoint.
    eapply Forall_impl; [|exact H]. now intros t (? & _ & _ & ? & ?).
  - eapply Forall_impl; [|exact H]. now intros t (? & ? & ? & _).
  - intros Ha. apply Forall_forall. intros t Ht.
    apply all_chars_In. intros c Hc.
    destruct (parse_tickers_chars s t c Ht Hc) as (c0 & Hc0 & ->).
    destruct (is_lowercase (upper_char c0)) eqn:E; [|reflexivity].
    apply lowercase_after_upper in E as [_ E].
    rewrite (proj1 (all_chars_In is_ascii s) Ha c0 Hc0) in E. discriminate.
  - intros t c Ht Hc Hl.
    destruct (parse_tickers_chars s t c Ht Hc) as (c0 & Hc0 & ->).
    destruct (lowercase_after_upper c0 Hl) as [Hu Ha].
    rewrite Hu. now repeat split.
Qed.

(** The ordinal indicator U+00AA is a lowercase letter without a capital:
    it comes back from the resolver as it went in. *)
Lemma parse_tickers_lowercase_counterexample :
  let ord := ascii_of_nat 170 in
  is_lowercase ord = true /\
  parse_tickers (String ord "") = [String ord ""] /\
  parse_tickers (String "a" (String ord "")) = [String "A" (String ord "")] /\
  ~ (forall s, Forall (fun t => no_lowercase t = true) (parse_tickers s)).
Proof.
  cbv zeta. split; [reflexivity|]. split; [reflexivity|]. split; [reflexivity|].
  intros H. specialize (H (String (ascii_of_nat 170) "")).
  inversion H as [|? ? Hx _]. discriminate Hx.
Qed.

(* ================================================================== *)
(** * Properties of the table operations                                *)
(* ================================================================== *)

Module DFFacts.

Lemma div_nan_r (a : cell) : Num.div a NaN = NaN.
Proof. now destruct a. Qed.

Lemma pick_nth {A} (d : A) (l : list A) (ks : list nat) :
  Forall (fun t => t < length l)%nat ks ->
  DF.pick ks l = map (fun t => nth t l d) ks.
Proof.
  unfold DF.pick.
  induction 1 as [|t ks Ht _ IH]; simpl; [reflexivity|].
  rewrite IH.
  destruct (nth_error l t) as [a|] eqn:E.
  - now rewrite (nth_error_nth _ _ d E).
  - apply nth_error_None in E. lia.
Qed.

Lemma pick_length {A} (l : list A) (ks : list nat) :
  Forall (fun t => t < length l)%nat ks -> length (DF.pick ks l) = length ks.
Proof.
  intros H. destruct l as [|a l].
  - destruct H as [|t ks Ht _]; [reflexivity|]. simpl in Ht. lia.
  - rewrite (pick_nth a) by assumption. apply length_map.
Qed.

Lemma rows_where_bound {I} (p : nat -> bool) (df : Frame I) :
  Forall (fun t => t < DF.nrows df)%nat (DF.rows_where p df).
Proof.
  apply Forall_forall. intros t Ht.
  apply filter_In in Ht as [Ht _]. apply in_seq in Ht. lia.
Qed.

Lemma rows_where_In {I} (p : nat -> bool) (df : Frame I) (t : nat) :
  In t (DF.rows_where p df) <-> (t < DF.nrows df)%nat /\ p t = true.
Proof.
  unfold DF.rows_where. rewrite filter_In, in_seq. intuition lia.
Qed.

Lemma shift1_length (l : list cell) : length (DF.shift1 l) = length l.
Proof.
  unfold DF.shift1. rewrite length_firstn. simpl. lia.
Qed.

Lemma pct_change_col_length (l : list cell) :
  length (DF.pct_change_col l) = length l.
Proof.
  unfold DF.pct_change_col.
  rewrite length_map, length_combine, shift1_length. lia.
Qed.

(** The cell of [data / data.shift(1) - 1] at each row. *)
Lemma pct_nth_gen (l : list cell) :
  forall (prev : cell) (t : nat), (t < length l)%nat ->
  nth t (map (fun p => Num.sub (Num.div (fst p) (snd p)) one)
             (combine l (firstn (length l) (prev :: l)))) NaN =
  Num.sub (Num.div (nth t l NaN)
                   (match t with O => prev | S t' => nth t' l NaN end)) one.
Proof.
  induction l as [|x l IH]; intros prev t Ht; simpl in Ht; [lia|].
  destruct t as [|t]; [reflexivity|].
  cbn [length firstn combine map nth].
  rewrite IH by lia. now destruct t.
Qed.

Lemma pct_change_col_first (l : list cell) :
  nth 0 (DF.pct_change_col l) NaN = NaN.
Proof.
  destruct l as [|x l]; [reflexivity|].
  unfold DF.pct_change_col, DF.shift1.
  rewrite pct_nth_gen by (simpl; lia).
  now rewrite div_nan_r.
Qed.

Lemma pct_change_col_nth (l : list cell) (t : nat) :
  (1 <= t < length l)%nat ->
  nth t (DF.pct_change_col l) NaN = return_at l t.
Proof.
  intros Ht. unfold DF.pct_change_col, DF.shift1, return_at.
  rewrite pct_nth_gen by lia.
  destruct t as [|t]; [lia|]. now rewrite Nat.sub_1_r.
Qed.

Lemma pct_change_wf {I} (df : Frame I) : DF.wf df -> DF.wf (DF.pct_change df).
Proof.
  unfold DF.wf, DF.pct_change, DF.nrows. simpl. intros H.
  apply Forall_map. eapply Forall_impl; [|exact H].
  intros c Hc. simpl. now rewrite pct_change_col_length.
Qed.

(** With the historical forward filling the returns are the same as long
    as no price is missing after the first observation of its column. *)
Lemma ffill_from_notna (l : list cell) (last : cell) :
  forallb notna l = true -> DF.ffill_from last l = l.
Proof.
  revert last. induction l as [|x l IH]; intros last H; simpl in *; [reflexivity|].
  apply andb_prop in H as [Hx Hl].
  unfold notna in Hx. apply negb_true_iff in Hx. rewrite Hx.
  now rewrite IH.
Qed.

Lemma ffill_gap_free (l : list cell) : DF.gap_free l = true -> DF.ffill l = l.
Proof.
  unfold DF.ffill.
  induction l as [|x l IH]; simpl; [reflexivity|].
  destruct (isna x) eqn:E.
  - intros H. rewrite IH by assumption. now destruct x.
  - intros H. now rewrite ffill_from_notna.
Qed.

Lemma pct_change_pad_agrees (l : list cell) :
  DF.gap_free l = true -> DF.pct_change_pad_col l = DF.pct_change_col l.
Proof.
  intros H. unfold DF.pct_change_pad_col. now rewrite ffill_gap_free.
Qed.

End DFFacts.

(* ================================================================== *)
(** * Returns                                                           *)
(* ================================================================== *)

Section Returns.
Import DFFacts.

Lemma return_rows_bound (prices : Frame Date) :
  Forall (fun t => t < DF.nrows prices)%nat (return_rows prices).
Proof. apply (rows_where_bound _ (DF.pct_change prices)). Qed.

Lemma row_complete_pct (prices : Frame Date) (t : nat) :
  DF.row_complete (DF.pct_change prices) t =
  forallb (fun c => notna (nth t (DF.pct_change_col (snd c)) NaN)) (columns prices).
Proof.
  unfold DF.row_complete, DF.pct_change. simpl.
  induction (columns prices) as [|c cs IH]; simpl; [reflexivity|].
  now rewrite IH.
Qed.

Lemma return_rows_not_first (prices : Frame Date) :
  columns prices <> [] -> ~ In 0%nat (return_rows prices).
Proof.
  intros Hne Hin.
  apply rows_where_In in Hin as [_ Hc].
  rewrite row_complete_pct in Hc.
  destruct (columns prices) as [|c cs]; [congruence|].
  simpl in Hc. now rewrite pct_change_col_first in Hc.
Qed.

Lemma return_rows_In (prices : Frame Date) (t : nat) :
  DF.wf prices -> columns prices <> [] ->
  In t (return_rows prices) <->
  (1 <= t < DF.nrows prices)%nat /\
  forall c, In c (columns prices) -> isna (return_at (snd c) t) = false.
Proof.
  intros Hwf Hne. split.
  - intros Hin.
    assert (Ht : (1 <= t)%nat).
    { destruct t; [|lia]. now apply return_rows_not_first in Hin. }
    apply rows_where_In in Hin as [Hlt Hc].
    change (DF.nrows (DF.pct_change prices)) with (DF.nrows prices) in Hlt.
    split; [lia|]. intros c Hcin.
    rewrite row_complete_pct, forallb_forall in Hc.
    specialize (Hc c Hcin).
    unfold DF.wf in Hwf. rewrite Forall_forall in Hwf.
    rewrite pct_change_col_nth in Hc by (rewrite (Hwf c Hcin); lia).
    unfold notna in Hc. now apply negb_true_iff in Hc.
  - intros [Ht Hall]. apply rows_where_In.
    change (DF.nrows (DF.pct_change prices)) with (DF.nrows prices).
    split; [lia|].
    rewrite row_complete_pct, forallb_forall. intros c Hcin.
    unfold DF.wf in Hwf. rewrite Forall_forall in Hwf.
    rewrite pct_change_col_nth by (rewrite (Hwf c Hcin); lia).
    unfold notna. now rewrite (Hall c Hcin).
Qed.

Lemma returns_of_columns (prices : Frame Date) :
  DF.wf prices -> columns prices <> [] ->
  returns_of prices =
  mkFrame (DF.pick (return_rows prices) (index prices))
          (map (fun c => (fst c, map (return_at (snd c)) (return_rows prices)))
               (columns prices)).
Proof.
  intros Hwf Hne.
  unfold returns_of, DF.dropna, DF.take_rows. fold (return_rows prices).
  f_equal. unfold DF.pct_change. cbn [columns].
  rewrite map_map. apply map_ext_in. intros c Hc. cbn [fst snd].
  f_equal.
  assert (Hlen : length (snd c) = DF.nrows prices).
  { unfold DF.wf in Hwf. rewrite Forall_forall in Hwf. now apply Hwf. }
  rewrite (pick_nth NaN).
  - apply map_ext_in. intros t Ht.
    apply pct_change_col_nth.
    rewrite Hlen.
    pose proof (proj1 (return_rows_In prices t Hwf Hne) Ht). lia.
  - rewrite pct_change_col_length, Hlen. apply return_rows_bound.
Qed.

End Returns.

(** C8: for a price table with at least one column, the returns table
    holds, for every column, [price[t] / price[t-1] - 1] at the rows it
    keeps; the first row is never kept; the rows kept are exactly those
    after the first in which no column's return is undefined; and for the
    prices [100, 110, 99] the returns are [0.10, -0.10] and the normalized
    series is [1.0, 1.10, 0.99]. *)
Theorem returns_table_formula :
  (forall prices : Frame Date,
      DF.wf prices -> columns prices <> [] ->
      returns_of prices =
      mkFrame (DF.pick (return_rows prices) (index prices))
              (map (fun c => (fst c, map (return_at (snd c)) (return_rows prices)))
                   (columns prices)) /\
      ~ In 0%nat (return_rows prices) /\
      (forall t, In t (return_rows prices) <->
                 (1 <= t < DF.nrows prices)%nat /\
                 forall c, In c (columns prices) ->
                           isna (return_at (snd c) t) = false)) /\
  (let prices := mkFrame [0; 1; 2]%nat [("A", [Fin 100; Fin 110; Fin 99])] in
   returns_of prices = mkFrame [1; 2]%nat [("A", [Fin (1 # 10); Fin (- 1 # 10)])] /\
   normalize prices =
   ([], Go (mkFrame [0; 1; 2]%nat [("A", [Fin 1; Fin (11 # 10); Fin (99 # 100)])]))).
Proof.
  split.
  - intros prices Hwf Hne. split; [|split].
    + now apply returns_of_columns.
    + now apply return_rows_not_first.
    + intros t. now apply return_rows_In.
  - split; reflexivity.
Qed.

Lemma returns_table_formula_witness :
  let prices := mkFrame [0; 1; 2; 3]%nat
                        [("A", [Fin 100; Fin 110; NaN; Fin 99]);
                         ("B", [Fin 10; Fin 20; Fin 30; Fin 60])] in
  returns_of prices = mkFrame [1]%nat [("A", [Fin (1 # 10)]); ("B", [Fin 1])] /\
  ~ In 0%nat (return_rows prices).
Proof.
  set (prices := mkFrame [0; 1; 2; 3]%nat
                        [("A", [Fin 100; Fin 110; NaN; Fin 99]);
                         ("B", [Fin 10; Fin 20; Fin 30; Fin 60])]).
  assert (Hwf : DF.wf prices) by (repeat constructor).
  assert (Hne : columns prices <> []) by discriminate.
  destruct (proj1 returns_table_formula prices Hwf Hne) as (H1 & H2 & _).
  split; [|exact H2].
  rewrite H1. reflexivity.
Defined.

(* ================================================================== *)
(** * Sorting                                                           *)
(* ================================================================== *)

Module SortFacts.

Section Isort.
Context {A : Type} (le : A -> A -> bool).
Hypothesis le_total : forall a b, le a b = true \/ le b a = true.

Let R (a b : A) : Prop := le a b = true.

Lemma insert_perm (a : A) (l : list A) :
  Permutation (Pairs.insert le a l) (a :: l).
Proof.
  induction l as [|b l IH]; simpl; [reflexivity|].
  destruct (le a b); [reflexivity|].
  rewrite IH. apply perm_swap.
Qed.

Lemma isort_perm (l : list A) : Permutation (Pairs.isort le l) l.
Proof.
  induction l as [|a l IH]; simpl; [reflexivity|].
  rewrite insert_perm. now constructor.
Qed.

Lemma insert_hdrel (a b : A) (l : list A) :
  R b a -> HdRel R b l -> HdRel R b (Pairs.insert le a l).
Proof.
  intros Hba Hl. destruct l as [|c l]; simpl.
  - now constructor.
  - destruct (le a c); constructor; [assumption|].
    now inversion Hl.
Qed.

Lemma insert_sorted (a : A) (l : list A) :
  Sorted R l -> Sorted R (Pairs.insert le a l).
Proof.
  induction 1 as [|b l Hl IH Hb]; simpl.
  - repeat constructor.
  - destruct (le a b) eqn:E.
    + constructor; [now constructor|]. now constructor.
    + constructor; [assumption|].
      apply insert_hdrel; [|assumption].
      destruct (le_total a b) as [H|H]; [congruence|exact H].
Qed.

Lemma isort_sorted (l : list A) : Sorted R (Pairs.isort le l).
Proof.
  induction l as [|a l IH]; simpl; [constructor|].
  now apply insert_sorted.
Qed.

End Isort.

Lemma isort_In {A} (le : A -> A -> bool) (l : list A) (x : A) :
  In x (Pairs.isort le l) <-> In x l.
Proof.
  split; apply Permutation_in; [|symmetry]; apply isort_perm.
Qed.

Lemma isort_length {A} (le : A -> A -> bool) (l : list A) :
  length (Pairs.isort le l) = length l.
Proof. apply Permutation_length, isort_perm. Qed.

End SortFacts.

(* ================================================================== *)
(** * The cleaner                                                       *)
(* ================================================================== *)

Section Cleaner.

Lemma filter_all {A} (f : A -> bool) (l : list A) :
  length (filter f l) = length l -> filter f l = l.
Proof.
  intros H. apply filter_length_forallb in H.
  induction l as [|a l IH]; simpl in *; [reflexivity|].
  apply andb_prop in H as [Ha Hl]. rewrite Ha. now rewrite IH.
Qed.

Lemma filter_all_true {A} (f : A -> bool) (l : list A) :
  (forall a, In a l -> f a = true) -> length (filter f l) = length l.
Proof.
  induction l as [|a l IH]; simpl; [reflexivity|].
  intros H. rewrite (H a) by now left. simpl. f_equal. apply IH.
  intros b Hb. apply H. now right.
Qed.

Lemma cleaned_unchanged (prices : Frame Date) :
  length (valid_cols prices) = length (columns prices) ->
  cleaned prices = prices.
Proof.
  intros H. unfold cleaned, DF.select_cols.
  fold (valid_cols prices). unfold valid_cols in *.
  rewrite (filter_all _ _ H). now destruct prices.
Qed.

Lemma mem_In (s : string) (l : list string) : mem s l = true <-> In s l.
Proof.
  unfold mem. rewrite existsb_exists. split.
  - intros (x & Hx & E). apply String.eqb_eq in E. now subst.
  - intros H. exists s. split; [assumption|apply String.eqb_refl].
Qed.

(** With distinct column names, the names reported are those of the
    columns without any observation. *)
Lemma dropped_names_In (prices : Frame Date) (n : string) :
  NoDup (DF.names prices) ->
  In n (dropped_names prices) <->
  exists c, In c (columns prices) /\ fst c = n /\ DF.all_missing c = true.
Proof.
  intros Hnd. unfold dropped_names.
  rewrite SortFacts.isort_In, nodup_In, filter_In, negb_true_iff.
  unfold DF.names, valid_cols. split.
  - intros [Hin Hmem].
    apply in_map_iff in Hin as (c & Hc & Hin).
    exists c. repeat split; try assumption.
    destruct (DF.all_missing c) eqn:E; [reflexivity|].
    assert (In n (map fst (filter (fun c => negb (DF.all_missing c)) (columns prices)))).
    { apply in_map_iff. exists c. split; [assumption|].
      apply filter_In. split; [assumption|]. now rewrite E. }
    apply mem_In in H. congruence.
  - intros (c & Hin & Hc & Hm). split.
    + apply in_map_iff. now exists c.
    + destruct (mem n _) eqn:E; [|reflexivity].
      apply mem_In, in_map_iff in E as (c' & Hc' & Hin').
      apply filter_In in Hin' as [Hin' Hv].
      assert (c' = c).
      { unfold DF.names in Hnd. clear - Hnd Hin Hin' Hc Hc'.
        induction (columns prices) as [|x l IH]; [contradiction|].
        simpl in Hnd. inversion Hnd as [|? ? Hx Hl]; subst.
        destruct Hin as [->|Hin], Hin' as [->|Hin']; auto.
        - exfalso. apply Hx. apply in_map_iff. exists c'. split; [congruence|assumption].
        - exfalso. apply Hx. apply in_map_iff. exists c. split; [congruence|assumption]. }
      subst c'. rewrite Hm in Hv. discriminate.
Qed.

Lemma dropped_names_sorted (prices : Frame Date) :
  Sorted (fun a b => String.leb a b = true) (dropped_names prices).
Proof.
  unfold dropped_names. apply SortFacts.isort_sorted. apply String.leb_total.
Qed.

(** The stage always goes on; what it hands over is the cleaned table and
    the returns and correlation derived from the cleaned table. *)
Lemma derive_and_clean_run (prices : Frame Date) :
  derive_and_clean prices =
  ((if Nat.eqb (length (valid_cols prices)) (length (columns prices)) then []
    else [PrintList "Dropping columns with no data:" (dropped_names prices)]),
   Go (mkDerived (cleaned prices) (returns_of (cleaned prices))
                 (corr_of (cleaned prices)))).
Proof.
  unfold derive_and_clean.
  destruct (Nat.eqb _ _) eqn:E; simpl.
  - apply Nat.eqb_eq in E. now rewrite (cleaned_unchanged _ E).
  - reflexivity.
Qed.

End Cleaner.

(** C4: the cleaner removes exactly the price columns without any
    non-missing observation and leaves the date rows as they were; when it
    removes a column it prints one line, the sorted names of the removed
    columns, and otherwise nothing; the returns table and the correlation
    matrix it hands to the later stages are those computed from the
    cleaned price table. *)
Theorem cleaner_removes_empty_columns (prices : Frame Date) :
  NoDup (DF.names prices) ->
  exists tr d,
    derive_and_clean prices = (tr, Go d) /\
    columns (d_prices d) =
      filter (fun c => existsb notna (snd c)) (columns prices) /\
    index (d_prices d) = index prices /\
    (forall c, In c (columns prices) ->
               (In c (columns (d_prices d)) <-> existsb notna (snd c) = true)) /\
    (forall msg l, In (PrintList msg l) tr ->
       l <> [] /\
       Sorted (fun a b => String.leb a b = true) l /\
       forall n, In n l <->
                 exists c, In c (columns prices) /\ fst c = n /\
                           existsb notna (snd c) = false) /\
    (tr = [] <-> columns (d_prices d) = columns prices) /\
    d_returns d = returns_of (d_prices d) /\
    d_corr d = Corr.corr (returns_of (d_prices d)) /\
    ((exists c, In c (columns prices) /\ existsb notna (snd c) = false) ->
     tr = [PrintList "Dropping columns with no data:" (dropped_names prices)]) /\
    (forall n, In n (dropped_names prices) <->
               exists c, In c (columns prices) /\ fst c = n /\
                         existsb notna (snd c) = false) /\
    Sorted (fun a b => String.leb a b = true) (dropped_names prices).
Proof.
  intros Hnd. rewrite derive_and_clean_run.
  eexists. eexists. split; [reflexivity|]. cbn [d_prices d_returns d_corr].
  assert (Hcols : columns (cleaned prices) =
                  filter (fun c => existsb notna (snd c)) (columns prices)).
  { unfold cleaned, DF.select_cols. cbn [columns].
    apply filter_ext. intros c. unfold DF.all_missing. apply negb_involutive. }
  assert (Hlen : length (valid_cols prices) = length (columns prices) <->
                 columns (cleaned prices) = columns prices).
  { split.
    - intros H. now rewrite (cleaned_unchanged _ H).
    - intros H. unfold valid_cols. unfold cleaned, DF.select_cols in H.
      cbn [columns] in H. now rewrite H. }
  assert (Hmsg : forall msg l,
             In (PrintList msg l)
                (if Nat.eqb (length (valid_cols prices)) (length (columns prices))
                 then []
                 else [PrintList "Dropping columns with no data:" (dropped_names prices)]) ->
             l = dropped_names prices /\
             length (valid_cols prices) <> length (columns prices)).
  { intros msg l H. destruct (Nat.eqb _ _) eqn:E; [contradiction|].
    apply Nat.eqb_neq in E. destruct H as [[= <- <-]|[]]. now split. }
  assert (Hnames : forall n, In n (dropped_names prices) <->
               exists c, In c (columns prices) /\ fst c = n /\
                         existsb notna (snd c) = false).
  { intros n. rewrite dropped_names_In by assumption.
    split; intros (c & ? & ? & Hm); exists c; repeat split; try assumption.
    - unfold DF.all_missing in Hm. now apply negb_true_iff in Hm.
    - unfold DF.all_missing. now rewrite Hm. }
  split; [exact Hcols|]. split; [reflexivity|].
  split; [|split; [|split; [|split; [|split; [|split; [|split]]]]]].
  - intros c Hin. rewrite Hcols, filter_In. tauto.
  - intros msg l H. apply Hmsg in H as [-> Hne]. split; [|split].
    + intros Hl. apply Hne. unfold valid_cols. apply filter_all_true.
      intros c Hin.
      destruct (DF.all_missing c) eqn:Hm; [|reflexivity]. exfalso.
      assert (H : In (fst c) (dropped_names prices)).
      { apply dropped_names_In; [assumption|]. now exists c. }
      rewrite Hl in H. contradiction.
    + apply dropped_names_sorted.
    + intros n. rewrite dropped_names_In by assumption.
      split; intros (c & ? & ? & Hm); exists c; repeat split; try assumption.
      * unfold DF.all_missing in Hm. now apply negb_true_iff in Hm.
      * unfold DF.all_missing. now rewrite Hm.
  - split.
    + destruct (Nat.eqb _ _) eqn:E; [|discriminate].
      intros _. apply Hlen. now apply Nat.eqb_eq.
    + intros H. apply Hlen in H. apply Nat.eqb_eq in H. now rewrite H.
  - reflexivity.
  - reflexivity.
  - intros (c & Hc & Hm).
    destruct (Nat.eqb _ _) eqn:E; [|reflexivity]. exfalso.
    apply Nat.eqb_eq, Hlen in E.
    assert (Hin : In c (columns (cleaned prices))) by (rewrite E; exact Hc).
    rewrite Hcols in Hin. apply filter_In in Hin as [_ Hin]. congruence.
  - exact Hnames.
  - apply dropped_names_sorted.
Qed.

Lemma cleaner_removes_empty_columns_witness :
  let prices := mkFrame [0; 1; 2]%nat
                        [("C", [NaN; NaN; NaN]); ("B", [Fin 1; Fin 2; Fin 3]);
                         ("A", [NaN; NaN; NaN])] in
  exists tr d,
    derive_and_clean prices = (tr, Go d) /\
    columns (d_prices d) = [("B", [Fin 1; Fin 2; Fin 3])] /\
    index (d_prices d) = [0; 1; 2]%nat /\
    tr = [PrintList "Dropping columns with no data:" ["A"; "C"]].
Proof.
  set (prices := mkFrame [0; 1; 2]%nat
                        [("C", [NaN; NaN; NaN]); ("B", [Fin 1; Fin 2; Fin 3]);
                         ("A", [NaN; NaN; NaN])]).
  assert (Hnd : NoDup (DF.names prices)).
  { repeat constructor; simpl; intuition discriminate. }
  destruct (cleaner_removes_empty_columns prices Hnd)
    as (tr & d & H1 & H2 & H3 & _ & _ & _ & _ & _ & H4 & _).
  exists tr, d. split; [exact H1|]. split; [rewrite H2; reflexivity|].
  split; [rewrite H3; reflexivity|].
  rewrite H4; [reflexivity|].
  exists ("A", [NaN; NaN; NaN]). split; [right; right; now left|reflexivity].
Defined.

(* ================================================================== *)
(** * Normalization                                                     *)
(* ================================================================== *)

Section Normalization.
Import DFFacts.

Lemma div_self (q : Q) : ~ q == 0 -> Num.div (Fin q) (Fin q) = Fin 1.
Proof.
  intros Hq. unfold Num.div.
  destruct (Qeq_bool q 0) eqn:E.
  - apply Qeq_bool_eq in E. contradiction.
  - unfold fin. f_equal.
    change 1 with (Qred 1). apply Qred_complete. now field.
Qed.

(** Position of the first non-missing value of a column. *)
Lemma first_valid_position (l : list cell) (d : cell) :
  DF.first_valid l = Some d ->
  exists k, (k < length l)%nat /\ nth k l NaN = d /\ notna d = true /\
            forall t, (t < k)%nat -> nth t l NaN = NaN.
Proof.
  unfold DF.first_valid.
  induction l as [|x l IH]; simpl; [discriminate|].
  destruct (notna x) eqn:E.
  - intros [= <-]. exists 0%nat. repeat split; [lia|assumption|]. intros t Ht. lia.
  - intros H. destruct (IH H) as (k & Hk & Hn & Hd & Hlt).
    exists (S k). repeat split; [lia|assumption|assumption|].
    intros [|t] Ht.
    + unfold notna in E. apply negb_false_iff in E. now destruct x.
    + apply Hlt. lia.
Qed.

Lemma first_vals_some (cs : list (string * list cell)) :
  (forall c, In c cs -> DF.all_missing c = false) ->
  exists fv, DF.first_vals cs = Some fv.
Proof.
  induction cs as [|c cs IH]; intros H; simpl.
  - now exists [].
  - destruct IH as (fv & ->); [intros c' Hc'; apply H; now right|].
    assert (Hc : DF.all_missing c = false) by (apply H; now left).
    unfold DF.all_missing in Hc. apply negb_false_iff in Hc.
    apply existsb_exists in Hc as (v & Hin & Hv).
    unfold DF.first_valid.
    destruct (find notna (snd c)) as [d|] eqn:E.
    + now exists (d :: fv).
    + apply (find_none _ _ E) in Hin. congruence.
Qed.

(** [divide] uses, for every column, that column's own divisor. *)
Lemma divide_columns {I} (df : Frame I) (fv : list cell) :
  DF.first_vals (columns df) = Some fv ->
  columns (DF.divide df fv) = map normalize_col (columns df).
Proof.
  unfold DF.divide. cbn [columns].
  revert fv. induction (columns df) as [|c cs IH]; intros fv H; simpl in *.
  - reflexivity.
  - unfold normalize_col at 1.
    destruct (DF.first_valid (snd c)) as [d|]; [|discriminate].
    destruct (DF.first_vals cs) as [vs|]; [|discriminate].
    injection H as <-. simpl. now rewrite (IH vs).
Qed.

Lemma nth_map_div (l : list cell) (d : cell) (k : nat) :
  nth k (map (fun v => Num.div v d) l) NaN = Num.div (nth k l NaN) d.
Proof.
  exact (map_nth (fun v => Num.div v d) l NaN k).
Qed.

Lemma find_first_kept (g : nat -> cell) (p : nat -> bool) (k : nat) :
  p k = true -> notna (g k) = true ->
  (forall t, (t < k)%nat -> notna (g t) = false) ->
  forall len s, (s <= k < s + len)%nat ->
  find notna (map g (filter p (seq s len))) = Some (g k).
Proof.
  intros Hp Hk Hlt. induction len as [|len IH]; intros s Hs; [lia|].
  simpl. destruct (Nat.eq_dec s k) as [->|Hne].
  - rewrite Hp. simpl. now rewrite Hk.
  - destruct (p s); simpl.
    + rewrite Hlt by lia. apply IH. lia.
    + apply IH. lia.
Qed.

(** A column whose first price is finite and not zero starts at 1.0 in
    the normalized table. *)
Lemma normalized_starts_at_one (prices : Frame Date) (fv : list cell)
      (c : string * list cell) (q : Q) :
  DF.wf prices ->
  DF.first_vals (columns prices) = Some fv ->
  In c (columns prices) ->
  DF.first_valid (snd c) = Some (Fin q) -> ~ q == 0 ->
  exists c', In c' (columns (normalize_with prices fv)) /\
             fst c' = fst c /\ DF.first_valid (snd c') = Some (Fin 1).
Proof.
  intros Hwf Hfv Hin Hfirst Hq.
  destruct (first_valid_position _ _ Hfirst) as (k & Hk & Hnth & _ & Hbefore).
  set (col0 := map (fun v => Num.div v (Fin q)) (snd c)).
  assert (Hlen : length (snd c) = DF.nrows prices).
  { unfold DF.wf in Hwf. rewrite Forall_forall in Hwf. now apply Hwf. }
  assert (Hlen0 : length col0 = DF.nrows prices).
  { unfold col0. now rewrite length_map. }
  assert (Hk0 : nth k col0 NaN = Fin 1).
  { unfold col0. rewrite nth_map_div, Hnth. now apply div_self. }
  assert (Hb0 : forall t, (t < k)%nat -> nth t col0 NaN = NaN).
  { intros t Ht. unfold col0. now rewrite nth_map_div, (Hbefore t Ht). }
  set (F1 := DF.dropna_cols_all (DF.divide prices fv)).
  assert (Hin1 : In (fst c, col0) (columns F1)).
  { unfold F1, DF.dropna_cols_all. cbn [columns].
    apply filter_In. split.
    - rewrite (divide_columns _ _ Hfv). apply in_map_iff. exists c.
      split; [|assumption]. unfold normalize_col. now rewrite Hfirst.
    - unfold DF.all_missing. rewrite negb_involutive. cbn [snd].
      apply existsb_exists. exists (Fin 1). split; [|reflexivity].
      rewrite <- Hk0. apply nth_In. lia. }
  set (ks := DF.rows_where (DF.row_has_value F1) F1).
  assert (Hrows : DF.nrows F1 = DF.nrows prices) by reflexivity.
  assert (Hkin : DF.row_has_value F1 k = true).
  { unfold DF.row_has_value. apply existsb_exists.
    exists (fst c, col0). split; [assumption|].
    unfold DF.at_row. cbn [snd]. now rewrite Hk0. }
  exists (fst c, map DF.no_inf (DF.pick ks col0)). split; [|split].
  - unfold normalize_with, DF.replace_inf, DF.dropna_all, DF.take_rows.
    cbn [columns]. fold F1. fold ks.
    rewrite map_map. apply in_map_iff. exists (fst c, col0).
    split; [reflexivity|assumption].
  - reflexivity.
  - cbn [snd]. rewrite (pick_nth NaN).
    + rewrite map_map. unfold ks, DF.rows_where, DF.first_valid.
      rewrite (find_first_kept (fun t => DF.no_inf (nth t col0 NaN)) _ k).
      * now rewrite Hk0.
      * assumption.
      * now rewrite Hk0.
      * intros t Ht. now rewrite (Hb0 t Ht).
      * rewrite Hrows. lia.
    + rewrite Hlen0, <- Hrows. apply rows_where_bound.
Qed.

Lemma replace_inf_removes_inf {I} (df : Frame I) (c : string * list cell) (v : cell) :
  In c (columns (DF.replace_inf df)) -> In v (snd c) -> isinf v = false.
Proof.
  unfold DF.replace_inf. cbn [columns]. intros Hc Hv.
  apply in_map_iff in Hc as (c0 & <- & _). cbn [snd] in Hv.
  apply in_map_iff in Hv as (v0 & <- & _). now destruct v0.
Qed.

(** With an observation in every column the normalization goes through
    the columns, also on a table without any column. *)
Lemma normalize_valid (prices : Frame Date) (fv : list cell) :
  DF.wf prices ->
  (forall c, In c (columns prices) -> DF.all_missing c = false) ->
  DF.first_vals (columns prices) = Some fv ->
  normalize prices = ([], Go (normalize_with prices fv)).
Proof.
  intros Hwf Hvalid Hfv. unfold normalize. rewrite Hfv.
  destruct (DF.empty prices) eqn:He; [|reflexivity].
  destruct (columns prices) as [|c cs] eqn:Ec.
  - cbn [DF.first_vals] in Hfv. injection Hfv as <-.
    unfold normalize_with, DF.div_self, DF.divide. now rewrite Ec.
  - exfalso. unfold DF.empty, DF.ncols in He. rewrite Ec in He.
    cbn [length Nat.eqb] in He. rewrite orb_false_r in He.
    apply Nat.eqb_eq in He.
    pose proof (Hvalid c (or_introl eq_refl)) as Hm.
    unfold DF.wf in Hwf. rewrite Ec, Forall_forall in Hwf.
    specialize (Hwf c (or_introl eq_refl)). rewrite He in Hwf.
    apply length_zero_iff_nil in Hwf.
    unfold DF.all_missing in Hm. rewrite Hwf in Hm. discriminate.
Qed.

End Normalization.

(** C3, as the code has it: every column of the cleaned price table is
    divided by its own first non-missing value, so that a column whose
    first non-missing price is finite and not zero has 1.0 as its first
    observation in the normalized table; then the all-undefined columns
    are dropped, then the all-undefined rows, then the infinite values
    become missing; and when no value remains the normalized chart is
    skipped with a message and the pipeline goes on. *)
Theorem normalization_per_column :
  (forall prices : Frame Date,
      DF.wf prices ->
      (forall c, In c (columns prices) -> DF.all_missing c = false) ->
      exists fv,
        DF.first_vals (columns prices) = Some fv /\
        normalize prices = ([], Go (normalize_with prices fv)) /\
        columns (DF.divide prices fv) = map normalize_col (columns prices) /\
        (forall c q, In c (columns prices) ->
                     DF.first_valid (snd c) = Some (Fin q) -> ~ q == 0 ->
                     exists c', In c' (columns (normalize_with prices fv)) /\
                                fst c' = fst c /\
                                DF.first_valid (snd c') = Some (Fin 1)) /\
        normalize_with prices fv =
          DF.replace_inf (DF.dropna_all (DF.dropna_cols_all (DF.divide prices fv))) /\
        (forall c v, In c (columns (normalize_with prices fv)) ->
                     In v (snd c) -> isinf v = false)) /\
  (forall args ts normalized,
      DF.any_notna normalized = false ->
      present_normalized args ts normalized = ([Print skip_normalized_msg], Go tt)).
Proof.
  split.
  - intros prices Hwf Hvalid.
    destruct (first_vals_some _ Hvalid) as (fv & Hfv).
    exists fv. split; [assumption|]. split; [|split; [|split; [|split]]].
    + now apply normalize_valid.
    + now apply divide_columns.
    + intros c q. now apply normalized_starts_at_one.
    + reflexivity.
    + intros c v. unfold normalize_with. apply replace_inf_removes_inf.
  - intros args ts normalized H. unfold present_normalized. now rewrite H.
Qed.

Lemma normalization_per_column_witness :
  let prices := mkFrame [0; 1; 2]%nat
                        [("A", [NaN; Fin 100; Fin 110]); ("B", [Fin 4; Fin 2; Fin 1])] in
  normalize prices =
  ([], Go (mkFrame [0; 1; 2]%nat
                   [("A", [NaN; Fin 1; Fin (11 # 10)]);
                    ("B", [Fin 1; Fin (1 # 2); Fin (1 # 4)])])) /\
  (exists c', In c' (columns (normalize_with prices [Fin 100; Fin 4])) /\
              fst c' = "A" /\ DF.first_valid (snd c') = Some (Fin 1)) /\
  present_normalized (mkArgs None "2021-01-01" None "outputs" false false)
                     "20240102T030405Z" (mkFrame [1]%nat [("A", [NaN])]) =
  ([Print skip_normalized_msg], Go tt).
Proof.
  set (prices := mkFrame [0; 1; 2]%nat
                        [("A", [NaN; Fin 100; Fin 110]); ("B", [Fin 4; Fin 2; Fin 1])]).
  assert (Hwf : DF.wf prices) by (repeat constructor).
  assert (Hv : forall c, In c (columns prices) -> DF.all_missing c = false).
  { intros c [<-|[<-|[]]]; reflexivity. }
  destruct (proj1 normalization_per_column prices Hwf Hv)
    as (fv & Hfv & Hn & _ & Hone & _).
  injection Hfv as <-.
  split; [|split].
  - rewrite Hn. reflexivity.
  - apply (Hone ("A", [NaN; Fin 100; Fin 110]) 100).
    + now left.
    + reflexivity.
    + discriminate.
  - apply (proj2 normalization_per_column). reflexivity.
Defined.

(** A price column that starts at zero survives the cleaner and the
    normalization, yet its first observation is not 1.0: the division
    gives NaN and infinities, which end as missing values. *)
Lemma normalization_first_obs_counterexample :
  let prices := mkFrame [0; 1]%nat [("A", [Fin 0; Fin 5])] in
  cleaned prices = prices /\
  normalize prices = ([], Go (mkFrame [1]%nat [("A", [NaN])])) /\
  ~ (forall prices : Frame Date,
        DF.wf prices ->
        (forall c, In c (columns prices) -> DF.all_missing c = false) ->
        forall fv, DF.first_vals (columns prices) = Some fv ->
        forall c, In c (columns (normalize_with prices fv)) ->
                  DF.first_valid (snd c) = Some (Fin 1)).
Proof.
  split; [reflexivity|]. split; [reflexivity|].
  intros H.
  set (prices := mkFrame [0; 1]%nat [("A", [Fin 0; Fin 5])]).
  assert (Hwf : DF.wf prices) by (repeat constructor).
  assert (Hv : forall c, In c (columns prices) -> DF.all_missing c = false).
  { intros c [<-|[]]; reflexivity. }
  specialize (H prices Hwf Hv [Fin 0] eq_refl ("A", [NaN])).
  assert (Hin : In ("A", [NaN]) (columns (normalize_with prices [Fin 0]))).
  { vm_compute. now left. }
  specialize (H Hin). discriminate.
Qed.

(* ================================================================== *)
(** * Properties of the correlation                                     *)
(* ================================================================== *)

Module CorrFacts.
Import Corr.

Local Open Scope Q_scope.

Lemma Qsum_app (l1 l2 : list Q) : Qsum (l1 ++ l2) == Qsum l1 + Qsum l2.
Proof.
  unfold Qsum. induction l1 as [|a l1 IH]; simpl; [ring|].
  rewrite IH. ring.
Qed.

Lemma sum_over_snoc (f : Q * Q -> Q) (obs : list (Q * Q)) (p : Q * Q) :
  sum_over f (obs ++ [p]) == sum_over f obs + f p.
Proof.
  unfold sum_over. rewrite map_app, Qsum_app. simpl. ring.
Qed.

Lemma count_snoc (obs : list (Q * Q)) (p : Q * Q) :
  count (obs ++ [p]) == count obs + 1.
Proof.
  unfold count. rewrite length_app. simpl.
  rewrite Nat2Z.inj_add, inject_Z_plus. reflexivity.
Qed.

Lemma count_cons (obs : list (Q * Q)) (p : Q * Q) :
  count (p :: obs) == count obs + 1.
Proof.
  unfold count. cbn [length].
  rewrite Nat2Z.inj_succ, <- Z.add_1_r, inject_Z_plus. reflexivity.
Qed.

Lemma count_nonneg (obs : list (Q * Q)) : 0 <= count obs.
Proof.
  unfold count. change 0 with (inject_Z 0). rewrite <- Zle_Qle. lia.
Qed.

Lemma count_pos (obs : list (Q * Q)) : obs <> [] -> 0 < count obs.
Proof.
  intros H. unfold count. change 0 with (inject_Z 0). rewrite <- Zlt_Qlt.
  destruct obs; [congruence|]. simpl. lia.
Qed.

(** The loop is a left fold of [update] over the pairwise-complete
    observations. *)
Lemma scan_fold (xs : list cell) :
  forall (ys : list cell) (w : welford),
  scan w xs ys =
  fold_left (fun w p => update w (fst p) (snd p)) (pairwise_complete xs ys) w.
Proof.
  induction xs as [|x xs IH]; intros ys w; [reflexivity|].
  destruct ys as [|y ys]; [reflexivity|].
  simpl. rewrite IH.
  destruct x, y; reflexivity.
Qed.

Lemma welford_inv_nil : welford_inv [] w0.
Proof.
  unfold welford_inv, w0, count, sum_over. simpl.
  repeat split; reflexivity.
Qed.

Lemma welford_inv_step (obs : list (Q * Q)) (w : welford) (x y : Q) :
  welford_inv obs w -> welford_inv (obs ++ [(x, y)]) (update w x y).
Proof.
  unfold welford_inv. cbv zeta.
  intros (Hn & Hmx & Hmy & Hsx & Hsy & Hc).
  rewrite !sum_over_snoc, count_snoc. cbn [fst snd].
  unfold update. cbn [nobs meanx meany ssqdm_x ssqdm_y covxy].
  rewrite Hn, Hmx, Hmy, Hsx, Hsy, Hc.
  destruct obs as [|p obs].
  - unfold count, sum_over, Qsum. simpl.
    change (inject_Z 0) with 0. change (0 / 0) with 0. change (0 * 0 / 0) with 0.
    split; [reflexivity|]. do 4 (split; [field|]). field.
  - assert (H0 : 0 < count (p :: obs)) by (apply count_pos; discriminate).
    set (n := count (p :: obs)) in *.
    assert (Hn0 : ~ n == 0) by (intros E; rewrite E in H0; now apply Qlt_irrefl in H0).
    assert (Hn1 : ~ n + 1 == 0).
    { intros E. assert (0 < n + 1) by (apply Qlt_trans with n; [assumption|];
        rewrite <- (Qplus_0_r n) at 1; apply Qplus_lt_r; reflexivity).
      rewrite E in H. now apply Qlt_irrefl in H. }
    split; [reflexivity|]. do 4 (split; [field; auto|]). field; auto.
Qed.

Lemma welford_inv_fold (l : list (Q * Q)) :
  forall (pre : list (Q * Q)) (w : welford),
  welford_inv pre w ->
  welford_inv (pre ++ l) (fold_left (fun w p => update w (fst p) (snd p)) l w).
Proof.
  induction l as [|[x y] l IH]; intros pre w H; simpl.
  - now rewrite app_nil_r.
  - change (pre ++ (x, y) :: l) with (pre ++ [(x, y)] ++ l).
    rewrite app_assoc. apply IH. now apply welford_inv_step.
Qed.

Lemma scan_inv (xs ys : list cell) :
  welford_inv (pairwise_complete xs ys) (scan w0 xs ys).
Proof.
  rewrite scan_fold.
  exact (welford_inv_fold _ [] w0 welford_inv_nil).
Qed.

End CorrFacts.

Module SqrtFacts.

Local Open Scope Q_scope.

Lemma Qsqrt_eq (x y : Q) : x == y -> Qsqrt x = Qsqrt y.
Proof. intros H. unfold Qsqrt. now rewrite (Qred_complete x y H). Qed.

Lemma fin_eq (x y : Q) : x == y -> fin x = fin y.
Proof. intros H. unfold fin. now rewrite (Qred_complete x y H). Qed.

Lemma Qlt_bool_comp (x y x' y' : Q) :
  x == x' -> y == y' -> Qlt_bool x y = Qlt_bool x' y'.
Proof. intros Hx Hy. unfold Qlt_bool. now rewrite Hx, Hy. Qed.

Lemma clip1_eq (x y : Q) : x == y -> clip1 x == clip1 y.
Proof.
  intros H. unfold clip1.
  rewrite (Qlt_bool_comp 1 x 1 y), (Qlt_bool_comp x (-1) y (-1))
    by (assumption || reflexivity).
  destruct (Qlt_bool 1 y); [reflexivity|].
  destruct (Qlt_bool y (-1)); [reflexivity|assumption].
Qed.

Lemma Qlt_bool_iff (x y : Q) : Qlt_bool x y = true <-> x < y.
Proof.
  unfold Qlt_bool. rewrite negb_true_iff. split.
  - intros H. apply Qnot_le_lt. intros Hle.
    apply Qle_bool_iff in Hle. congruence.
  - intros H. destruct (Qle_bool y x) eqn:E; [|reflexivity].
    apply Qle_bool_iff in E. exfalso. now apply (Qlt_not_le x y).
Qed.

Lemma clip1_range (x : Q) : -1 <= clip1 x /\ clip1 x <= 1.
Proof.
  unfold clip1.
  destruct (Qlt_bool 1 x) eqn:E1; [split; discriminate|].
  destruct (Qlt_bool x (-1)) eqn:E2; [split; discriminate|].
  split.
  - apply Qnot_lt_le. intros H. apply Qlt_bool_iff in H. congruence.
  - apply Qnot_lt_le. intros H. apply Qlt_bool_iff in H. congruence.
Qed.

Lemma fin_range (x : Q) : in_unit_range (fin (clip1 x)).
Proof.
  unfold fin, in_unit_range.
  destruct (clip1_range x) as [H1 H2].
  split.
  - rewrite <- (Qred_correct (clip1 x)) in H1. exact H1.
  - rewrite <- (Qred_correct (clip1 x)) in H2. exact H2.
Qed.

(** The rounded square root is exact on squares. *)
Lemma Qsqrt_square (s : Q) : 0 <= s -> Qsqrt (s * s) == s.
Proof.
  intros Hs.
  assert (Hr : s == Qred s) by (symmetry; apply Qred_correct).
  rewrite (Qsqrt_eq (s * s) (Qred s * Qred s)) by (now rewrite <- Hr).
  rewrite Hr at 3.
  pose proof (gcd_Qred s) as Hg.
  assert (Hnn : (0 <= Qnum (Qred s))%Z).
  { rewrite Hr in Hs. unfold Qle in Hs. simpl in Hs. lia. }
  destruct (Qred s) as [p q]. cbn [Qnum Qden] in *.
  unfold Qsqrt.
  assert (Hid : Qred ((p # q) * (p # q)) = (p # q) * (p # q)).
  { apply Qcanon.Qred_identity. unfold Qmult. cbn [Qnum Qden].
    rewrite Pos2Z.inj_mul.
    apply Z.coprime_mul_l; apply Z.coprime_mul_r; exact Hg. }
  rewrite Hid. unfold Qmult. cbn [Qnum Qden].
  destruct (p * p <=? 0)%Z eqn:E.
  - apply Z.leb_le in E. assert (p = 0%Z) by nia. subst p. reflexivity.
  - apply Z.leb_gt in E.
    assert (Hp : (0 < p)%Z) by nia.
    assert (Hsc : (0 < sqrt_scale)%Z) by reflexivity.
    rewrite Pos2Z.inj_mul.
    replace (p * p * (Z.pos q * Z.pos q) * (sqrt_scale * sqrt_scale))%Z
      with ((p * Z.pos q * sqrt_scale) * (p * Z.pos q * sqrt_scale))%Z by ring.
    rewrite Z.sqrt_square by nia.
    unfold Qeq. cbn [Qnum Qden].
    rewrite Z2Pos.id by nia. ring.
Qed.

Lemma Qsqrt_zero : Qsqrt 0 = 0.
Proof. reflexivity. Qed.

End SqrtFacts.

Module PearsonFacts.
Import Corr CorrFacts SqrtFacts.

Local Open Scope Q_scope.

Lemma Qsum_map_ext {A} (f g : A -> Q) (l : list A) :
  (forall a, In a l -> f a == g a) -> Qsum (map f l) == Qsum (map g l).
Proof.
  unfold Qsum. induction l as [|a l IH]; intros H; simpl; [reflexivity|].
  rewrite (H a) by now left. rewrite IH; [reflexivity|].
  intros b Hb. apply H. now right.
Qed.

(** Sum of products of deviations from arbitrary centres, by moments. *)
Lemma dev_sum (a b : Q) (obs : list (Q * Q)) :
  Qsum (map (fun p => (fst p - a) * (snd p - b)) obs) ==
  sum_over (fun p => fst p * snd p) obs - a * sum_over snd obs
  - b * sum_over fst obs + count obs * a * b.
Proof.
  induction obs as [|p obs IH].
  - unfold sum_over, count, Qsum. simpl. change (inject_Z 0) with 0. ring.
  - rewrite count_cons. unfold sum_over in *. cbn [map Qsum fold_right] in *.
    unfold Qsum in IH. rewrite IH. unfold Qsum. ring.
Qed.

Lemma mean_fst (obs : list (Q * Q)) :
  mean (map fst obs) == sum_over fst obs / count obs.
Proof. unfold mean, sum_over, count. now rewrite length_map. Qed.

Lemma mean_snd (obs : list (Q * Q)) :
  mean (map snd obs) == sum_over snd obs / count obs.
Proof. unfold mean, sum_over, count. now rewrite length_map. Qed.

Lemma count_neq0 (obs : list (Q * Q)) : obs <> [] -> ~ count obs == 0.
Proof.
  intros H E. apply count_pos in H. rewrite E in H. now apply Qlt_irrefl in H.
Qed.

Lemma codev_moments (obs : list (Q * Q)) :
  obs <> [] ->
  codev obs ==
  sum_over (fun p => fst p * snd p) obs
  - sum_over fst obs * sum_over snd obs / count obs.
Proof.
  intros H. unfold codev. cbv zeta.
  rewrite dev_sum, mean_fst, mean_snd.
  field. now apply count_neq0.
Qed.

Lemma combine_diag {A B} (f : A -> B) (l : list A) :
  combine (map f l) (map f l) = map (fun a => (f a, f a)) l.
Proof. induction l as [|a l IH]; simpl; [reflexivity|]. now rewrite IH. Qed.

Lemma sum_over_map (f : Q * Q -> Q) (g : Q * Q -> Q * Q) (obs : list (Q * Q)) :
  sum_over f (map g obs) = sum_over (fun p => f (g p)) obs.
Proof. unfold sum_over. now rewrite map_map. Qed.

Lemma count_map (g : Q * Q -> Q * Q) (obs : list (Q * Q)) :
  count (map g obs) = count obs.
Proof. unfold count. now rewrite length_map. Qed.

Lemma sqdev_fst_moments (obs : list (Q * Q)) :
  obs <> [] ->
  sqdev (map fst obs) ==
  sum_over (fun p => fst p * fst p) obs
  - sum_over fst obs * sum_over fst obs / count obs.
Proof.
  intros H. unfold sqdev. rewrite combine_diag.
  rewrite codev_moments by (destruct obs; [congruence|discriminate]).
  rewrite !sum_over_map, count_map. reflexivity.
Qed.

Lemma sqdev_snd_moments (obs : list (Q * Q)) :
  obs <> [] ->
  sqdev (map snd obs) ==
  sum_over (fun p => snd p * snd p) obs
  - sum_over snd obs * sum_over snd obs / count obs.
Proof.
  intros H. unfold sqdev. rewrite combine_diag.
  rewrite codev_moments by (destruct obs; [congruence|discriminate]).
  rewrite !sum_over_map, count_map. reflexivity.
Qed.

(** The one-pass computation of pandas yields Pearson's coefficient of the
    pairwise-complete observations. *)
Lemma pair_corr_pearson (xs ys : list cell) :
  pair_corr xs ys = pearson (pairwise_complete xs ys).
Proof.
  unfold pair_corr, finish.
  pose proof (scan_inv xs ys) as Hinv.
  set (w := scan w0 xs ys) in *.
  remember (pairwise_complete xs ys) as l eqn:E.
  destruct Hinv as (Hn & _ & _ & Hsx & Hsy & Hc).
  destruct l as [|p obs].
  - rewrite (Qlt_bool_comp (nobs w) 1 0 1) by (exact Hn || reflexivity).
    reflexivity.
  - assert (Hne : p :: obs <> []) by discriminate.
    assert (H1 : Qlt_bool (nobs w) 1 = false).
    { unfold Qlt_bool. apply negb_false_iff. apply Qle_bool_iff.
      rewrite Hn. unfold count. change 1 with (inject_Z 1).
      rewrite <- Zle_Qle. simpl. lia. }
    rewrite H1.
    rewrite <- sqdev_fst_moments in Hsx by assumption.
    rewrite <- sqdev_snd_moments in Hsy by assumption.
    rewrite <- codev_moments in Hc by assumption.
    unfold pearson.
    rewrite (Qsqrt_eq (ssqdm_x w * ssqdm_y w)
                      (sqdev (map fst (p :: obs)) * sqdev (map snd (p :: obs))))
      by (now rewrite Hsx, Hsy).
    destruct (Qeq_bool _ 0) eqn:Ed; [reflexivity|]. cbn [negb].
    apply fin_eq, clip1_eq. now rewrite Hc.
Qed.

(** Swapping the two columns of a pair changes nothing. *)
Lemma pairwise_complete_swap (xs : list cell) :
  forall ys, pairwise_complete ys xs = map swap (pairwise_complete xs ys).
Proof.
  induction xs as [|x xs IH]; intros [|y ys]; simpl; try reflexivity.
  rewrite IH. destruct x, y; reflexivity.
Qed.

Lemma codev_swap (obs : list (Q * Q)) : codev (map swap obs) == codev obs.
Proof.
  unfold codev. cbv zeta.
  rewrite (map_map swap fst), (map_map swap snd), map_map.
  rewrite (map_ext (fun x => fst (swap x)) snd) by reflexivity.
  rewrite (map_ext (fun x => snd (swap x)) fst) by reflexivity.
  apply Qsum_map_ext. intros p _. cbn [swap fst snd]. ring.
Qed.

Lemma map_fst_swap (obs : list (Q * Q)) : map fst (map swap obs) = map snd obs.
Proof. rewrite map_map. now apply map_ext. Qed.

Lemma map_snd_swap (obs : list (Q * Q)) : map snd (map swap obs) = map fst obs.
Proof. rewrite map_map. now apply map_ext. Qed.

Lemma pearson_ext (obs obs' : list (Q * Q)) :
  (obs = [] <-> obs' = []) ->
  sqdev (map fst obs) * sqdev (map snd obs) ==
  sqdev (map fst obs') * sqdev (map snd obs') ->
  codev obs == codev obs' ->
  pearson obs = pearson obs'.
Proof.
  intros He Hs Hc. unfold pearson.
  destruct obs as [|p obs], obs' as [|p' obs']; try reflexivity.
  - destruct He as [He _]. discriminate (He eq_refl).
  - destruct He as [_ He]. discriminate (He eq_refl).
  - rewrite (Qsqrt_eq _ _ Hs).
    destruct (Qeq_bool _ 0); [reflexivity|].
    apply fin_eq, clip1_eq. now rewrite Hc.
Qed.

Lemma pearson_swap (obs : list (Q * Q)) : pearson (map swap obs) = pearson obs.
Proof.
  apply pearson_ext.
  - destruct obs; split; intros; (reflexivity || discriminate).
  - rewrite map_fst_swap, map_snd_swap. ring.
  - apply codev_swap.
Qed.

Lemma pair_corr_sym (xs ys : list cell) : pair_corr xs ys = pair_corr ys xs.
Proof.
  rewrite !pair_corr_pearson, (pairwise_complete_swap ys xs).
  apply pearson_swap.
Qed.

(** Entries of the matrix. *)
Lemma pair_corr_nil_l (ys : list cell) : pair_corr [] ys = NaN.
Proof. reflexivity. Qed.

Lemma pair_corr_nil_r (xs : list cell) : pair_corr xs [] = NaN.
Proof. now destruct xs. Qed.

Lemma col_values_out {I} (df : Frame I) (j : nat) :
  (DF.ncols df <= j)%nat -> col_values df j = [].
Proof.
  intros H. unfold col_values.
  now rewrite (proj2 (nth_error_None (columns df) j) H).
Qed.

Lemma entry_out {I} (df : Frame I) (i j : nat) :
  (DF.ncols df <= i \/ DF.ncols df <= j)%nat -> entry df i j = NaN.
Proof.
  intros H. unfold entry.
  rewrite (col_values_out df (Nat.max i j)) by lia. reflexivity.
Qed.

Lemma nth_error_map_seq {A} (f : nat -> A) (k j : nat) :
  nth_error (map f (seq 0 k)) j = if Nat.ltb j k then Some (f j) else None.
Proof.
  destruct (Nat.ltb j k) eqn:E.
  - apply Nat.ltb_lt in E.
    rewrite nth_error_map, nth_error_seq.
    apply Nat.ltb_lt in E. now rewrite E.
  - apply Nat.ltb_ge in E. apply nth_error_None. now rewrite length_map, length_seq.
Qed.

Lemma corr_cell_at {I} (df : Frame I) (i j : nat) :
  DF.cell_at (corr df) i j = entry df i j.
Proof.
  unfold DF.cell_at, corr. cbn [columns].
  rewrite nth_error_map_seq.
  destruct (Nat.ltb j (DF.ncols df)) eqn:Ej.
  - unfold DF.at_row. cbn [snd].
    destruct (Nat.ltb i (DF.ncols df)) eqn:Ei.
    + apply Nat.ltb_lt in Ei.
      apply nth_error_nth.
      rewrite nth_error_map_seq. apply Nat.ltb_lt in Ei. now rewrite Ei.
    + apply Nat.ltb_ge in Ei.
      rewrite nth_overflow by (now rewrite length_map, length_seq).
      symmetry. apply entry_out. now left.
  - apply Nat.ltb_ge in Ej. symmetry. apply entry_out. now right.
Qed.

Lemma entry_pearson {I} (df : Frame I) (i j : nat) :
  entry df i j = pearson (pairwise_complete (col_values df i) (col_values df j)).
Proof.
  unfold entry.
  destruct (Nat.le_ge_cases i j) as [H|H].
  - rewrite Nat.max_r, Nat.min_l by assumption.
    rewrite pair_corr_sym. apply pair_corr_pearson.
  - rewrite Nat.max_l, Nat.min_r by assumption.
    apply pair_corr_pearson.
Qed.

Lemma corr_names {I} (df : Frame I) : DF.names (corr df) = DF.names df.
Proof.
  unfold corr, DF.names at 1, DF.ncols. cbn [columns]. rewrite map_map. cbn [fst].
  unfold DF.names.
  rewrite <- (length_map fst (columns df)).
  generalize (map fst (columns df)). intros l.
  apply nth_ext with (d := EmptyString) (d' := EmptyString).
  - now rewrite length_map, length_seq.
  - intros n Hn. rewrite length_map, length_seq in Hn.
    rewrite (nth_indep _ EmptyString (nth 0 l EmptyString))
      by (now rewrite length_map, length_seq).
    rewrite (map_nth (fun j => nth j l EmptyString) (seq 0 (length l)) 0%nat n).
    now rewrite seq_nth.
Qed.

Lemma corr_wf {I} (df : Frame I) : DF.wf (corr df).
Proof.
  unfold DF.wf, corr, DF.nrows. cbn [columns index].
  apply Forall_map, Forall_forall. intros j _. cbn [snd].
  unfold DF.names, DF.ncols. now rewrite !length_map, length_seq.
Qed.

End PearsonFacts.

Module DiagFacts.
Import Corr CorrFacts SqrtFacts PearsonFacts.

Local Open Scope Q_scope.

Lemma pairwise_complete_diag (xs : list cell) :
  pairwise_complete xs xs = combine (finite_values xs) (finite_values xs).
Proof.
  unfold finite_values.
  induction xs as [|x xs IH]; [reflexivity|].
  destruct x; simpl; try exact IH.
  f_equal. exact IH.
Qed.

Lemma combine_self {A} (l : list A) : combine l l = map (fun a => (a, a)) l.
Proof. induction l as [|a l IH]; simpl; [reflexivity|]. now rewrite IH. Qed.

Lemma map_fst_self (l : list Q) : map fst (combine l l) = l.
Proof. rewrite combine_self, map_map. apply map_id. Qed.

Lemma map_snd_self (l : list Q) : map snd (combine l l) = l.
Proof. rewrite combine_self, map_map. apply map_id. Qed.

(** The squared deviation is the sum of the squares of the deviations
    from the mean. *)
Lemma sqdev_squares (l : list Q) :
  sqdev l = Qsum (map (fun x => (x - mean l) * (x - mean l)) l).
Proof.
  unfold sqdev, codev. cbv zeta.
  rewrite map_fst_self, map_snd_self, combine_self, map_map. reflexivity.
Qed.

Lemma Qsquare_nonneg (x : Q) : 0 <= x * x.
Proof.
  destruct (Qlt_le_dec x 0) as [H|H].
  - setoid_replace (x * x) with ((- x) * (- x)) by ring.
    apply Qmult_le_0_compat; apply (Qopp_le_compat x 0); now apply Qlt_le_weak.
  - now apply Qmult_le_0_compat.
Qed.

Lemma Qsum_nonneg {A} (f : A -> Q) (l : list A) :
  (forall a, In a l -> 0 <= f a) -> 0 <= Qsum (map f l).
Proof.
  unfold Qsum. induction l as [|a l IH]; intros H; simpl; [apply Qle_refl|].
  assert (Ha : 0 <= f a) by (apply H; now left).
  assert (Hl : 0 <= fold_right Qplus 0 (map f l)).
  { apply IH. intros b Hb. apply H. now right. }
  lra.
Qed.

Lemma Qsum_zero_terms {A} (f : A -> Q) (l : list A) :
  (forall a, In a l -> 0 <= f a) -> Qsum (map f l) == 0 ->
  forall a, In a l -> f a == 0.
Proof.
  induction l as [|b l IH]; intros Hnn Hz a Ha; [contradiction|].
  assert (Hb : 0 <= f b) by (apply Hnn; now left).
  assert (Hl : 0 <= Qsum (map f l)).
  { apply Qsum_nonneg. intros c Hc. apply Hnn. now right. }
  change (Qsum (map f (b :: l))) with (f b + Qsum (map f l)) in Hz.
  assert (Hb0 : f b == 0) by lra.
  destruct Ha as [<-|Ha]; [assumption|].
  apply IH; try assumption.
  - intros c Hc. apply Hnn. now right.
  - lra.
Qed.

Lemma sqdev_nonneg (l : list Q) : 0 <= sqdev l.
Proof.
  rewrite sqdev_squares. apply Qsum_nonneg. intros. apply Qsquare_nonneg.
Qed.

Lemma Qsum_const (l : list Q) (c : Q) :
  (forall x, In x l -> x == c) ->
  Qsum l == inject_Z (Z.of_nat (length l)) * c.
Proof.
  unfold Qsum. induction l as [|a l IH]; intros H.
  - simpl. change (inject_Z 0) with 0. ring.
  - cbn [fold_right length]. rewrite (H a) by now left.
    rewrite IH by (intros x Hx; apply H; now right).
    rewrite Nat2Z.inj_succ, <- Z.add_1_r, inject_Z_plus.
    change (inject_Z 1) with 1. ring.
Qed.

Lemma sqdev_zero_iff (l : list Q) :
  sqdev l == 0 <-> (forall a b, In a l -> In b l -> a == b).
Proof.
  rewrite sqdev_squares. split.
  - intros Hz a b Ha Hb.
    assert (Hm : forall x, In x l -> x == mean l).
    { intros x Hx.
      pose proof (Qsum_zero_terms (fun x => (x - mean l) * (x - mean l)) l
                    (fun a _ => Qsquare_nonneg (a - mean l)) Hz x Hx) as H.
      cbv beta in H.
      destruct (Qmult_integral _ _ H) as [E|E]; lra. }
    now rewrite (Hm a Ha), (Hm b Hb).
  - intros Heq. destruct l as [|c l]; [reflexivity|].
    assert (Hc : forall x, In x (c :: l) -> x == c).
    { intros x Hx. apply Heq; [assumption|now left]. }
    assert (Hmean : mean (c :: l) == c).
    { unfold mean. rewrite (Qsum_const _ c Hc). field.
      change 0 with (inject_Z 0). rewrite inject_Z_injective. simpl. lia. }
    transitivity (Qsum (map (fun _ : Q => 0) (c :: l))).
    + apply Qsum_map_ext. intros x Hx. rewrite Hmean, (Hc x Hx). ring.
    + clear. unfold Qsum. induction (c :: l) as [|a l' IH]; simpl; [reflexivity|].
      rewrite IH. ring.
Qed.

(** The diagonal: 1.0, or NaN for a column of zero variance. *)
Lemma pearson_diag_zero (fv : list Q) :
  (forall a b, In a fv -> In b fv -> a == b) ->
  pearson (combine fv fv) = NaN.
Proof.
  intros Hz. destruct fv as [|c l]; [reflexivity|].
  unfold pearson. cbn [combine].
  change ((c, c) :: combine l l) with (combine (c :: l) (c :: l)).
  rewrite map_fst_self, map_snd_self.
  apply sqdev_zero_iff in Hz.
  rewrite (Qsqrt_eq (sqdev (c :: l) * sqdev (c :: l)) 0) by (rewrite Hz; ring).
  reflexivity.
Qed.

Lemma pearson_diag_one (fv : list Q) :
  ~ (forall a b, In a fv -> In b fv -> a == b) ->
  pearson (combine fv fv) = Fin 1.
Proof.
  intros Hnz. destruct fv as [|c l]; [exfalso; apply Hnz; intros a b []|].
  assert (Hs : ~ sqdev (c :: l) == 0).
  { intros E. apply Hnz. now apply sqdev_zero_iff. }
  unfold pearson. cbn [combine].
  change ((c, c) :: combine l l) with (combine (c :: l) (c :: l)).
  rewrite map_fst_self, map_snd_self.
  pose proof (Qsqrt_square (sqdev (c :: l)) (sqdev_nonneg _)) as Hd.
  destruct (Qeq_bool (Qsqrt (sqdev (c :: l) * sqdev (c :: l))) 0) eqn:E.
  - apply Qeq_bool_eq in E. rewrite Hd in E. contradiction.
  - change (codev (combine (c :: l) (c :: l))) with (sqdev (c :: l)).
    change (Fin 1) with (fin (clip1 1)).
    apply fin_eq, clip1_eq. rewrite Hd. now field.
Qed.

Lemma finish_range (w : welford) :
  finish w = NaN \/ in_unit_range (finish w).
Proof.
  unfold finish.
  destruct (Qlt_bool (nobs w) 1); [now left|].
  destruct (negb _); [|now left].
  right. apply fin_range.
Qed.

End DiagFacts.

(** C6: the correlation matrix of a table is square and labelled by the
    column names on both axes, symmetric, has 1.0 on the diagonal except
    for the columns of zero variance, whose diagonal entry is undefined,
    and every defined entry lies in [-1, 1]. *)
Theorem correlation_matrix_shape (df : Frame Date) :
  let m := Corr.corr df in
  index m = DF.names df /\ DF.names m = DF.names df /\ DF.wf m /\
  (forall i j, DF.cell_at m i j = DF.cell_at m j i) /\
  (forall i,
      (Corr.zero_variance (Corr.col_values df i) -> DF.cell_at m i i = NaN) /\
      (~ Corr.zero_variance (Corr.col_values df i) -> DF.cell_at m i i = Fin 1)) /\
  (forall i j, DF.cell_at m i j = NaN \/ in_unit_range (DF.cell_at m i j)).
Proof.
  cbv zeta. split; [reflexivity|]. split; [apply PearsonFacts.corr_names|].
  split; [apply PearsonFacts.corr_wf|]. split; [|split].
  - intros i j. rewrite !PearsonFacts.corr_cell_at. unfold Corr.entry.
    now rewrite Nat.max_comm, Nat.min_comm.
  - intros i. rewrite PearsonFacts.corr_cell_at, PearsonFacts.entry_pearson.
    rewrite DiagFacts.pairwise_complete_diag. unfold Corr.zero_variance. split.
    + apply DiagFacts.pearson_diag_zero.
    + apply DiagFacts.pearson_diag_one.
  - intros i j. rewrite PearsonFacts.corr_cell_at. unfold Corr.entry, Corr.pair_corr.
    apply DiagFacts.finish_range.
Qed.

Lemma correlation_matrix_shape_witness :
  let df := mkFrame [1; 2; 3]%nat
                    [("A", [Fin 1; Fin 2; Fin 4]); ("B", [Fin 3; Fin 3; Fin 3])] in
  DF.cell_at (Corr.corr df) 0 0 = Fin 1 /\ DF.cell_at (Corr.corr df) 1 1 = NaN.
Proof.
  set (df := mkFrame [1; 2; 3]%nat
                    [("A", [Fin 1; Fin 2; Fin 4]); ("B", [Fin 3; Fin 3; Fin 3])]).
  destruct (correlation_matrix_shape df) as (_ & _ & _ & _ & Hd & _).
  split.
  - apply (proj2 (Hd 0%nat)).
    intros H. specialize (H 1 2 (or_introl eq_refl) (or_intror (or_introl eq_refl))).
    discriminate H.
  - apply (proj1 (Hd 1%nat)).
    intros a b Ha Hb. simpl in Ha, Hb.
    destruct Ha as [<-|[<-|[<-|[]]]], Hb as [<-|[<-|[<-|[]]]]; reflexivity.
Defined.

(* ================================================================== *)
(** * The top-pairs report                                              *)
(* ================================================================== *)

Module PairsFacts.
Import Pairs.

Lemma In_indexed_gen {A} (l : list A) :
  forall (s i : nat) (a : A),
  In (i, a) (combine (seq s (length l)) l) <->
  (s <= i)%nat /\ nth_error l (i - s) = Some a.
Proof.
  induction l as [|b l IH]; intros s i a; simpl.
  - split; [contradiction|]. intros [_ H]. now destruct (i - s)%nat.
  - rewrite IH. split.
    + intros [[= <- <-]|[Hs Hn]].
      * split; [lia|]. now rewrite Nat.sub_diag.
      * split; [lia|]. replace (i - s)%nat with (S (i - S s)) by lia. exact Hn.
    + intros [Hs Hn]. destruct (Nat.eq_dec i s) as [->|Hne].
      * left. rewrite Nat.sub_diag in Hn. simpl in Hn. congruence.
      * right. split; [lia|].
        replace (i - s)%nat with (S (i - S s)) in Hn by lia. exact Hn.
Qed.

Lemma In_indexed {A} (l : list A) (i : nat) (a : A) :
  In (i, a) (indexed l) <-> nth_error l i = Some a.
Proof.
  unfold indexed. rewrite In_indexed_gen, Nat.sub_0_r. intuition lia.
Qed.

(** Cells of [corr.where(mask)]. *)
Lemma nth_masked (mask : nat -> bool) (l : list cell) :
  forall (s i : nat),
  nth i (map (fun iv => if mask (fst iv) then snd iv else NaN)
             (combine (seq s (length l)) l)) NaN =
  if mask (s + i)%nat then nth i l NaN else NaN.
Proof.
  induction l as [|b l IH]; intros s i; simpl.
  - destruct i; now destruct (mask _).
  - destruct i as [|i]; simpl.
    + now rewrite Nat.add_0_r.
    + rewrite IH. now rewrite Nat.add_succ_r.
Qed.

Lemma nth_error_indexed_gen {A} (l : list A) :
  forall (s j : nat),
  nth_error (combine (seq s (length l)) l) j =
  option_map (fun a => ((s + j)%nat, a)) (nth_error l j).
Proof.
  induction l as [|b l IH]; intros s j; simpl.
  - now destruct j.
  - destruct j as [|j]; simpl.
    + now rewrite Nat.add_0_r.
    + rewrite IH. now rewrite Nat.add_succ_r.
Qed.

Lemma where_columns (mask : nat -> nat -> bool) (m : Frame string) (j : nat)
      (c' : string * list cell) :
  nth_error (columns (where_ mask m)) j = Some c' ->
  exists c, nth_error (columns m) j = Some c /\ fst c' = fst c /\
            forall i, DF.at_row i c' =
                      if mask i j then DF.at_row i c else NaN.
Proof.
  unfold where_. cbn [columns]. intros H.
  rewrite nth_error_map in H. unfold indexed in H.
  rewrite nth_error_indexed_gen in H.
  destruct (nth_error (columns m) j) as [c|]; [|discriminate].
  cbn [option_map Nat.add] in H. injection H as <-.
  exists c. split; [reflexivity|]. split; [reflexivity|].
  intros i. unfold DF.at_row. cbn [fst snd]. unfold indexed.
  now rewrite (nth_masked (fun i => mask i j) (snd c) 0 i).
Qed.

(** Entries of [df.stack()]. *)
Lemma In_stack (m : Frame string) (X Y : string) (v : cell) :
  In ((X, Y), v) (stack m) <->
  exists i c, nth_error (index m) i = Some X /\ In c (columns m) /\
              fst c = Y /\ v = DF.at_row i c.
Proof.
  unfold stack. rewrite in_flat_map. split.
  - intros ([i X'] & Hi & H). apply In_indexed in Hi.
    apply in_map_iff in H as (c & [= <- <- <-] & Hc).
    exists i, c. repeat split; assumption.
  - intros (i & c & Hi & Hc & <- & ->).
    exists (i, X). split; [now apply In_indexed|].
    apply in_map_iff. exists c. split; [reflexivity|assumption].
Qed.



(** The entries that hold a value. *)
Lemma filter_flat_map {A B} (p : B -> bool) (f : A -> list B) (l : list A) :
  filter p (flat_map f l) = flat_map (fun a => filter p (f a)) l.
Proof.
  induction l as [|a l IH]; simpl; [reflexivity|].
  now rewrite filter_app, IH.
Qed.

Lemma defined_stack (m : Frame string) :
  filter defined (stack m) = defined_cells m.
Proof.
  unfold stack, defined_cells. rewrite filter_flat_map.
  apply flat_map_ext. intros [i X]. cbn [fst snd].
  induction (columns m) as [|c cs IH]; [reflexivity|].
  cbn [map filter flat_map]. unfold defined at 1, val, notna. cbn [snd].
  rewrite IH. now destruct (isna (DF.at_row i c)).
Qed.

Lemma upper_entries_cells (m : Frame string) :
  upper_entries m = defined_cells (where_ triu1 m).
Proof. apply defined_stack. Qed.


Lemma In_firstn {A} (n : nat) (l : list A) (a : A) :
  In a (firstn n l) -> In a l.
Proof.
  revert n. induction l as [|b l IH]; intros [|n] H; simpl in *;
    try contradiction.
  destruct H as [H|H]; [now left|right; eauto].
Qed.


(** The order of the sort. *)
Lemma geb_total (a b : cell) : Num.geb a b = true \/ Num.geb b a = true.
Proof.
  destruct a as [x| | |], b as [y| | |]; simpl; auto.
  destruct (Qle_bool y x) eqn:E; [now left|right].
  apply Qle_bool_iff. apply Qlt_le_weak. apply Qnot_le_lt.
  intros H. apply Qle_bool_iff in H. congruence.
Qed.

Lemma geb_trans (a b c : cell) :
  Num.geb a b = true -> Num.geb b c = true -> Num.geb a c = true.
Proof.
  destruct a as [x| | |], b as [y| | |], c as [z| | |]; simpl; try easy.
  rewrite !Qle_bool_iff. intros H1 H2. eapply Qle_trans; eassumption.
Qed.

Lemma geb_refl (a : cell) : Num.geb a a = true.
Proof.
  destruct a as [x| | |]; simpl; try reflexivity.
  apply Qle_bool_iff, Qle_refl.
Qed.

Lemma before_total (rank : item -> nat) (a b : item) :
  before rank a b = true \/ before rank b a = true.
Proof.
  unfold before.
  destruct (geb_total (val a) (val b)) as [H|H]; rewrite H.
  - destruct (Num.geb (val b) (val a)); [|now left].
    destruct (Nat.leb (rank a) (rank b)) eqn:E; [now left|right].
    apply Nat.leb_le. apply Nat.leb_gt in E. lia.
  - destruct (Num.geb (val a) (val b)); [|now right].
    destruct (Nat.leb (rank a) (rank b)) eqn:E; [now left|right].
    apply Nat.leb_le. apply Nat.leb_gt in E. lia.
Qed.

Lemma before_geb (rank : item -> nat) (a b : item) :
  before rank a b = true -> Num.geb (val a) (val b) = true.
Proof. unfold before. now destruct (Num.geb (val a) (val b)). Qed.

Lemma Sorted_weaken {A} (R R' : A -> A -> Prop) (l : list A) :
  (forall a b, R a b -> R' a b) -> Sorted R l -> Sorted R' l.
Proof.
  intros H. induction 1 as [|a l Hl IH Ha]; constructor; [assumption|].
  destruct Ha; constructor. now apply H.
Qed.

Lemma strongly_sorted_app {A} (R : A -> A -> Prop) (l1 l2 : list A) (a b : A) :
  StronglySorted R (l1 ++ l2) -> In a l1 -> In b l2 -> R a b.
Proof.
  induction l1 as [|x l1 IH]; simpl; intros H Ha Hb; [contradiction|].
  inversion H as [|? ? Hs Hall]; subst.
  destruct Ha as [->|Ha].
  - rewrite Forall_forall in Hall. apply Hall. apply in_or_app. now right.
  - now apply IH.
Qed.

Lemma strongly_sorted_join {A} (R : A -> A -> Prop) (l1 l2 : list A) :
  StronglySorted R l1 -> StronglySorted R l2 ->
  (forall a b, In a l1 -> In b l2 -> R a b) ->
  StronglySorted R (l1 ++ l2).
Proof.
  intros H1 H2 H. induction H1 as [|x l1 Hl IH Hx]; simpl; [assumption|].
  constructor.
  - apply IH. intros a b Ha Hb. apply H; [now right|assumption].
  - apply Forall_app. split; [assumption|].
    apply Forall_forall. intros b Hb. apply H; [now left|assumption].
Qed.

(** The sorted series: the defined entries in descending order, then the
    others. *)
Lemma sort_defined_part (rank : item -> nat) (s : list item) :
  Permutation (isort (before rank) (filter defined s)) (filter defined s) /\
  Sorted (fun a b => Num.geb (val a) (val b) = true)
         (isort (before rank) (filter defined s)).
Proof.
  split; [apply SortFacts.isort_perm|].
  apply (Sorted_weaken (fun a b => before rank a b = true)).
  - intros a b. apply before_geb.
  - apply (SortFacts.isort_sorted (before rank)). apply before_total.
Qed.

Lemma defined_or_not (s : list item) :
  Permutation (filter defined s ++ filter undefined s) s.
Proof.
  induction s as [|e s IH]; simpl; [reflexivity|].
  unfold defined at 1, undefined at 1, notna.
  destruct (isna (val e)); simpl.
  - rewrite <- Permutation_middle. now constructor.
  - now constructor.
Qed.

Lemma sort_values_desc_perm (rank : item -> nat) (s : list item) :
  Permutation (sort_values_desc rank s) s.
Proof.
  unfold sort_values_desc.
  rewrite (proj1 (sort_defined_part rank s)). apply defined_or_not.
Qed.

Lemma sort_values_desc_In (rank : item -> nat) (s : list item) (e : item) :
  In e (sort_values_desc rank s) <-> In e s.
Proof.
  split; apply Permutation_in; [|symmetry]; apply sort_values_desc_perm.
Qed.


Lemma sorted_desc_strong (rank : item -> nat) (s : list item) :
  StronglySorted (fun a b => Num.geb (val a) (val b) = true)
                 (sort_values_desc rank s).
Proof.
  unfold sort_values_desc. apply strongly_sorted_join.
  - apply Sorted_StronglySorted; [|apply sort_defined_part].
    intros a b c. apply geb_trans.
  - induction s as [|e s IH]; simpl; [constructor|].
    destruct (undefined e) eqn:E; [|assumption].
    constructor; [assumption|].
    apply Forall_forall. intros b Hb. apply filter_In in Hb as [_ Hb].
    unfold undefined in Hb. destruct (val b); try discriminate.
    now destruct (val e).
  - intros a b _ Hb. apply filter_In in Hb as [_ Hb].
    unfold undefined in Hb. destruct (val b); try discriminate.
    now destruct (val a).
Qed.

Lemma In_top_pairs (rank : item -> nat) (m : Frame string) (e : item) :
  In e (top_pairs rank m) -> In e (stack (where_ triu1 m)).
Proof.
  unfold top_pairs, head. intros H.
  apply In_firstn in H. now apply sort_values_desc_In in H.
Qed.


(** The report, in its two parts. *)
Lemma top_pairs_parts (rank : item -> nat) (m : Frame string) :
  let d := isort (before rank) (upper_entries m) in
  let n := filter undefined (stack (where_ triu1 m)) in
  top_pairs rank m = firstn 5 d ++ firstn (5 - length d) n.
Proof.
  cbv zeta. unfold top_pairs, head, sort_values_desc, upper_entries.
  apply firstn_app.
Qed.

Lemma filter_defined_isort (rank : item -> nat) (s : list item) :
  Forall (fun e => defined e = true) (isort (before rank) (filter defined s)).
Proof.
  apply Forall_forall. intros e He. apply SortFacts.isort_In in He.
  now apply filter_In in He.
Qed.


(** Counting: at most one entry for each position above the diagonal. *)
Lemma count_above (i : nat) (f : nat * (string * list cell) -> nat)
      (cols : list (string * list cell)) :
  (forall jc, f jc <= if Nat.ltb i (fst jc) then 1 else 0)%nat ->
  forall s,
  (list_sum (map f (combine (seq s (length cols)) cols))
   <= (s + length cols) - Nat.max s (S i))%nat.
Proof.
  intros Hf. induction cols as [|c cols IH]; intros s;
    cbn [length seq combine map]; [apply Nat.le_0_l|].
  match goal with
  | |- context [list_sum (?a :: ?l)] =>
      change (list_sum (a :: l)) with (a + list_sum l)%nat
  end.
  specialize (IH (S s)). specialize (Hf (s, c)). cbn [fst] in Hf.
  destruct (Nat.ltb i s) eqn:E.
  - apply Nat.ltb_lt in E. lia.
  - apply Nat.ltb_ge in E. lia.
Qed.

Lemma sum_rows (K : nat) (g : nat * string -> nat) (idx : list string) :
  (forall ir, g ir <= K - S (fst ir))%nat ->
  forall s,
  (2 * list_sum (map g (combine (seq s (length idx)) idx))
   <= (K - s) * (K - S s))%nat.
Proof.
  intros Hg. induction idx as [|x idx IH]; intros s;
    cbn [length seq combine map]; [apply Nat.le_0_l|].
  match goal with
  | |- context [list_sum (?a :: ?l)] =>
      change (list_sum (a :: l)) with (a + list_sum l)%nat
  end.
  specialize (IH (S s)). specialize (Hg (s, x)). cbn [fst] in Hg.
  destruct (Nat.le_gt_cases K s) as [H|H].
  - replace (K - s)%nat with 0%nat by lia.
    replace (K - S s)%nat with 0%nat in * by lia.
    replace (K - S (S s))%nat with 0%nat in * by lia. lia.
  - replace (K - s)%nat with (S (K - S s)) by lia.
    remember (K - S s)%nat as a eqn:Ea.
    destruct a as [|b].
    + replace (K - S (S s))%nat with 0%nat in IH by lia. lia.
    + replace (K - S (S s))%nat with b in IH by lia. nia.
Qed.

Lemma upper_entries_length (m : Frame string) :
  (2 * length (upper_entries m) <= DF.ncols m * (DF.ncols m - 1))%nat.
Proof.
  rewrite upper_entries_cells.
  unfold defined_cells. rewrite length_flat_map.
  change (index (where_ triu1 m)) with (index m).
  unfold indexed at 1.
  match goal with
  | |- (2 * list_sum (map ?g _) <= _)%nat =>
      assert (Hg : forall ir, (g ir <= DF.ncols m - S (fst ir))%nat)
  end.
  { intros [i X]. cbn [fst snd].
    rewrite length_flat_map. unfold where_. cbn [columns]. rewrite map_map.
    unfold indexed at 1.
    match goal with
    | |- (list_sum (map ?f _) <= _)%nat =>
        pose proof (count_above i f (columns m)) as H
    end.
    specialize (fun Hf => H Hf 0%nat). cbn [Nat.add Nat.max] in H.
    apply H. clear H. intros [j c]. cbn [fst snd].
    unfold DF.at_row. cbn [snd]. unfold indexed.
    rewrite (nth_masked (fun i => triu1 i j) (snd c) 0 i). cbn [Nat.add].
    unfold triu1. destruct (Nat.ltb i j); simpl; [|lia].
    destruct (isna _); simpl; lia. }
  match goal with
  | |- (2 * list_sum (map ?g _) <= _)%nat =>
      pose proof (sum_rows (DF.ncols m) g (index m) Hg 0%nat) as H
  end.
  rewrite Nat.sub_0_r in H. exact H.
Qed.


End PairsFacts.





(* ================================================================== *)
(** * The runs of [main]                                                *)
(* ================================================================== *)

Module MainFacts.

Lemma bind_go {A B} (tr : list event) (a : A) (f : A -> M B) :
  bind (tr, Go a) f = (tr ++ fst (f a), snd (f a)).
Proof. unfold bind. now destruct (f a). Qed.

Lemma bind_stop {A B} (tr : list event) (o : outcome) (f : A -> M B) :
  bind (tr, Stop o) f = (tr, Stop o).
Proof. reflexivity. Qed.

Lemma resolve_tickers_run (args : Args) (env : Env) :
  resolve_tickers args env =
  (trace (resolve_tickers args env), Go (resolved_tickers args env)) /\
  (trace (resolve_tickers args env) = [] \/
   trace (resolve_tickers args env) = [Prompt prompt_msg]).
Proof.
  unfold resolved_tickers, resolve_tickers, prompt_tickers, trace.
  destruct (tickers args) as [s|]; [destruct (truthy s)|]; simpl; auto.
Qed.

Lemma get_price_data_run (dl : list string -> string -> option string -> RawFrame)
      (args : Args) (t : string) (ts : list string) :
  get_price_data (Some dl) (t :: ts) (start args) (end_ args) =
  ([], Go (acquired dl args (t :: ts))).
Proof.
  unfold get_price_data, acquired, select_prices.
  destruct (dl (t :: ts) (start args) (end_ args)) as [idx groups|idx fields].
  - destruct (lookup "Adj Close" groups); [reflexivity|].
    destruct (lookup "Close" groups); reflexivity.
  - destruct (lookup "Adj Close" fields); [reflexivity|].
    destruct (lookup "Close" fields); reflexivity.
Qed.

Lemma cleaned_all_valid (prices : Frame Date) (c : string * list cell) :
  In c (columns (cleaned prices)) -> DF.all_missing c = false.
Proof.
  unfold cleaned, DF.select_cols. cbn [columns]. intros H.
  apply filter_In in H as [_ H]. now apply negb_true_iff in H.
Qed.

Lemma normalize_run (prices : Frame Date) :
  DF.empty (cleaned prices) = false ->
  normalize (cleaned prices) = ([], Go (normalized_table (cleaned prices))).
Proof.
  intros He. unfold normalize, normalized_table. rewrite He.
  destruct (first_vals_some (columns (cleaned prices)) (cleaned_all_valid prices))
    as (fv & ->).
  reflexivity.
Qed.

Lemma makedirs_run (path : string) :
  makedirs path =
  ([MakeDirs path],
   if is_empty path then Stop (Raised FileNotFoundError) else Go tt).
Proof. unfold makedirs. now destruct (is_empty path). Qed.

Lemma export_csv_run (args : Args) (ts : string) (tks : list string)
      (prices : Frame Date) :
  export_csv args ts tks prices = (trace (export_csv args ts tks prices), Go tt).
Proof. unfold export_csv. now destruct (save_csv args). Qed.

Lemma present_normalized_run (args : Args) (ts : string) (t : Frame Date) :
  present_normalized args ts t = (trace (present_normalized args ts t), Go tt).
Proof.
  unfold present_normalized, show_or_save.
  destruct (DF.any_notna t), (display args); reflexivity.
Qed.

Ltac finish :=
  cbn [fst snd]; unfold trace; cbn [fst snd app];
  rewrite <- ?app_assoc; cbn [app]; reflexivity.

(** The stage after the fetch, path by path. *)
Lemma analyse_eq (args : Args) (ts : string) (rank : Pairs.item -> nat)
      (tks : list string) (prices : Frame Date) :
  analyse args ts rank tks prices =
  if DF.empty prices then ([Print no_data_msg], Stop Returned)
  else
    let pre := trace (export_csv args ts tks prices)
               ++ trace (derive_and_clean prices) in
    let cp := cleaned prices in
    if DF.empty cp then (pre ++ [Print no_columns_msg], Stop Returned)
    else
      let pc := present_corr args ts rank (corr_of cp) in
      (pre ++ trace (present_normalized args ts (normalized_table cp)) ++ trace pc,
       snd pc).
Proof.
  cbv zeta. unfold analyse.
  destruct (DF.empty prices); [reflexivity|].
  rewrite export_csv_run, bind_go.
  rewrite derive_and_clean_run, bind_go. cbn [d_prices d_corr].
  destruct (DF.empty (cleaned prices)) eqn:Ec.
  - finish.
  - rewrite (normalize_run _ Ec), bind_go.
    rewrite present_normalized_run, bind_go.
    finish.
Qed.

(** Every run of [main], path by path. *)
Lemma main_eq (args : Args) (env : Env) :
  main args env =
  let ptr := trace (resolve_tickers args env) in
  let tks := resolved_tickers args env in
  match tks with
  | [] => (ptr ++ [Print no_tickers_msg], Stop Returned)
  | _ :: _ =>
      if is_empty (outdir args)
      then (ptr ++ [MakeDirs (outdir args)], Stop (Raised FileNotFoundError))
      else
      let pre := ptr ++ [MakeDirs (outdir args); Print (fetching_msg args tks)] in
      match yfinance env with
      | None => (pre, Stop (Raised (ImportError import_error_msg)))
      | Some dl =>
          let prices := acquired dl args tks in
          if DF.empty prices then (pre ++ [Print no_data_msg], Stop Returned)
          else
            let pre2 := pre ++ trace (export_csv args (utcnow env) tks prices)
                            ++ trace (derive_and_clean prices) in
            let cp := cleaned prices in
            if DF.empty cp then (pre2 ++ [Print no_columns_msg], Stop Returned)
            else
              let pc := present_corr args (utcnow env) (tie_rank env) (corr_of cp) in
              (pre2 ++ trace (present_normalized args (utcnow env) (normalized_table cp))
                    ++ trace pc,
               snd pc)
      end
  end.
Proof.
  cbv zeta. unfold main.
  destruct (resolve_tickers_run args env) as [Hr _]. rewrite Hr at 1.
  rewrite bind_go.
  destruct (resolved_tickers args env) as [|t tks]; [reflexivity|].
  rewrite makedirs_run.
  destruct (is_empty (outdir args)); [reflexivity|].
  rewrite bind_go. unfold print at 1, emit at 1. rewrite bind_go.
  destruct (yfinance env) as [dl|].
  - rewrite get_price_data_run, bind_go, analyse_eq. cbv zeta.
    destruct (DF.empty (acquired dl args (t :: tks))) eqn:Ee.
    + finish.
    + destruct (DF.empty (cleaned (acquired dl args (t :: tks)))) eqn:Ec; finish.
  - finish.
Qed.

(** After [get_price_data] dropped the all-missing rows, a table with a
    row has a column with an observation: the cleaner cannot empty it. *)
Lemma cleaned_not_empty (df : Frame Date) :
  DF.empty (DF.dropna_all df) = false ->
  DF.empty (cleaned (DF.dropna_all df)) = false.
Proof.
  set (ks := DF.rows_where (DF.row_has_value df) df).
  unfold DF.empty. intros H. apply orb_false_iff in H as [Hr _].
  unfold cleaned, DF.select_cols, DF.nrows, DF.ncols in *. cbn [index columns] in *.
  rewrite Hr. cbn [orb]. apply Nat.eqb_neq. apply Nat.eqb_neq in Hr.
  unfold DF.dropna_all, DF.take_rows in *. fold ks in Hr |- *. cbn [index columns] in *.
  destruct ks as [|t ks'] eqn:Eks; [now destruct Hr|].
  assert (Ht : DF.row_has_value df t = true).
  { assert (Hin : In t ks) by (rewrite Eks; now left).
    now apply DFFacts.rows_where_In in Hin. }
  unfold DF.row_has_value in Ht. apply existsb_exists in Ht as (c & Hc & Hv).
  assert (Hin : In (fst c, DF.pick (t :: ks') (snd c))
                   (filter (fun c => negb (DF.all_missing c))
                      (map (fun c => (fst c, DF.pick (t :: ks') (snd c))) (columns df)))).
  { apply filter_In. split; [apply in_map_iff; now exists c|].
    unfold DF.all_missing. rewrite negb_involutive. cbn [snd].
    apply existsb_exists. exists (DF.at_row t c). split; [|assumption].
    unfold DF.pick. cbn [flat_map]. apply in_or_app. left.
    unfold DF.at_row in *.
    destruct (nth_error (snd c) t) as [v|] eqn:E.
    - rewrite (nth_error_nth _ _ NaN E). now left.
    - apply nth_error_None in E. rewrite nth_overflow in Hv by assumption.
      discriminate. }
  intros Hlen. apply length_zero_iff_nil in Hlen. now rewrite Hlen in Hin.
Qed.

Lemma acquired_cleaned_not_empty
      (dl : list string -> string -> option string -> RawFrame)
      (args : Args) (tks : list string) :
  DF.empty (acquired dl args tks) = false ->
  DF.empty (cleaned (acquired dl args tks)) = false.
Proof.
  unfold acquired.
  destruct (select_prices tks _) as [adj|]; [apply cleaned_not_empty|discriminate].
Qed.

End MainFacts.

Module TraceFacts.
Import MainFacts.

Ltac split_in H :=
  unfold trace at 1 in H; cbn [fst] in H;
  rewrite ?in_app_iff in H; simpl in H;
  repeat match type of H with
         | _ \/ _ => destruct H as [H|H]
         | False => destruct H
         end;
  try (symmetry in H); intuition auto.

(** Where an event of a run can come from. *)
Lemma main_trace_In (args : Args) (env : Env) (e : event) :
  In e (trace (main args env)) ->
  let tks := resolved_tickers args env in
  In e (trace (resolve_tickers args env)) \/
  e = Print no_tickers_msg \/
  (tks <> [] /\
   (e = MakeDirs (outdir args) \/
    is_empty (outdir args) = false /\
    (e = Print (fetching_msg args tks) \/
    match yfinance env with
    | None => False
    | Some dl =>
      let prices := acquired dl args tks in
      (DF.empty prices = true /\ e = Print no_data_msg) \/
      (DF.empty prices = false /\
       (In e (trace (export_csv args (utcnow env) tks prices)) \/
        In e (trace (derive_and_clean prices)) \/
        (DF.empty (cleaned prices) = true /\ e = Print no_columns_msg) \/
        (DF.empty (cleaned prices) = false /\
         (In e (trace (present_normalized args (utcnow env)
                                          (normalized_table (cleaned prices)))) \/
          In e (trace (present_corr args (utcnow env) (tie_rank env)
                                    (corr_of (cleaned prices))))))))
    end))).
Proof.
  rewrite main_eq. cbv zeta.
  destruct (resolved_tickers args env) as [|t tks] eqn:Et.
  - intros H. split_in H.
  - intros H. assert (Hne : t :: tks <> []) by discriminate.
    destruct (is_empty (outdir args)) eqn:Eo; [split_in H|].
    destruct (yfinance env) as [dl|].
    + destruct (DF.empty (acquired dl args (t :: tks))) eqn:Ee.
      * split_in H.
      * destruct (DF.empty (cleaned (acquired dl args (t :: tks)))) eqn:Ec;
          split_in H.
    + split_in H.
Qed.

Lemma resolve_trace_In (args : Args) (env : Env) (e : event) :
  In e (trace (resolve_tickers args env)) -> e = Prompt prompt_msg.
Proof.
  destruct (resolve_tickers_run args env) as [_ [->| ->]]; simpl; [tauto|].
  intros [H|[]]. congruence.
Qed.

Lemma export_trace_In (args : Args) (ts : string) (tks : list string)
      (prices : Frame Date) (e : event) :
  In e (trace (export_csv args ts tks prices)) ->
  save_csv args = true /\
  (e = WriteCsv (csv_path args ts tks) "Date" prices \/
   e = Print ("Saved adjusted close CSV to " ++ csv_path args ts tks)).
Proof.
  unfold export_csv. destruct (save_csv args); simpl; [|tauto].
  intros [H|[H|[]]]; auto.
Qed.

Lemma clean_trace_In (prices : Frame Date) (e : event) :
  In e (trace (derive_and_clean prices)) ->
  e = PrintList "Dropping columns with no data:" (dropped_names prices).
Proof.
  rewrite derive_and_clean_run. unfold trace. cbn [fst].
  destruct (Nat.eqb _ _); simpl; [tauto|]. intros [H|[]]. congruence.
Qed.

Lemma normalized_trace_In (args : Args) (ts : string) (t : Frame Date) (e : event) :
  In e (trace (present_normalized args ts t)) ->
  match e with
  | Print _ | PlotLines _ _ | ShowFig | SaveFig _ _ | CloseFig => True
  | _ => False
  end.
Proof.
  unfold present_normalized, show_or_save.
  destruct (DF.any_notna t), (display args); simpl;
    intuition (subst; exact I).
Qed.

Lemma corr_trace_In (args : Args) (ts : string) (rank : Pairs.item -> nat)
      (m : Frame string) (e : event) :
  In e (trace (present_corr args ts rank m)) ->
  match e with
  | PlotHeatmap m' _ => m' = m
  | PrintSeries s => s = Pairs.top_pairs rank m
  | Print _ | ShowFig | SaveFig _ _ | CloseFig => True
  | _ => False
  end.
Proof.
  unfold present_corr, show_or_save.
  destruct (DF.empty m || Nat.ltb (DF.nrows m) 1), (display args); simpl;
    intuition (subst; (exact I || reflexivity)).
Qed.

Lemma corr_trace_heatmap (args : Args) (ts : string) (rank : Pairs.item -> nat)
      (m m' : Frame string) (title : string) :
  In (PlotHeatmap m' title) (trace (present_corr args ts rank m)) ->
  In (PrintSeries (Pairs.top_pairs rank m)) (trace (present_corr args ts rank m)).
Proof.
  unfold present_corr, show_or_save.
  destruct (DF.empty m || Nat.ltb (DF.nrows m) 1), (display args); simpl;
    intuition discriminate.
Qed.


End TraceFacts.

Section Pipeline.
Import MainFacts TraceFacts.


(** On the full path the events of the last two stages are events of the
    run, and so are those of the CSV export. *)
Lemma main_full_path (args : Args) (env : Env)
      (dl : list string -> string -> option string -> RawFrame) (e : event) :
  let tks := resolved_tickers args env in
  let prices := acquired dl args tks in
  tks <> [] -> outdir args <> "" ->
  yfinance env = Some dl -> DF.empty prices = false ->
  (In e (trace (export_csv args (utcnow env) tks prices)) ->
   In e (trace (main args env))) /\
  (DF.empty (cleaned prices) = false ->
   In e (trace (present_corr args (utcnow env) (tie_rank env)
                             (corr_of (cleaned prices)))) ->
   In e (trace (main args env))).
Proof.
  cbv zeta. intros Hne Ho Hyf He. rewrite main_eq. cbv zeta.
  destruct (resolved_tickers args env) as [|t tks]; [congruence|].
  destruct (outdir args) as [|c o] eqn:Eo; [congruence|]. cbn [is_empty].
  rewrite Hyf, He.
  destruct (DF.empty (cleaned (acquired dl args (t :: tks)))) eqn:Ec;
    unfold trace; cbn [fst]; rewrite !in_app_iff.
  - split; [tauto|discriminate].
  - split; tauto.
Qed.

(** The branch on an empty correlation matrix is never taken by [main]:
    a price table with a column yields a matrix with a row and a column. *)
Lemma returns_of_ncols (prices : Frame Date) :
  DF.ncols (returns_of prices) = DF.ncols prices.
Proof.
  unfold returns_of, DF.dropna, DF.take_rows, DF.pct_change, DF.ncols.
  cbn [columns]. now rewrite !length_map.
Qed.

Lemma corr_not_empty (prices : Frame Date) :
  DF.empty prices = false -> DF.empty (corr_of prices) = false.
Proof.
  intros H. unfold DF.empty in H. apply orb_false_iff in H as [_ H].
  assert (Hr : DF.nrows (corr_of prices) = DF.ncols prices).
  { unfold corr_of, Corr.corr, DF.nrows. cbn [index]. unfold DF.names.
    rewrite length_map. apply returns_of_ncols. }
  assert (Hc : DF.ncols (corr_of prices) = DF.ncols prices).
  { unfold corr_of, Corr.corr. unfold DF.ncols at 1. cbn [columns].
    rewrite length_map, length_seq. apply returns_of_ncols. }
  unfold DF.empty. now rewrite Hr, Hc, H.
Qed.

End Pipeline.

(* ================================================================== *)
(** * The correlation of the pipeline                                   *)
(* ================================================================== *)

Module ListwiseFacts.
Import Corr CorrFacts SqrtFacts PearsonFacts DiagFacts DFFacts.

Local Open Scope Q_scope.

(** The rows of the returns table are the complete dates. *)
Lemma forallb_ext_in {A} (f g : A -> bool) (l : list A) :
  (forall a, In a l -> f a = g a) -> forallb f l = forallb g l.
Proof.
  induction l as [|a l IH]; intros H; [reflexivity|].
  cbn [forallb]. rewrite (H a) by now left.
  rewrite IH; [reflexivity|]. intros b Hb. apply H. now right.
Qed.

Lemma return_rows_complete (prices : Frame Date) :
  DF.wf prices -> columns prices <> [] ->
  return_rows prices = complete_dates prices.
Proof.
  intros Hwf Hne. unfold return_rows, complete_dates, DF.rows_where.
  change (DF.nrows (DF.pct_change prices)) with (DF.nrows prices).
  destruct (DF.nrows prices) as [|n] eqn:En; [reflexivity|].
  cbn [seq filter]. rewrite Nat.sub_succ, Nat.sub_0_r.
  assert (H0 : DF.row_complete (DF.pct_change prices) 0 = false).
  { rewrite row_complete_pct.
    destruct (columns prices) as [|c cs]; [congruence|].
    cbn [forallb]. now rewrite pct_change_col_first. }
  rewrite H0. apply filter_ext_in. intros t Ht. apply in_seq in Ht.
  rewrite row_complete_pct.
  unfold DF.wf in Hwf. rewrite Forall_forall in Hwf.
  apply forallb_ext_in. intros c Hc.
  now rewrite pct_change_col_nth by (rewrite (Hwf c Hc), En; lia).
Qed.

Lemma pairwise_complete_nil_r (xs : list cell) : pairwise_complete xs [] = [].
Proof. now destruct xs. Qed.

Lemma pairwise_complete_maps (f g : nat -> cell) (rows : list nat) :
  pairwise_complete (map f rows) (map g rows) =
  flat_map (fun t => match f t, g t with
                     | Fin a, Fin b => [(a, b)]
                     | _, _ => []
                     end) rows.
Proof.
  induction rows as [|t rows IH]; [reflexivity|].
  cbn [map flat_map pairwise_complete].
  destruct (f t), (g t); cbn [app]; now rewrite IH.
Qed.

Lemma flat_map_nil {A B} (f : A -> list B) (l : list A) :
  (forall a, f a = []) -> flat_map f l = [].
Proof.
  intros H. induction l as [|a l IH]; [reflexivity|].
  cbn [flat_map]. now rewrite H, IH.
Qed.

Lemma returns_values (prices : Frame Date) (j : nat) :
  DF.wf prices -> columns prices <> [] ->
  col_values (returns_of prices) j =
  match nth_error (columns prices) j with
  | Some c => map (return_at (snd c)) (complete_dates prices)
  | None => []
  end.
Proof.
  intros Hwf Hne. rewrite (returns_of_columns prices Hwf Hne).
  unfold col_values. cbn [columns]. rewrite nth_error_map.
  rewrite (return_rows_complete prices Hwf Hne).
  now destruct (nth_error (columns prices) j).
Qed.

Lemma returns_obs (prices : Frame Date) (i j : nat) :
  DF.wf prices -> columns prices <> [] ->
  pairwise_complete (col_values (returns_of prices) i)
                    (col_values (returns_of prices) j) =
  complete_obs prices i j.
Proof.
  intros Hwf Hne. rewrite !returns_values by assumption.
  unfold complete_obs, return_cell.
  destruct (nth_error (columns prices) i) as [ci|].
  - destruct (nth_error (columns prices) j) as [cj|].
    + apply pairwise_complete_maps.
    + rewrite pairwise_complete_nil_r. symmetry. apply flat_map_nil.
      intros t. now destruct (return_at (snd ci) t).
  - symmetry. apply flat_map_nil. reflexivity.
Qed.

(** The inequality of Cauchy and Schwarz, for the deviations. *)
Lemma Qsum_cons {A} (f : A -> Q) (a : A) (l : list A) :
  Qsum (map f (a :: l)) = f a + Qsum (map f l).
Proof. reflexivity. Qed.

Lemma quadratic_sum (a b : Q) (u v : Q * Q -> Q) (l : list (Q * Q)) :
  Qsum (map (fun p => (a * v p - b * u p) * (a * v p - b * u p)) l) ==
  a * a * Qsum (map (fun p => v p * v p) l)
  - 2 * a * b * Qsum (map (fun p => u p * v p) l)
  + b * b * Qsum (map (fun p => u p * u p) l).
Proof.
  induction l as [|p l IH].
  - unfold Qsum. simpl. ring.
  - rewrite !Qsum_cons, IH. ring.
Qed.

Lemma cauchy_schwarz (u v : Q * Q -> Q) (l : list (Q * Q)) :
  Qsum (map (fun p => u p * v p) l) * Qsum (map (fun p => u p * v p) l) <=
  Qsum (map (fun p => u p * u p) l) * Qsum (map (fun p => v p * v p) l).
Proof.
  set (suu := Qsum (map (fun p => u p * u p) l)).
  set (svv := Qsum (map (fun p => v p * v p) l)).
  set (suv := Qsum (map (fun p => u p * v p) l)).
  assert (Huu : 0 <= suu) by (apply Qsum_nonneg; intros; apply Qsquare_nonneg).
  assert (Hvv : 0 <= svv) by (apply Qsum_nonneg; intros; apply Qsquare_nonneg).
  assert (Hq : 0 <= suu * suu * svv - 2 * suu * suv * suv + suv * suv * suu).
  { pose proof (quadratic_sum suu suv u v l) as E.
    fold suu svv suv in E. rewrite <- E.
    apply Qsum_nonneg. intros. apply Qsquare_nonneg. }
  destruct (Qlt_le_dec 0 suu) as [Hpos|Hz].
  - assert (Hm : 0 <= suu * (suu * svv - suv * suv)).
    { setoid_replace (suu * (suu * svv - suv * suv))
        with (suu * suu * svv - 2 * suu * suv * suv + suv * suv * suu) by ring.
      exact Hq. }
    destruct (Qlt_le_dec (suu * svv - suv * suv) 0) as [Hneg|Hge]; [|lra].
    exfalso.
    assert (Hlt : suu * (suu * svv - suv * suv) < 0).
    { setoid_replace (suu * (suu * svv - suv * suv))
        with (- (suu * (- (suu * svv - suv * suv)))) by ring.
      assert (0 < suu * (- (suu * svv - suv * suv))).
      { apply Qmult_lt_0_compat; lra. }
      lra. }
    lra.
  - assert (Hz' : suu == 0) by lra.
    assert (Hu : forall p, In p l -> u p == 0).
    { intros p Hp.
      pose proof (Qsum_zero_terms (fun p => u p * u p) l
                    (fun a _ => Qsquare_nonneg (u a)) Hz' p Hp) as H.
      cbv beta in H. destruct (Qmult_integral _ _ H); assumption. }
    assert (Huv : suv == 0).
    { unfold suv. transitivity (Qsum (map (fun _ : Q * Q => 0) l)).
      - apply Qsum_map_ext. intros p Hp. rewrite (Hu p Hp). ring.
      - clear. unfold Qsum. induction l as [|a l IH]; simpl; [reflexivity|].
        rewrite IH. ring. }
    rewrite Huv, Hz'. lra.
Qed.

Lemma sqdev_fst (obs : list (Q * Q)) :
  sqdev (map fst obs) =
  Qsum (map (fun p => (fst p - mean (map fst obs)) * (fst p - mean (map fst obs))) obs).
Proof. rewrite sqdev_squares, map_map. reflexivity. Qed.

Lemma sqdev_snd (obs : list (Q * Q)) :
  sqdev (map snd obs) =
  Qsum (map (fun p => (snd p - mean (map snd obs)) * (snd p - mean (map snd obs))) obs).
Proof. rewrite sqdev_squares, map_map. reflexivity. Qed.

Lemma codev_bound (obs : list (Q * Q)) :
  codev obs * codev obs <= sqdev (map fst obs) * sqdev (map snd obs).
Proof.
  rewrite sqdev_fst, sqdev_snd. unfold codev. cbv zeta.
  apply (cauchy_schwarz (fun p => fst p - mean (map fst obs))
                        (fun p => snd p - mean (map snd obs)) obs).
Qed.

(** The root vanishes only at or below zero. *)
Lemma Qsqrt_pos (v : Q) : 0 < v -> 0 < Qsqrt v.
Proof.
  intros Hv. unfold Qsqrt.
  assert (Hr : 0 < Qred v) by now rewrite Qred_correct.
  destruct (Qred v) as [n d]. unfold Qlt in Hr. cbn [Qnum Qden] in *.
  rewrite Z.mul_1_r in Hr. simpl in Hr.
  destruct (n <=? 0)%Z eqn:E; [apply Z.leb_le in E; lia|].
  unfold Qlt. cbn [Qnum Qden]. rewrite Z.mul_1_r. simpl.
  apply Z.sqrt_pos. unfold sqrt_scale.
  assert (0 < 10 ^ 15)%Z by reflexivity. nia.
Qed.

Lemma Qsqrt_nonpos (v : Q) : v <= 0 -> Qsqrt v = 0.
Proof.
  intros Hv. unfold Qsqrt.
  assert (Hr : Qred v <= 0) by now rewrite Qred_correct.
  destruct (Qred v) as [n d]. unfold Qle in Hr. cbn [Qnum Qden] in *.
  rewrite Z.mul_1_r in Hr. simpl in Hr.
  destruct (n <=? 0)%Z eqn:E; [reflexivity|apply Z.leb_gt in E; lia].
Qed.

(** Without a clamp: between the bounds the clamp changes nothing. *)
Lemma clip1_inside (x : Q) : -1 <= x -> x <= 1 -> clip1 x = x.
Proof.
  intros H1 H2. unfold clip1.
  destruct (Qlt_bool 1 x) eqn:E1; [apply Qlt_bool_iff in E1; lra|].
  destruct (Qlt_bool x (-1)) eqn:E2; [apply Qlt_bool_iff in E2; lra|].
  reflexivity.
Qed.

Lemma abs_bound (c d : Q) : 0 < d -> c * c <= d * d -> - d <= c /\ c <= d.
Proof.
  intros Hd H. split.
  - destruct (Qlt_le_dec c (- d)) as [Hlt|]; [|assumption]. exfalso.
    assert (0 < (- c - d) * (- c + d)) by (apply Qmult_lt_0_compat; lra).
    assert ((- c - d) * (- c + d) == c * c - d * d) by ring. lra.
  - destruct (Qlt_le_dec d c) as [Hlt|]; [|assumption]. exfalso.
    assert (0 < (c - d) * (c + d)) by (apply Qmult_lt_0_compat; lra).
    assert ((c - d) * (c + d) == c * c - d * d) by ring. lra.
Qed.

(** Pearson's coefficient, exactly, whenever the root is rational. *)
Lemma pearson_exact (obs : list (Q * Q)) (r d : Q) :
  pearson obs = Fin r ->
  0 <= d -> d * d == sqdev (map fst obs) * sqdev (map snd obs) ->
  is_pearson obs r /\ r == codev obs / d.
Proof.
  intros Hp Hd Hsq. unfold pearson in Hp.
  destruct obs as [|p obs]; [discriminate|].
  set (o := p :: obs) in *.
  rewrite (Qsqrt_eq _ (d * d)) in Hp by (symmetry; exact Hsq).
  pose proof (Qsqrt_square d Hd) as Hroot.
  destruct (Qeq_bool (Qsqrt (d * d)) 0) eqn:E; [discriminate|].
  apply Qeq_bool_neq in E. rewrite Hroot in E.
  assert (Hdpos : 0 < d) by (destruct (Qlt_le_dec 0 d); [assumption|exfalso; apply E; lra]).
  injection Hp as Hr.
  pose proof (codev_bound o) as Hcs. rewrite <- Hsq in Hcs.
  destruct (abs_bound _ _ Hdpos Hcs) as [Hlo Hhi].
  assert (Hq : codev o / Qsqrt (d * d) == codev o / d) by (now rewrite Hroot).
  assert (Hin1 : -1 <= codev o / d).
  { apply Qle_shift_div_l; [assumption|]. lra. }
  assert (Hin2 : codev o / d <= 1).
  { apply Qle_shift_div_r; [assumption|]. lra. }
  assert (Hrv : r == codev o / d).
  { rewrite <- Hr, Qred_correct.
    rewrite (clip1_eq _ _ Hq). now rewrite clip1_inside. }
  split; [|exact Hrv].
  unfold is_pearson. cbv zeta.
  pose proof (sqdev_nonneg (map fst o)) as Hx.
  pose proof (sqdev_nonneg (map snd o)) as Hy.
  assert (Hprod : 0 < sqdev (map fst o) * sqdev (map snd o)).
  { rewrite <- Hsq. apply Qmult_lt_0_compat; assumption. }
  assert (Hxp : 0 < sqdev (map fst o)).
  { destruct (Qlt_le_dec 0 (sqdev (map fst o))); [assumption|].
    assert (E0 : sqdev (map fst o) == 0) by lra. rewrite E0 in Hprod. lra. }
  assert (Hyp : 0 < sqdev (map snd o)).
  { destruct (Qlt_le_dec 0 (sqdev (map snd o))); [assumption|].
    assert (E0 : sqdev (map snd o) == 0) by lra. rewrite E0 in Hprod. lra. }
  split; [assumption|]. split; [assumption|]. split.
  - rewrite <- Hsq, Hrv. field. lra.
  - rewrite Hrv.
    setoid_replace (codev o / d * codev o) with (codev o * codev o * / d)
      by (field; lra).
    apply Qmult_le_0_compat; [apply Qsquare_nonneg|].
    apply Qlt_le_weak, Qinv_lt_0_compat. assumption.
Qed.

(** The coefficient is undefined exactly without observations or when a
    variance vanishes. *)
Lemma pearson_undefined (obs : list (Q * Q)) :
  pearson obs = NaN <->
  obs = [] \/ sqdev (map fst obs) == 0 \/ sqdev (map snd obs) == 0.
Proof.
  unfold pearson. destruct obs as [|p obs].
  - split; [now left|reflexivity].
  - set (o := p :: obs).
    pose proof (sqdev_nonneg (map fst o)) as Hx.
    pose proof (sqdev_nonneg (map snd o)) as Hy.
    split.
    + intros H. right.
      destruct (Qeq_bool (Qsqrt (sqdev (map fst o) * sqdev (map snd o))) 0) eqn:E;
        [|discriminate].
      apply Qeq_bool_eq in E.
      destruct (Qlt_le_dec 0 (sqdev (map fst o))) as [Hxp|]; [|left; lra].
      destruct (Qlt_le_dec 0 (sqdev (map snd o))) as [Hyp|]; [|right; lra].
      exfalso.
      pose proof (Qsqrt_pos _ (Qmult_lt_0_compat _ _ Hxp Hyp)). lra.
    + intros [H|H]; [discriminate|].
      assert (Hz : sqdev (map fst o) * sqdev (map snd o) == 0).
      { destruct H as [H|H]; rewrite H; ring. }
      rewrite (Qsqrt_eq _ 0 Hz). reflexivity.
Qed.

(** The root is rounded down by less than [10^-15]. *)
Lemma Qsqrt_bracket (v : Q) :
  0 < v ->
  Qsqrt v * Qsqrt v <= v /\
  v < (Qsqrt v + (1 # 1000000000000000)) * (Qsqrt v + (1 # 1000000000000000)).
Proof.
  intros Hv.
  assert (Hr : 0 < Qred v) by now rewrite Qred_correct.
  assert (Hq : v == Qred v) by (symmetry; apply Qred_correct).
  unfold Qsqrt. destruct (Qred v) as [n d]. cbn [Qnum Qden] in *.
  unfold Qlt in Hr. cbn [Qnum Qden] in Hr. rewrite Z.mul_1_r in Hr. simpl in Hr.
  destruct (n <=? 0)%Z eqn:E; [apply Z.leb_le in E; lia|]. clear E.
  assert (Hsc : sqrt_scale = 1000000000000000%Z) by reflexivity.
  assert (HN : (0 <= n * Z.pos d * (sqrt_scale * sqrt_scale))%Z) by (rewrite Hsc; nia).
  pose proof (Z.sqrt_spec _ HN) as [Hlo Hhi].
  pose proof (Z.sqrt_nonneg (n * Z.pos d * (sqrt_scale * sqrt_scale))) as Hs0.
  set (s := Z.sqrt (n * Z.pos d * (sqrt_scale * sqrt_scale))) in *.
  assert (HD : Z.pos (Z.to_pos (Z.pos d * sqrt_scale)) = (Z.pos d * sqrt_scale)%Z).
  { apply Z2Pos.id. rewrite Hsc. lia. }
  rewrite Hq. split.
  - unfold Qle, Qmult. cbn [Qnum Qden]. rewrite Pos2Z.inj_mul, HD.
    unfold Z.succ in Hhi.
    assert (s * s * Z.pos d <= n * Z.pos d * (sqrt_scale * sqrt_scale) * Z.pos d)%Z
      by (apply Z.mul_le_mono_nonneg_r; lia).
    lia.
  - assert (Hb : (s + 1 # Z.to_pos (Z.pos d * sqrt_scale)) <=
                 (s # Z.to_pos (Z.pos d * sqrt_scale)) + (1 # 1000000000000000)).
    { unfold Qle, Qplus. cbn [Qnum Qden]. rewrite Pos2Z.inj_mul, HD, Hsc.
      assert (0 < Z.pos d)%Z by lia. nia. }
    assert (Ha : (n # d) < (s + 1 # Z.to_pos (Z.pos d * sqrt_scale)) *
                           (s + 1 # Z.to_pos (Z.pos d * sqrt_scale))).
    { unfold Qlt, Qmult. cbn [Qnum Qden]. rewrite Pos2Z.inj_mul, HD.
      unfold Z.succ in Hhi.
      assert (n * Z.pos d * (sqrt_scale * sqrt_scale) * Z.pos d
              < (s + 1) * (s + 1) * Z.pos d)%Z
        by (apply Z.mul_lt_mono_pos_r; lia).
      lia. }
    assert (Hp : 0 < (s + 1 # Z.to_pos (Z.pos d * sqrt_scale))).
    { unfold Qlt. cbn [Qnum Qden]. lia. }
    eapply Qlt_le_trans; [exact Ha|].
    apply Qmult_le_compat_nonneg; split; try lra; exact Hb.
Qed.

(** Pearson's coefficient up to the rounding of the root. *)
Lemma pearson_rounded (obs : list (Q * Q)) (r : Q) :
  pearson obs = Fin r ->
  exists d,
    0 < d /\
    d * d <= sqdev (map fst obs) * sqdev (map snd obs) /\
    sqdev (map fst obs) * sqdev (map snd obs)
      < (d + (1 # 1000000000000000)) * (d + (1 # 1000000000000000)) /\
    r == clip1 (codev obs / d).
Proof.
  intros Hp. unfold pearson in Hp.
  destruct obs as [|p obs]; [discriminate|].
  set (o := p :: obs) in *.
  set (v := sqdev (map fst o) * sqdev (map snd o)) in *.
  destruct (Qeq_bool (Qsqrt v) 0) eqn:E; [discriminate|].
  apply Qeq_bool_neq in E.
  assert (Hv : 0 < v).
  { destruct (Qlt_le_dec 0 v) as [H|H]; [exact H|].
    exfalso. apply E. now rewrite (Qsqrt_nonpos v H). }
  exists (Qsqrt v). split; [now apply Qsqrt_pos|].
  destruct (Qsqrt_bracket v Hv) as [H1 H2].
  split; [exact H1|]. split; [exact H2|].
  injection Hp as <-. apply Qred_correct.
Qed.

End ListwiseFacts.

(** C1, as the code has it: every entry of the correlation matrix drawn
    and listed by the pipeline is Pearson's coefficient of two columns of
    the returns table; the returns table holds only the dates on which no
    ticker's return is missing, so the observations of a pair are the
    returns of the two on those dates (where both are finite), not on
    all the dates on which the two have a return.  The coefficient is
    exact whenever the root of the product of the two sums of squares is
    rational, in general it is the quotient by that root rounded down by
    less than [10^-15] and clamped to [-1, 1], and it is undefined exactly
    when there is no observation or a variance is zero. *)
Theorem correlation_over_complete_dates :
  (forall (prices : Frame Date) (i j : nat),
      DF.wf prices -> columns prices <> [] ->
      DF.cell_at (corr_of prices) i j = Corr.pearson (complete_obs prices i j)) /\
  (forall (obs : list (Q * Q)) (r d : Q),
      Corr.pearson obs = Fin r ->
      0 <= d -> d * d == Corr.sqdev (map fst obs) * Corr.sqdev (map snd obs) ->
      is_pearson obs r /\ r == Corr.codev obs / d) /\
  (forall obs : list (Q * Q),
      Corr.pearson obs = NaN <->
      obs = [] \/ Corr.sqdev (map fst obs) == 0 \/ Corr.sqdev (map snd obs) == 0) /\
  (forall args env m title,
      In (PlotHeatmap m title) (trace (main args env)) ->
      exists dl,
        yfinance env = Some dl /\
        m = corr_of (cleaned (acquired dl args (resolved_tickers args env))) /\
        In (PrintSeries (Pairs.top_pairs (tie_rank env) m)) (trace (main args env))) /\
  (let prices := mkFrame [0; 1; 2; 3]%nat
                         [("A", [Fin 1; Fin 2; Fin 6; Fin 3]);
                          ("B", [Fin 1; Fin 3; Fin 6; Fin 12]);
                          ("C", [Fin 0; Fin 5; Fin 5; Fin 10])] in
   returns_of prices =
     mkFrame [1; 2; 3]%nat
             [("A", [Fin 1; Fin 2; Fin (- 1 # 2)]);
              ("B", [Fin 2; Fin 1; Fin 1]);
              ("C", [PInf; Fin 0; Fin 1])] /\
   complete_dates prices = [1; 2; 3]%nat /\
   complete_obs prices 0 1 = [(1, 2); (2, 1); (- 1 # 2, 1)] /\
   complete_obs prices 0 2 = [(2, 0); (- 1 # 2, 1)]) /\
  (forall (obs : list (Q * Q)) (r : Q),
      Corr.pearson obs = Fin r ->
      exists d,
        0 < d /\
        d * d <= Corr.sqdev (map fst obs) * Corr.sqdev (map snd obs) /\
        Corr.sqdev (map fst obs) * Corr.sqdev (map snd obs)
          < (d + (1 # 1000000000000000)) * (d + (1 # 1000000000000000)) /\
        r == clip1 (Corr.codev obs / d)).
Proof.
  split; [|split; [|split; [|split; [|split]]]];
    [| | | | |apply ListwiseFacts.pearson_rounded].
  - intros prices i j Hwf Hne. unfold corr_of.
    rewrite PearsonFacts.corr_cell_at, PearsonFacts.entry_pearson.
    now rewrite ListwiseFacts.returns_obs.
  - apply ListwiseFacts.pearson_exact.
  - apply ListwiseFacts.pearson_undefined.
  - intros args env m title H.
    pose proof (TraceFacts.main_trace_In args env _ H) as Hin. cbv zeta in Hin.
    destruct Hin as [Hin|[Hin|(Hne & [Hin|(Ho & [Hin|Hin])])]];
      try discriminate Hin.
    + apply TraceFacts.resolve_trace_In in Hin. discriminate.
    + destruct (yfinance env) as [dl|] eqn:Hyf; [|contradiction].
      destruct Hin as [[_ Hin]|(He & [Hin|[Hin|[[_ Hin]|(Hc & [Hin|Hin])]]])];
        try discriminate Hin.
      * apply TraceFacts.export_trace_In in Hin as [_ [Hin|Hin]]; discriminate.
      * apply TraceFacts.clean_trace_In in Hin. discriminate.
      * apply TraceFacts.normalized_trace_In in Hin. contradiction.
      * exists dl. split; [reflexivity|].
        pose proof (TraceFacts.corr_trace_In _ _ _ _ _ Hin) as Hm. cbv beta iota in Hm.
        subst m. split; [reflexivity|].
        assert (Hod : outdir args <> "").
        { intros E. rewrite E in Ho. discriminate. }
        apply (proj2 (main_full_path args env dl _ Hne Hod Hyf He) Hc).
        eapply TraceFacts.corr_trace_heatmap. exact Hin.
  - cbv zeta. repeat split; reflexivity.
Qed.

Lemma correlation_over_complete_dates_witness :
  let prices := mkFrame [0; 1; 2; 3]%nat
                        [("A", [Fin 1; Fin 1; Fin 2; Fin 6]);
                         ("B", [Fin 1; Fin 1; Fin 3; Fin 6]);
                         ("C", [NaN; Fin 1; Fin 2; Fin 4])] in
  complete_obs prices 0 1 = [(1, 2); (2, 1)] /\
  DF.cell_at (corr_of prices) 0 1 = Fin (- 1) /\
  is_pearson (complete_obs prices 0 1) (- 1).
Proof.
  cbv zeta.
  destruct correlation_over_complete_dates as (H1 & H2 & _).
  split; [reflexivity|]. split.
  - rewrite H1; [reflexivity|repeat constructor|discriminate].
  - apply (H2 _ (- 1) (1 # 2)); [reflexivity|discriminate|reflexivity].
Defined.

(** A ticker listed late takes dates away from every pair.  A and B have
    a return on three dates and correlate at 1/2 over them; C has its
    first return on the second of these, the returns table keeps the last
    two dates only, and the matrix of the run shows -1 for A and B. *)
Lemma pairwise_correlation_counterexample :
  let cols := [("A", [Fin 1; Fin 1; Fin 2; Fin 6]);
               ("B", [Fin 1; Fin 1; Fin 3; Fin 6]);
               ("C", [NaN; Fin 1; Fin 2; Fin 4])] in
  let prices := mkFrame [0; 1; 2; 3]%nat cols in
  let args := mkArgs (Some "a,b,c") "2021-01-01" None "outputs" false true in
  let env := mkEnv (Some (fun _ _ _ => MultiCols [0; 1; 2; 3]%nat [("Adj Close", cols)]))
                   "" "20240102T030405Z" Pairs.stacking_order in
  pairwise_obs prices 0 1 = [(0, 0); (1, 2); (2, 1)] /\
  Corr.pearson (pairwise_obs prices 0 1) = Fin (1 # 2) /\
  complete_obs prices 0 1 = [(1, 2); (2, 1)] /\
  DF.cell_at (corr_of prices) 0 1 = Fin (- 1) /\
  In (PlotHeatmap (corr_of prices) "Daily Returns Correlation Heatmap")
     (trace (main args env)) /\
  ~ (forall (prices : Frame Date) (i j : nat),
        DF.wf prices -> columns prices <> [] ->
        DF.cell_at (corr_of prices) i j = Corr.pearson (pairwise_obs prices i j)).
Proof.
  cbv zeta. split; [reflexivity|]. split; [reflexivity|]. split; [reflexivity|].
  split; [reflexivity|]. split.
  - vm_compute. tauto.
  - intros H.
    specialize (H (mkFrame [0; 1; 2; 3]%nat
                     [("A", [Fin 1; Fin 1; Fin 2; Fin 6]);
                      ("B", [Fin 1; Fin 1; Fin 3; Fin 6]);
                      ("C", [NaN; Fin 1; Fin 2; Fin 4])]) 0%nat 1%nat).
    assert (E : Fin (- 1) = Fin (1 # 2)).
    { apply H; [repeat constructor|discriminate]. }
    discriminate E.
Qed.

(** C5, as the code has it: when CSV export is requested, the table
    written to [<outdir>/prices_<timestamp>_<tickers>_adj_close.csv] is
    the price table as the acquisition step returned it, before the
    cleaner runs, so that columns without any data are still in it; the
    date column is labelled "Date".  The file is written whenever the run
    gets that far: tickers resolved, an output directory that can be
    created, a provider and a table that is not empty. *)
Theorem csv_export_writes_fetched_prices (args : Args) (env : Env) :
  let tks := resolved_tickers args env in
  (forall path label table,
      In (WriteCsv path label table) (trace (main args env)) ->
      save_csv args = true /\ label = "Date" /\
      path = path_join (outdir args)
               ("prices_" ++ utcnow env ++ "_"
                ++ (join "_" (firstn 5 tks)
                    ++ (if Nat.ltb 5 (length tks) then "_more" else ""))
                ++ "_adj_close.csv") /\
      tks <> [] /\ outdir args <> "" /\
      exists dl, yfinance env = Some dl /\ table = acquired dl args tks /\
                 DF.empty table = false) /\
  (forall dl,
      save_csv args = true -> tks <> [] -> outdir args <> "" ->
      yfinance env = Some dl ->
      DF.empty (acquired dl args tks) = false ->
      In (WriteCsv (csv_path args (utcnow env) tks) "Date" (acquired dl args tks))
         (trace (main args env))).
Proof.
  cbv zeta. split.
  - intros path label table H.
    pose proof (TraceFacts.main_trace_In args env _ H) as Hin. cbv zeta in Hin.
    destruct Hin as [Hin|[Hin|(Hne & [Hin|(Ho & [Hin|Hin])])]];
      try discriminate Hin.
    + apply TraceFacts.resolve_trace_In in Hin. discriminate.
    + destruct (yfinance env) as [dl|] eqn:Hyf; [|contradiction].
      destruct Hin as [[_ Hin]|(He & [Hin|[Hin|[[_ Hin]|(Hc & [Hin|Hin])]]])];
        try discriminate Hin.
      * apply TraceFacts.export_trace_In in Hin as [Hs [Hin|Hin]];
          [|discriminate].
        injection Hin as -> -> ->.
        split; [assumption|]. split; [reflexivity|]. split; [reflexivity|].
        split; [assumption|]. split.
        -- intros E. rewrite E in Ho. discriminate.
        -- exists dl. auto.
      * apply TraceFacts.clean_trace_In in Hin. discriminate.
      * apply TraceFacts.normalized_trace_In in Hin. contradiction.
      * apply TraceFacts.corr_trace_In in Hin. contradiction.
  - intros dl Hs Hne Ho Hyf He.
    apply (proj1 (main_full_path args env dl _ Hne Ho Hyf He)).
    unfold export_csv. rewrite Hs. now left.
Qed.

Lemma csv_export_writes_fetched_prices_witness :
  let args := mkArgs (Some "a,b") "2021-01-01" None "outputs" true false in
  let env := mkEnv (Some (fun _ _ _ =>
                            MultiCols [0; 1]%nat
                              [("Adj Close",
                                [("A", [NaN; NaN]); ("B", [Fin 1; Fin 2])])]))
                   "" "20240102T030405Z" Pairs.stacking_order in
  In (WriteCsv "outputs/prices_20240102T030405Z_A_B_adj_close.csv" "Date"
               (mkFrame [0; 1]%nat [("A", [NaN; NaN]); ("B", [Fin 1; Fin 2])]))
     (trace (main args env)).
Proof.
  cbv zeta.
  match goal with
  | |- In _ (trace (main ?a ?e)) =>
      exact (proj2 (csv_export_writes_fetched_prices a e)
                   (fun _ _ _ =>
                      MultiCols [0; 1]%nat
                        [("Adj Close", [("A", [NaN; NaN]); ("B", [Fin 1; Fin 2])])])
                   eq_refl ltac:(discriminate) ltac:(discriminate) eq_refl eq_refl)
  end.
Defined.

(** With export requested and one ticker without data, the file holds the
    column that the cleaner then drops: the table written is not the
    column-reduced one. *)
Lemma csv_export_counterexample :
  let args := mkArgs (Some "a,b") "2021-01-01" None "outputs" true false in
  let env := mkEnv (Some (fun _ _ _ =>
                            MultiCols [0; 1]%nat
                              [("Adj Close",
                                [("A", [NaN; NaN]); ("B", [Fin 1; Fin 2])])]))
                   "" "20240102T030405Z" Pairs.stacking_order in
  let raw := mkFrame [0; 1]%nat [("A", [NaN; NaN]); ("B", [Fin 1; Fin 2])] in
  In (WriteCsv "outputs/prices_20240102T030405Z_A_B_adj_close.csv" "Date" raw)
     (trace (main args env)) /\
  In (PrintList "Dropping columns with no data:" ["A"]) (trace (main args env)) /\
  cleaned raw = mkFrame [0; 1]%nat [("B", [Fin 1; Fin 2])] /\
  ~ (forall args env path label table,
        In (WriteCsv path label table) (trace (main args env)) ->
        forall c, In c (columns table) -> DF.all_missing c = false).
Proof.
  cbv zeta. split; [|split; [|split]].
  - vm_compute. auto.
  - vm_compute. auto 6.
  - reflexivity.
  - intros H.
    specialize (H (mkArgs (Some "a,b") "2021-01-01" None "outputs" true false)
                  (mkEnv (Some (fun _ _ _ =>
                            MultiCols [0; 1]%nat
                              [("Adj Close",
                                [("A", [NaN; NaN]); ("B", [Fin 1; Fin 2])])]))
                         "" "20240102T030405Z" Pairs.stacking_order)
                  "outputs/prices_20240102T030405Z_A_B_adj_close.csv" "Date"
                  (mkFrame [0; 1]%nat [("A", [NaN; NaN]); ("B", [Fin 1; Fin 2])])).
    assert (Hin : In (WriteCsv "outputs/prices_20240102T030405Z_A_B_adj_close.csv"
                        "Date"
                        (mkFrame [0; 1]%nat [("A", [NaN; NaN]); ("B", [Fin 1; Fin 2])]))
                     (trace (main (mkArgs (Some "a,b") "2021-01-01" None "outputs" true false)
                       (mkEnv (Some (fun _ _ _ =>
                            MultiCols [0; 1]%nat
                              [("Adj Close",
                                [("A", [NaN; NaN]); ("B", [Fin 1; Fin 2])])]))
                         "" "20240102T030405Z" Pairs.stacking_order)))).
    { vm_compute. auto. }
    specialize (H Hin ("A", [NaN; NaN]) (or_introl eq_refl)).
    discriminate H.
Qed.





(* ================================================================== *)
(** * Further properties of the resolver                                *)
(* ================================================================== *)

Section ResolverMore.
Import TextFacts.

Lemma split_comma_concat (a b : string) :
  split_comma (a ++ "," ++ b) = split_comma a ++ split_comma b.
Proof.
  induction a as [|c a IH]; [reflexivity|].
  cbn [append split_comma]. simpl in IH. rewrite IH.
  destruct (is_comma c); [reflexivity|].
  destruct (split_comma a) as [|h t] eqn:E; [|reflexivity].
  now apply split_comma_nonempty in E.
Qed.

Lemma split_comma_upper (s : string) :
  split_comma (upper s) = map upper (split_comma s).
Proof.
  induction s as [|c s IH]; [reflexivity|].
  cbn [upper split_comma]. rewrite is_comma_upper, IH.
  destruct (is_comma c); [reflexivity|].
  destruct (split_comma s) as [|h t]; reflexivity.
Qed.

Lemma parse_tickers_app (l1 l2 : list string) :
  map (fun t => upper (strip t)) (filter (fun t => truthy (strip t)) (l1 ++ l2)) =
  map (fun t => upper (strip t)) (filter (fun t => truthy (strip t)) l1) ++
  map (fun t => upper (strip t)) (filter (fun t => truthy (strip t)) l2).
Proof. now rewrite filter_app, map_app. Qed.

End ResolverMore.

(** X1: tickers given in two comma-separated pieces resolve to the
    tickers of the first piece followed by those of the second: nothing is
    reordered, merged or deduplicated across a comma. *)
Theorem parse_tickers_concat (a b : string) :
  parse_tickers (a ++ "," ++ b) = parse_tickers a ++ parse_tickers b.
Proof.
  rewrite !parse_tickers_comprehension, split_comma_concat.
  apply parse_tickers_app.
Qed.

(** X2: the resolver does not depend on the case of its input:
    upper-casing the whole string first gives the same tickers. *)
Theorem parse_tickers_case_insensitive (s : string) :
  parse_tickers (upper s) = parse_tickers s.
Proof.
  rewrite !parse_tickers_comprehension, split_comma_upper.
  induction (split_comma s) as [|t l IH]; [reflexivity|].
  cbn [map filter].
  rewrite TextFacts.strip_upper, TextFacts.truthy_upper.
  destruct (truthy (strip t)); cbn [map]; rewrite IH; [|reflexivity].
  now rewrite TextFacts.strip_upper, TextFacts.upper_idem.
Qed.

(** X3: a run stops for lack of tickers exactly when a non-blank input
    held no ticker: a non-empty [-t] value, or else a non-blank answer at
    the prompt, made only of blanks and commas.  A blank answer never does
    (it selects the defaults), and a non-empty [-t] value is never
    replaced by the prompt or the defaults. *)
Theorem no_tickers_iff (args : Args) (env : Env) :
  resolved_tickers args env = [] <->
  (exists s, tickers args = Some s /\ truthy s = true /\ parse_tickers s = []) \/
  ((tickers args = None \/ tickers args = Some "") /\
   truthy (strip (stdin_line env)) = true /\
   parse_tickers (strip (stdin_line env)) = []).
Proof.
  unfold resolved_tickers, resolve_tickers, prompt_tickers.
  destruct (tickers args) as [s|] eqn:Ht.
  - destruct (truthy s) eqn:Hs.
    + cbn [ret snd]. split.
      * intros H. left. now exists s.
      * intros [(s' & [= <-] & _ & H)|([H|[= H]] & _)]; try discriminate; auto.
        subst s. discriminate.
    + assert (s = "") by (destruct s; [reflexivity|discriminate]). subst s.
      cbn [bind emit ret snd fst].
      destruct (truthy (strip (stdin_line env))) eqn:Hu; cbn [snd]; split.
      * intros H. right. auto.
      * intros [(s' & [= <-] & Hs' & _)|(_ & _ & H)]; [discriminate|assumption].
      * discriminate.
      * intros [(s' & [= <-] & Hs' & _)|(_ & H & _)]; discriminate.
  - cbn [bind emit ret snd fst].
    destruct (truthy (strip (stdin_line env))) eqn:Hu; cbn [snd]; split.
    + intros H. right. auto.
    + intros [(s' & [=] & _)|(_ & _ & H)]. assumption.
    + discriminate.
    + intros [(s' & [=] & _)|(_ & H & _)]. discriminate.
Qed.

Lemma no_tickers_iff_witness :
  resolved_tickers (mkArgs (Some " , ,") "2021-01-01" None "outputs" true false)
                   (mkEnv None "AAPL" "20240102T030405Z" Pairs.stacking_order) = [] /\
  resolved_tickers (mkArgs None "2021-01-01" None "outputs" true false)
                   (mkEnv None " ,, " "20240102T030405Z" Pairs.stacking_order) = [].
Proof.
  split.
  - apply (proj2 (no_tickers_iff _ _)). left. exists " , ,". repeat split.
  - apply (proj2 (no_tickers_iff _ _)). right. repeat split. now left.
Defined.


(* ================================================================== *)
(** * Further properties of the acquisition                             *)
(* ================================================================== *)

Module AcquireFacts.
Import DFFacts.

Lemma take_rows_names {I} (ks : list nat) (df : Frame I) :
  DF.names (DF.take_rows ks df) = DF.names df.
Proof.
  unfold DF.names, DF.take_rows. cbn [columns]. rewrite map_map. reflexivity.
Qed.

Lemma take_rows_nrows {I} (ks : list nat) (df : Frame I) :
  Forall (fun t => t < DF.nrows df)%nat ks ->
  DF.nrows (DF.take_rows ks df) = length ks.
Proof. intros H. unfold DF.nrows, DF.take_rows. cbn [index]. now apply pick_length. Qed.

Lemma take_rows_wf {I} (ks : list nat) (df : Frame I) :
  DF.wf df -> Forall (fun t => t < DF.nrows df)%nat ks ->
  DF.wf (DF.take_rows ks df).
Proof.
  intros Hwf Hks. unfold DF.wf. rewrite take_rows_nrows by assumption.
  unfold DF.take_rows. cbn [columns]. apply Forall_map, Forall_forall.
  intros c Hc. cbn [snd]. apply pick_length.
  unfold DF.wf in Hwf. rewrite Forall_forall in Hwf. now rewrite (Hwf c Hc).
Qed.

(** In a well-formed table, row [t] of the selection is row [ks[t]] of
    the table. *)
Lemma take_rows_at_row {I} (ks : list nat) (df : Frame I) (c : string * list cell)
      (t : nat) :
  DF.wf df -> Forall (fun t => t < DF.nrows df)%nat ks -> In c (columns df) ->
  (t < length ks)%nat ->
  DF.at_row t (fst c, DF.pick ks (snd c)) = DF.at_row (nth t ks 0%nat) c.
Proof.
  intros Hwf Hks Hc Ht. unfold DF.at_row. cbn [snd].
  unfold DF.wf in Hwf. rewrite Forall_forall in Hwf.
  rewrite (pick_nth NaN) by (now rewrite (Hwf c Hc)).
  rewrite (nth_indep _ NaN (nth 0%nat (snd c) NaN)) by (now rewrite length_map).
  now rewrite (map_nth (fun t => nth t (snd c) NaN) ks 0%nat t).
Qed.

Lemma dropna_all_rows_have_value (df : Frame Date) (t : nat) :
  DF.wf df -> (t < DF.nrows (DF.dropna_all df))%nat ->
  DF.row_has_value (DF.dropna_all df) t = true.
Proof.
  intros Hwf Ht. unfold DF.dropna_all in *.
  set (ks := DF.rows_where (DF.row_has_value df) df) in *.
  assert (Hks : Forall (fun t => t < DF.nrows df)%nat ks)
    by (unfold ks; apply rows_where_bound).
  rewrite take_rows_nrows in Ht by assumption.
  assert (Hin : In (nth t ks 0%nat) ks) by now apply nth_In.
  unfold ks in Hin. apply rows_where_In in Hin as [_ Hv]. fold ks in Hv.
  unfold DF.row_has_value in *. apply existsb_exists in Hv as (c & Hc & Hv).
  apply existsb_exists. exists (fst c, DF.pick ks (snd c)). split.
  - unfold DF.take_rows. cbn [columns]. apply in_map_iff. now exists c.
  - rewrite (take_rows_at_row ks df c t Hwf Hks Hc Ht). exact Hv.
Qed.

Lemma filter_seq_all (p : nat -> bool) (n : nat) :
  (forall t, (t < n)%nat -> p t = true) -> filter p (seq 0 n) = seq 0 n.
Proof.
  intros H. apply filter_all, filter_all_true.
  intros t Ht. apply in_seq in Ht. apply H. lia.
Qed.

Lemma pick_all {A} (l : list A) : DF.pick (seq 0 (length l)) l = l.
Proof.
  destruct l as [|a l0] eqn:E; [reflexivity|]. rewrite <- E.
  rewrite (pick_nth a) by (apply Forall_forall; intros t Ht; apply in_seq in Ht; lia).
  apply nth_ext with (d := a) (d' := a).
  - now rewrite length_map, length_seq.
  - intros n Hn. rewrite length_map, length_seq in Hn.
    rewrite (nth_indep _ a (nth 0%nat l a)) by (now rewrite length_map, length_seq).
    rewrite (map_nth (fun t => nth t l a) (seq 0 (length l)) 0%nat n).
    now rewrite seq_nth.
Qed.

Lemma take_rows_all (df : Frame Date) :
  DF.wf df -> DF.take_rows (seq 0 (DF.nrows df)) df = df.
Proof.
  intros Hwf. unfold DF.take_rows, DF.nrows. rewrite pick_all.
  destruct df as [idx cols]. cbn [index columns] in *. f_equal.
  unfold DF.wf, DF.nrows in Hwf. cbn [index columns] in Hwf.
  induction Hwf as [|c cs Hc _ IH]; [reflexivity|].
  cbn [map]. rewrite IH. f_equal. rewrite <- Hc, pick_all. now destruct c.
Qed.

Lemma select_prices_wf (tks : list string) (raw : RawFrame) (adj : Frame Date) :
  raw_wf raw -> select_prices tks raw = Some adj -> DF.wf adj.
Proof.
  unfold select_prices, raw_wf, lookup, DF.wf, DF.nrows.
  destruct raw as [idx groups|idx fields]; intros Hwf H.
  - rewrite Forall_forall in Hwf.
    destruct (find _ groups) as [g|] eqn:E1.
    + injection H as <-. cbn [index columns].
      apply find_some in E1 as [Hin _]. now apply Hwf.
    + clear E1. destruct (find (fun p => (fst p =? "Close")%string) groups) as [g|] eqn:E2.
      * injection H as <-. cbn [index columns].
        apply find_some in E2 as [Hin _]. now apply Hwf.
      * injection H as <-. cbn [index columns].
        unfold flatten_groups. apply Forall_forall. intros c Hc.
        apply in_flat_map in Hc as (g & Hg & Hc).
        apply in_map_iff in Hc as (c0 & <- & Hc0). cbn [snd].
        specialize (Hwf g Hg). rewrite Forall_forall in Hwf. now apply Hwf.
  - rewrite Forall_forall in Hwf.
    destruct (find _ fields) as [f|] eqn:E1.
    + injection H as <-. cbn [index columns].
      apply find_some in E1 as [Hin _].
      constructor; [cbn [snd]; now apply Hwf|constructor].
    + clear E1. destruct (find (fun p => (fst p =? "Close")%string) fields) as [f|] eqn:E2.
      * destruct tks as [|t tks]; [discriminate|].
        injection H as <-. cbn [index columns].
        apply find_some in E2 as [Hin _].
        constructor; [cbn [snd]; now apply Hwf|constructor].
      * injection H as <-. cbn [index columns]. now apply Forall_forall.
Qed.

Lemma upper_names_wf (df : Frame Date) : DF.wf df -> DF.wf (upper_names df).
Proof.
  unfold DF.wf, upper_names, DF.nrows. cbn [index columns]. intros H.
  apply Forall_map. eapply Forall_impl; [|exact H]. now intros c Hc.
Qed.

End AcquireFacts.

(** X4: what [get_price_data] returns has only upper-cased column names
    and, for a download with one cell per date in every column, no date
    on which every ticker is missing; its dates and columns are
    consistent. *)
Theorem get_price_data_invariants
        (dl : list string -> string -> option string -> RawFrame)
        (tks : list string) (st : string) (en : option string)
        (tr : list event) (prices : Frame Date) :
  get_price_data (Some dl) tks st en = (tr, Go prices) ->
  Forall (fun n => no_lower n = true) (DF.names prices) /\
  (raw_wf (dl tks st en) ->
   DF.wf prices /\
   forall t, (t < DF.nrows prices)%nat -> DF.row_has_value prices t = true).
Proof.
  unfold get_price_data.
  destruct (select_prices tks (dl tks st en)) as [adj|] eqn:E; [|discriminate].
  intros [= <- <-]. split.
  - unfold DF.dropna_all. rewrite AcquireFacts.take_rows_names.
    unfold DF.names, upper_names. cbn [columns]. rewrite map_map.
    apply Forall_map, Forall_forall. intros c _. apply TextFacts.no_lower_upper.
  - intros Hraw.
    assert (Hwf : DF.wf (upper_names adj)).
    { apply AcquireFacts.upper_names_wf. eapply AcquireFacts.select_prices_wf; eassumption. }
    split.
    + apply AcquireFacts.take_rows_wf; [assumption|apply DFFacts.rows_where_bound].
    + intros t. now apply AcquireFacts.dropna_all_rows_have_value.
Qed.

Lemma get_price_data_invariants_witness :
  let dl := fun (_ : list string) (_ : string) (_ : option string) =>
              MultiCols [0; 1; 2]%nat
                [("Close", [("aapl", [Fin 1; NaN; Fin 3]); ("msft", [Fin 2; NaN; NaN])]);
                 ("Adj Close", [("aapl", [Fin 1; NaN; Fin 2]); ("msft", [Fin 2; NaN; NaN])])] in
  let prices := mkFrame [0; 2]%nat [("AAPL", [Fin 1; Fin 2]); ("MSFT", [Fin 2; NaN])] in
  get_price_data (Some dl) ["AAPL"; "MSFT"] "2021-01-01" None = ([], Go prices) /\
  Forall (fun n => no_lower n = true) (DF.names prices) /\
  DF.wf prices /\ DF.row_has_value prices 1 = true.
Proof.
  cbv zeta.
  destruct (get_price_data_invariants
              (fun _ _ _ =>
                 MultiCols [0; 1; 2]%nat
                   [("Close", [("aapl", [Fin 1; NaN; Fin 3]); ("msft", [Fin 2; NaN; NaN])]);
                    ("Adj Close", [("aapl", [Fin 1; NaN; Fin 2]); ("msft", [Fin 2; NaN; NaN])])])
              ["AAPL"; "MSFT"] "2021-01-01" None [] _ eq_refl) as [H1 H2].
  split; [reflexivity|]. split; [exact H1|].
  destruct H2 as [H2 H3]; [repeat constructor|].
  split; [exact H2|]. apply H3. vm_compute. lia.
Defined.


(** X6: on a single-level download the price column is named
    "ADJ CLOSE" when the adjusted close is there, whatever the ticker, and
    after the (upper-cased) first ticker only when the plain close is
    used. *)
Theorem flat_download_column_name
        (dl : list string -> string -> option string -> RawFrame)
        (t : string) (tks : list string) (st : string) (en : option string)
        (idx : list Date) (fields : list (string * list cell)) :
  dl (t :: tks) st en = FlatCols idx fields ->
  (forall col, lookup "Adj Close" fields = Some col ->
     exists prices, get_price_data (Some dl) (t :: tks) st en = ([], Go prices) /\
                    DF.names prices = ["ADJ CLOSE"]) /\
  (forall col, lookup "Adj Close" fields = None ->
               lookup "Close" fields = Some col ->
     exists prices, get_price_data (Some dl) (t :: tks) st en = ([], Go prices) /\
                    DF.names prices = [upper t]).
Proof.
  intros Hraw. unfold get_price_data, select_prices. rewrite Hraw. split.
  - intros col ->. eexists. split; [reflexivity|].
    unfold DF.dropna_all. now rewrite AcquireFacts.take_rows_names.
  - intros col -> ->. eexists. split; [reflexivity|].
    unfold DF.dropna_all. now rewrite AcquireFacts.take_rows_names.
Qed.

Lemma flat_download_column_name_witness :
  let dl := fun (_ : list string) (_ : string) (_ : option string) =>
              FlatCols [0; 1]%nat
                [("Open", [Fin 1; Fin 2]); ("Adj Close", [Fin 3; Fin 4]);
                 ("Close", [Fin 5; Fin 6])] in
  exists prices,
    get_price_data (Some dl) ["aapl"] "2021-01-01" None = ([], Go prices) /\
    DF.names prices = ["ADJ CLOSE"].
Proof.
  cbv zeta.
  exact (proj1 (flat_download_column_name
                  (fun _ _ _ =>
                     FlatCols [0; 1]%nat
                       [("Open", [Fin 1; Fin 2]); ("Adj Close", [Fin 3; Fin 4]);
                        ("Close", [Fin 5; Fin 6])])
                  "aapl" [] "2021-01-01" None _ _ eq_refl)
               [Fin 3; Fin 4] eq_refl).
Defined.


(* ================================================================== *)
(** * Further properties of returns and normalization                   *)
(* ================================================================== *)

Module ScaleFacts.
Import DFFacts SqrtFacts.

Local Open Scope Q_scope.

Lemma Qeq_bool_iff_eq (a b c d : Q) :
  (a == b <-> c == d) -> Qeq_bool a b = Qeq_bool c d.
Proof.
  intros H. destruct (Qeq_bool a b) eqn:E1, (Qeq_bool c d) eqn:E2; try reflexivity.
  - apply Qeq_bool_eq, H in E1. apply Qeq_bool_neq in E2. contradiction.
  - apply Qeq_bool_eq, H in E2. apply Qeq_bool_neq in E1. contradiction.
Qed.

Lemma Qle_bool_iff_eq (a b c d : Q) :
  (a <= b <-> c <= d) -> Qle_bool a b = Qle_bool c d.
Proof.
  intros H. destruct (Qle_bool a b) eqn:E1, (Qle_bool c d) eqn:E2; try reflexivity.
  - apply Qle_bool_iff, H, Qle_bool_iff in E1. congruence.
  - apply Qle_bool_iff, H, Qle_bool_iff in E2. congruence.
Qed.

Lemma scaled_zero (k x : Q) : 0 < k -> (Qred (k * x) == 0 <-> x == 0).
Proof.
  intros Hk. rewrite Qred_correct. split; intros H.
  - destruct (Qmult_integral _ _ H) as [E|E]; [|assumption].
    rewrite E in Hk. now apply Qlt_irrefl in Hk.
  - rewrite H. ring.
Qed.

Lemma scaled_nonneg (k x : Q) : 0 < k -> (0 <= Qred (k * x) <-> 0 <= x).
Proof.
  intros Hk. rewrite Qred_correct. split; intros H.
  - apply (Qmult_le_l 0 x k Hk). now rewrite Qmult_0_r.
  - apply Qmult_le_0_compat; [now apply Qlt_le_weak|assumption].
Qed.

Lemma scaled_nonpos (k x : Q) : 0 < k -> (Qred (k * x) <= 0 <-> x <= 0).
Proof.
  intros Hk. rewrite Qred_correct. split; intros H.
  - apply (Qmult_le_l x 0 k Hk). now rewrite Qmult_0_r.
  - rewrite <- (Qmult_0_r k). now apply Qmult_le_l.
Qed.

(** A quotient of two prices does not see a common positive factor. *)
Lemma div_scale (k : Q) (a b : cell) :
  0 < k -> Num.div (scale k a) (scale k b) = Num.div a b.
Proof.
  intros Hk.
  destruct a as [x| | |], b as [y| | |]; try reflexivity; cbn [scale Num.div fin].
  - rewrite (Qeq_bool_iff_eq _ 0 y 0 (scaled_zero k y Hk)).
    rewrite (Qeq_bool_iff_eq _ 0 x 0 (scaled_zero k x Hk)).
    unfold Qlt_bool. rewrite (Qle_bool_iff_eq _ 0 x 0 (scaled_nonpos k x Hk)).
    destruct (Qeq_bool y 0) eqn:Ey; [reflexivity|].
    apply Qeq_bool_neq in Ey.
    apply fin_eq. rewrite !Qred_correct. field. split; [assumption|].
    intros E. rewrite E in Hk. now apply Qlt_irrefl in Hk.
  - now rewrite (Qle_bool_iff_eq 0 _ 0 y (scaled_nonneg k y Hk)).
  - now rewrite (Qle_bool_iff_eq 0 _ 0 y (scaled_nonneg k y Hk)).
Qed.

Lemma notna_scale (k : Q) (c : cell) : notna (scale k c) = notna c.
Proof. now destruct c. Qed.

Lemma shift1_map (k : Q) (l : list cell) :
  DF.shift1 (map (scale k) l) = map (scale k) (DF.shift1 l).
Proof.
  unfold DF.shift1. rewrite length_map.
  change (NaN :: map (scale k) l) with (map (scale k) (NaN :: l)).
  apply firstn_map.
Qed.

Lemma combine_map {A B} (f : A -> B) (l l' : list A) :
  combine (map f l) (map f l') = map (fun p => (f (fst p), f (snd p))) (combine l l').
Proof.
  revert l'. induction l as [|a l IH]; intros [|a' l']; simpl; try reflexivity.
  now rewrite IH.
Qed.

Lemma pct_change_col_scale (k : Q) (l : list cell) :
  0 < k -> DF.pct_change_col (map (scale k) l) = DF.pct_change_col l.
Proof.
  intros Hk. unfold DF.pct_change_col.
  rewrite shift1_map, combine_map, map_map. apply map_ext.
  intros [a b]. cbn [fst snd]. now rewrite div_scale.
Qed.

Lemma first_valid_scale (k : Q) (l : list cell) :
  DF.first_valid (map (scale k) l) = option_map (scale k) (DF.first_valid l).
Proof.
  unfold DF.first_valid. induction l as [|a l IH]; [reflexivity|].
  cbn [map find]. rewrite notna_scale. now destruct (notna a).
Qed.

Lemma first_vals_scale (k : Q) (cs : list (string * list cell)) :
  DF.first_vals (map (fun c => (fst c, map (scale k) (snd c))) cs) =
  option_map (map (scale k)) (DF.first_vals cs).
Proof.
  induction cs as [|c cs IH]; [reflexivity|].
  cbn [map DF.first_vals fst snd]. rewrite first_valid_scale, IH.
  destruct (DF.first_valid (snd c)); [|reflexivity].
  now destruct (DF.first_vals cs).
Qed.

Lemma divide_scale (k : Q) (df : Frame Date) (fv : list cell) :
  0 < k -> DF.divide (scale_frame k df) (map (scale k) fv) = DF.divide df fv.
Proof.
  intros Hk. unfold DF.divide, scale_frame. cbn [index columns]. f_equal.
  revert fv. induction (columns df) as [|c cs IH]; intros [|d fv]; try reflexivity.
  cbn [map combine fst snd]. rewrite IH. f_equal. f_equal.
  rewrite map_map. apply map_ext. intros v. now apply div_scale.
Qed.

(** When a first value is missing. *)
Lemma first_vals_none (cs : list (string * list cell)) :
  DF.first_vals cs = None <-> exists c, In c cs /\ DF.all_missing c = true.
Proof.
  induction cs as [|c cs IH]; cbn [DF.first_vals].
  - split; [discriminate|]. intros (c & [] & _).
  - assert (Hc : DF.first_valid (snd c) = None <-> DF.all_missing c = true).
    { unfold DF.first_valid, DF.all_missing. rewrite negb_true_iff. split.
      - intros H. destruct (existsb notna (snd c)) eqn:E; [|reflexivity].
        apply existsb_exists in E as (v & Hv & Hn).
        apply (find_none _ _ H) in Hv. congruence.
      - intros H. destruct (find notna (snd c)) as [v|] eqn:E; [|reflexivity].
        apply find_some in E as [Hv Hn].
        assert (existsb notna (snd c) = true) by (apply existsb_exists; eauto).
        congruence. }
    destruct (DF.first_valid (snd c)) as [v|] eqn:Ev.
    + destruct (DF.first_vals cs) as [vs|] eqn:Evs.
      * split; [discriminate|]. intros (c' & [<-|Hin] & Hm).
        -- apply Hc in Hm. discriminate.
        -- assert (E : Some vs = None) by (apply (proj2 IH); now exists c').
           discriminate E.
      * split; [|reflexivity]. intros _.
        destruct (proj1 IH eq_refl) as (c' & Hin & Hm). exists c'.
        split; [now right|assumption].
    + split; [|reflexivity]. intros _. exists c. split; [now left|].
      now apply Hc.
Qed.

End ScaleFacts.

(** X7: on a table with at least one row and one column the
    normalization fails with an [IndexError] exactly when some column has
    no observation at all, which is what the cleaner rules out before
    line 114; on a table without rows or without columns it does not
    fail; and it fails in no other way. *)
Theorem normalize_fails_iff (prices : Frame Date) :
  (DF.empty prices = false ->
   (result (normalize prices) = Raised IndexError <->
    exists c, In c (columns prices) /\ DF.all_missing c = true)) /\
  (DF.empty prices = true -> result (normalize prices) = Returned) /\
  (forall e, result (normalize prices) = Raised e -> e = IndexError).
Proof.
  unfold normalize. split; [|split].
  - intros ->. rewrite <- ScaleFacts.first_vals_none.
    destruct (DF.first_vals (columns prices)); split;
      (reflexivity || discriminate).
  - intros ->. reflexivity.
  - intros e. destruct (DF.empty prices); [discriminate|].
    destruct (DF.first_vals (columns prices)); [discriminate|].
    now intros [= <-].
Qed.

(** X8: the returns table does not depend on the unit of the prices:
    multiplying every price by the same positive factor gives the same
    returns, hence the same correlation matrix. *)
Theorem returns_scale_invariant (k : Q) (prices : Frame Date) :
  0 < k ->
  returns_of (scale_frame k prices) = returns_of prices /\
  corr_of (scale_frame k prices) = corr_of prices.
Proof.
  intros Hk.
  assert (H : DF.pct_change (scale_frame k prices) = DF.pct_change prices).
  { unfold DF.pct_change, scale_frame. cbn [index columns]. f_equal.
    rewrite map_map. apply map_ext. intros c. cbn [fst snd].
    now rewrite ScaleFacts.pct_change_col_scale. }
  unfold corr_of, returns_of. now rewrite H.
Qed.

Lemma returns_scale_invariant_witness :
  returns_of (scale_frame 100 (mkFrame [0; 1; 2]%nat
                                       [("A", [Fin 1; Fin (11 # 10); Fin (99 # 100)])])) =
  mkFrame [1; 2]%nat [("A", [Fin (1 # 10); Fin (- 1 # 10)])].
Proof.
  rewrite (proj1 (returns_scale_invariant 100 _ eq_refl)). reflexivity.
Defined.

(** X9: the normalized table does not depend on the unit of the prices
    either: a common positive factor cancels in every column. *)
Theorem normalize_scale_invariant (k : Q) (prices : Frame Date) :
  0 < k -> normalize (scale_frame k prices) = normalize prices.
Proof.
  intros Hk. unfold normalize.
  assert (He : DF.empty (scale_frame k prices) = DF.empty prices).
  { unfold DF.empty, DF.nrows, DF.ncols, scale_frame. cbn [index columns].
    now rewrite length_map. }
  rewrite He. destruct (DF.empty prices).
  - do 4 f_equal. unfold DF.div_self, scale_frame. cbn [index columns].
    f_equal. rewrite map_map. apply map_ext. intros c. cbn [fst snd].
    f_equal. rewrite map_map. apply map_ext. intros v.
    now apply ScaleFacts.div_scale.
  - unfold scale_frame at 1. cbn [columns]. rewrite ScaleFacts.first_vals_scale.
    destruct (DF.first_vals (columns prices)) as [fv|]; [|reflexivity].
    cbn [option_map]. unfold normalize_with.
    now rewrite ScaleFacts.divide_scale.
Qed.

Lemma normalize_scale_invariant_witness :
  normalize (scale_frame (1 # 2) (mkFrame [0; 1; 2]%nat
                                          [("A", [Fin 200; Fin 220; Fin 198])])) =
  ([], Go (mkFrame [0; 1; 2]%nat [("A", [Fin 1; Fin (11 # 10); Fin (99 # 100)])])).
Proof.
  rewrite (normalize_scale_invariant (1 # 2) _ eq_refl). reflexivity.
Defined.


Module ShapeFacts.
Import DFFacts AcquireFacts.

(** Dividing by a finite, non-zero value keeps what is missing missing
    and what is finite finite. *)
Lemma div_fin_cases (v : cell) (q : Q) :
  ~ q == 0 -> isinf v = false ->
  notna (Num.div v (Fin q)) = notna v /\ isinf (Num.div v (Fin q)) = false.
Proof.
  intros Hq Hv. destruct v as [x| | |]; try discriminate; [|now split].
  unfold Num.div. destruct (Qeq_bool q 0) eqn:E.
  - apply Qeq_bool_eq in E. contradiction.
  - now split.
Qed.

Section Ordinary.
Variable prices : Frame Date.
Hypothesis Hwf : DF.wf prices.
Hypothesis Hfirst :
  forall c, In c (columns prices) ->
            exists q, DF.first_valid (snd c) = Some (Fin q) /\ ~ q == 0.
Hypothesis Hfin :
  forall c v, In c (columns prices) -> In v (snd c) -> isinf v = false.

Lemma normalize_col_cells (c : string * list cell) :
  In c (columns prices) ->
  fst (normalize_col c) = fst c /\
  length (snd (normalize_col c)) = length (snd c) /\
  map notna (snd (normalize_col c)) = map notna (snd c) /\
  map DF.no_inf (snd (normalize_col c)) = snd (normalize_col c).
Proof.
  intros Hc. destruct (Hfirst c Hc) as (q & Hq & Hq0).
  unfold normalize_col. rewrite Hq. cbn [fst snd].
  split; [reflexivity|]. split; [apply length_map|]. rewrite !map_map. split.
  - apply map_ext_in. intros v Hv.
    now destruct (div_fin_cases v q Hq0 (Hfin c v Hc Hv)).
  - apply map_ext_in. intros v Hv.
    destruct (div_fin_cases v q Hq0 (Hfin c v Hc Hv)) as [_ H].
    unfold DF.no_inf. now rewrite H.
Qed.

Lemma normalize_col_at_row (c : string * list cell) (t : nat) :
  In c (columns prices) ->
  notna (DF.at_row t (normalize_col c)) = notna (DF.at_row t c).
Proof.
  intros Hc. destruct (normalize_col_cells c Hc) as (_ & Hlen & Hn & _).
  unfold DF.at_row.
  transitivity (nth t (map notna (snd (normalize_col c))) (notna NaN));
    [symmetry; apply map_nth|].
  rewrite Hn. apply map_nth.
Qed.

Lemma normalized_frame_wf :
  DF.wf (mkFrame (index prices) (map normalize_col (columns prices))).
Proof.
  unfold DF.wf, DF.nrows. cbn [index columns].
  apply Forall_map, Forall_forall. intros c Hc.
  destruct (normalize_col_cells c Hc) as (_ & Hlen & _). rewrite Hlen.
  unfold DF.wf in Hwf. rewrite Forall_forall in Hwf. now apply Hwf.
Qed.

End Ordinary.

End ShapeFacts.

(** X10: on ordinary data the normalization changes no shape: for a
    well-formed price table without an all-missing date, without infinite
    prices, and in which every column starts at a finite non-zero price,
    the two drops and the replacement of infinities of lines 118-121 do
    nothing; the normalized table has the dates and the columns of the
    price table, each column divided by its first price, and the same
    cells missing. *)
Theorem normalize_keeps_shape (prices : Frame Date) :
  DF.wf prices ->
  (forall t, (t < DF.nrows prices)%nat -> DF.row_has_value prices t = true) ->
  (forall c, In c (columns prices) ->
             exists q, DF.first_valid (snd c) = Some (Fin q) /\ ~ q == 0) ->
  (forall c v, In c (columns prices) -> In v (snd c) -> isinf v = false) ->
  normalize prices =
    ([], Go (mkFrame (index prices) (map normalize_col (columns prices)))) /\
  forall c, In c (columns prices) ->
            map notna (snd (normalize_col c)) = map notna (snd c).
Proof.
  intros Hwf Hrows Hfirst Hfin.
  split; [|intros c Hc; now apply (ShapeFacts.normalize_col_cells prices Hfirst Hfin c Hc)].
  assert (Hvalid : forall c, In c (columns prices) -> DF.all_missing c = false).
  { intros c Hc. destruct (Hfirst c Hc) as (q & Hq & _).
    unfold DF.all_missing. apply negb_false_iff, existsb_exists.
    unfold DF.first_valid in Hq. apply find_some in Hq as [Hin _].
    exists (Fin q). now split. }
  destruct (first_vals_some _ Hvalid) as (fv & Hfv).
  rewrite (normalize_valid prices fv Hwf Hvalid Hfv).
  do 2 f_equal. unfold normalize_with.
  set (D := mkFrame (index prices) (map normalize_col (columns prices))).
  assert (HD : DF.divide prices fv = D).
  { unfold D. rewrite <- (divide_columns prices fv Hfv). reflexivity. }
  rewrite HD.
  assert (H1 : DF.dropna_cols_all D = D).
  { unfold DF.dropna_cols_all, D. cbn [index columns]. f_equal.
    apply filter_all, filter_all_true. intros c' Hc'.
    apply in_map_iff in Hc' as (c & <- & Hc).
    destruct (ShapeFacts.normalize_col_cells prices Hfirst Hfin c Hc) as (_ & _ & Hn & _).
    unfold DF.all_missing. rewrite negb_involutive.
    specialize (Hvalid c Hc). unfold DF.all_missing in Hvalid.
    apply negb_false_iff in Hvalid.
    rewrite <- Hvalid. clear - Hn.
    revert Hn. generalize (snd (normalize_col c)) (snd c).
    induction l as [|a l IH]; intros [|b l'] H; try discriminate; [reflexivity|].
    cbn [map] in H. injection H as Ha Hl. cbn [existsb].
    now rewrite Ha, (IH l' Hl). }
  rewrite H1.
  assert (H2 : DF.dropna_all D = D).
  { unfold DF.dropna_all, DF.rows_where.
    rewrite AcquireFacts.filter_seq_all.
    - apply AcquireFacts.take_rows_all.
      apply (ShapeFacts.normalized_frame_wf prices Hwf Hfirst Hfin).
    - intros t Ht. change (DF.nrows D) with (DF.nrows prices) in Ht.
      rewrite <- (Hrows t Ht). unfold DF.row_has_value, D. cbn [columns].
      clear - Hfirst Hfin.
      assert (Hall : forall c, In c (columns prices) -> In c (columns prices)) by auto.
      revert Hall. generalize (columns prices) at 1 3 4.
      induction l as [|c l IH]; intros Hall; [reflexivity|].
      cbn [map existsb].
      rewrite (ShapeFacts.normalize_col_at_row prices Hfirst Hfin c t)
        by (apply Hall; now left).
      rewrite IH; [reflexivity|]. intros c' Hc'. apply Hall. now right. }
  rewrite H2.
  unfold DF.replace_inf, D. cbn [index columns]. f_equal.
  rewrite map_map.
  apply map_ext_in. intros c Hc.
  destruct (ShapeFacts.normalize_col_cells prices Hfirst Hfin c Hc) as (_ & _ & _ & Hi).
  rewrite Hi. now destruct (normalize_col c).
Qed.

Lemma normalize_keeps_shape_witness :
  let prices := mkFrame [0; 1; 2]%nat
                        [("A", [NaN; Fin 100; Fin 110]); ("B", [Fin 4; NaN; Fin 1])] in
  normalize prices =
  ([], Go (mkFrame [0; 1; 2]%nat
                   [("A", [NaN; Fin 1; Fin (11 # 10)]);
                    ("B", [Fin 1; NaN; Fin (1 # 4)])])).
Proof.
  set (prices := mkFrame [0; 1; 2]%nat
                        [("A", [NaN; Fin 100; Fin 110]); ("B", [Fin 4; NaN; Fin 1])]).
  cbv zeta.
  assert (Hwf : DF.wf prices) by (repeat constructor).
  assert (Hrows : forall t, (t < DF.nrows prices)%nat ->
                            DF.row_has_value prices t = true).
  { intros [|[|[|t]]] Ht; try reflexivity.
    unfold prices, DF.nrows in Ht. simpl in Ht. lia. }
  assert (Hfirst : forall c, In c (columns prices) ->
                     exists q, DF.first_valid (snd c) = Some (Fin q) /\ ~ q == 0).
  { intros c [<-|[<-|[]]]; [exists 100|exists 4]; split;
      (reflexivity || discriminate). }
  assert (Hfin : forall c v, In c (columns prices) -> In v (snd c) -> isinf v = false).
  { intros c v [<-|[<-|[]]] Hv; simpl in Hv;
      repeat (destruct Hv as [<-|Hv]; [reflexivity|]); contradiction. }
  rewrite (proj1 (normalize_keeps_shape prices Hwf Hrows Hfirst Hfin)).
  reflexivity.
Defined.


(* ================================================================== *)
(** * Further properties of the correlation                             *)
(* ================================================================== *)

Module CorrMore.
Import Corr CorrFacts SqrtFacts PearsonFacts DiagFacts DFFacts.

Local Open Scope Q_scope.

Lemma pairwise_fst_finite (xs : list cell) :
  forall ys p, In p (pairwise_complete xs ys) -> In (fst p) (finite_values xs).
Proof.
  unfold finite_values.
  induction xs as [|x xs IH]; intros [|y ys] p H; simpl in H; try contradiction.
  destruct x as [a| | |]; simpl in H |- *; try (now apply (IH ys)).
  destruct y as [b| | |]; simpl in H; try (right; now apply (IH ys)).
  destruct H as [<-|H]; [now left|right; now apply (IH ys)].
Qed.

Lemma pearson_zero_variance_l (obs : list (Q * Q)) :
  (forall a b, In a (map fst obs) -> In b (map fst obs) -> a == b) ->
  pearson obs = NaN.
Proof.
  intros H. destruct obs as [|p obs]; [reflexivity|].
  unfold pearson. apply sqdev_zero_iff in H.
  rewrite (Qsqrt_eq _ 0) by (rewrite H; ring).
  reflexivity.
Qed.

Lemma pair_corr_zero_variance (xs ys : list cell) :
  zero_variance xs -> pair_corr xs ys = NaN.
Proof.
  intros H. rewrite pair_corr_pearson. apply pearson_zero_variance_l.
  intros a b Ha Hb.
  apply in_map_iff in Ha as (p & <- & Hp). apply in_map_iff in Hb as (p' & <- & Hp').
  apply H; eapply pairwise_fst_finite; eassumption.
Qed.

Lemma pairwise_complete_length (xs : list cell) :
  forall ys, (length (pairwise_complete xs ys) <= length xs)%nat.
Proof.
  induction xs as [|x xs IH]; intros [|y ys]; simpl; try lia.
  specialize (IH ys). destruct x, y; simpl; lia.
Qed.

Lemma pearson_short (obs : list (Q * Q)) :
  (length obs <= 1)%nat -> pearson obs = NaN.
Proof.
  intros H. apply pearson_zero_variance_l.
  destruct obs as [|p [|p' obs]]; simpl in *; try lia.
  intros a b [<-|Ha] [<-|Hb]; [reflexivity|destruct Hb|destruct Ha|destruct Ha].
Qed.

Lemma pick_length_le {A} (ks : list nat) (l : list A) :
  (length (DF.pick ks l) <= length ks)%nat.
Proof.
  unfold DF.pick. induction ks as [|t ks IH]; simpl; [lia|].
  rewrite length_app. destruct (nth_error l t); simpl; lia.
Qed.

Lemma filter_seq_length (p : nat -> bool) (n : nat) :
  p 0%nat = false -> (length (filter p (seq 0 n)) <= n - 1)%nat.
Proof.
  intros H. destruct n as [|n]; [simpl; lia|].
  cbn [seq filter]. rewrite H.
  pose proof (filter_length_le p (seq 1 n)) as Hl. rewrite length_seq in Hl. lia.
Qed.

Lemma return_rows_length (prices : Frame Date) :
  columns prices <> [] ->
  (length (return_rows prices) <= DF.nrows prices - 1)%nat.
Proof.
  intros Hne. unfold return_rows, DF.rows_where.
  change (DF.nrows (DF.pct_change prices)) with (DF.nrows prices).
  apply filter_seq_length.
  rewrite row_complete_pct.
  destruct (columns prices) as [|c cs]; [congruence|].
  cbn [forallb]. now rewrite pct_change_col_first.
Qed.

Lemma returns_col_length (prices : Frame Date) (j : nat) :
  columns prices <> [] ->
  (length (col_values (returns_of prices) j) <= DF.nrows prices - 1)%nat.
Proof.
  intros Hne. unfold col_values.
  destruct (nth_error (columns (returns_of prices)) j) as [c|] eqn:E; [|simpl; lia].
  apply nth_error_In in E.
  unfold returns_of, DF.dropna, DF.take_rows in E. cbn [columns] in E.
  apply in_map_iff in E as (c0 & <- & _). cbn [snd].
  fold (return_rows prices).
  pose proof (pick_length_le (return_rows prices) (snd c0)).
  pose proof (return_rows_length prices Hne). lia.
Qed.

(** A matrix without any defined entry: nothing to report but entries
    without a value. *)
Lemma masked_value (m : Frame string) (e : Pairs.item) :
  In e (Pairs.stack (Pairs.where_ Pairs.triu1 m)) ->
  Pairs.val e = NaN \/ exists i j, Pairs.val e = DF.cell_at m i j.
Proof.
  destruct e as [[X Y] v]. intros H.
  apply PairsFacts.In_stack in H as (i & c' & _ & Hc' & _ & Hv).
  apply In_nth_error in Hc' as (j & Hj).
  apply PairsFacts.where_columns in Hj as (c & Hc & _ & Hat).
  rewrite Hat in Hv. cbn [Pairs.val snd].
  destruct (Pairs.triu1 i j); [right|now left].
  exists i, j. unfold DF.cell_at. now rewrite Hc.
Qed.

Lemma all_nan_report (rank : Pairs.item -> nat) (m : Frame string) :
  (forall i j, DF.cell_at m i j = NaN) ->
  upper_entries m = [] /\
  Forall (fun e => Pairs.val e = NaN) (Pairs.top_pairs rank m).
Proof.
  intros Hall.
  assert (Hs : forall e, In e (Pairs.stack (Pairs.where_ Pairs.triu1 m)) ->
                         Pairs.val e = NaN).
  { intros e He. destruct (masked_value m e He) as [H|(i & j & H)];
      [exact H|now rewrite H]. }
  split.
  - unfold upper_entries.
    induction (Pairs.stack (Pairs.where_ Pairs.triu1 m)) as [|e l IH];
      [reflexivity|].
    cbn [filter]. unfold Pairs.defined at 1, notna.
    rewrite (Hs e (or_introl eq_refl)). cbn [isna negb].
    apply IH. intros x Hx. apply Hs. now right.
  - apply Forall_forall. intros e He. apply Hs.
    now apply (PairsFacts.In_top_pairs rank).
Qed.

End CorrMore.

(** X11: a column of zero variance (all its defined values equal) has an
    undefined correlation with every column, not only with itself: its
    whole row and its whole column of the matrix are NaN. *)
Theorem zero_variance_row_undefined (df : Frame Date) (i j : nat) :
  Corr.zero_variance (Corr.col_values df i) ->
  DF.cell_at (Corr.corr df) i j = NaN /\ DF.cell_at (Corr.corr df) j i = NaN.
Proof.
  intros H. rewrite !PearsonFacts.corr_cell_at. unfold Corr.entry.
  rewrite (Nat.max_comm j i), (Nat.min_comm j i).
  assert (Hg : Corr.pair_corr (Corr.col_values df (Nat.max i j))
                              (Corr.col_values df (Nat.min i j)) = NaN).
  { destruct (Nat.le_ge_cases i j) as [Hij|Hij].
    - rewrite Nat.max_r, Nat.min_l by assumption.
      rewrite PearsonFacts.pair_corr_sym. now apply CorrMore.pair_corr_zero_variance.
    - rewrite Nat.max_l, Nat.min_r by assumption.
      now apply CorrMore.pair_corr_zero_variance. }
  now split.
Qed.

Lemma zero_variance_row_undefined_witness :
  let df := mkFrame [1; 2; 3]%nat
                    [("A", [Fin 1; Fin 2; Fin 4]); ("B", [Fin 3; Fin 3; Fin 3])] in
  DF.cell_at (Corr.corr df) 1 0 = NaN /\ DF.cell_at (Corr.corr df) 0 1 = NaN.
Proof.
  cbv zeta. apply zero_variance_row_undefined.
  intros a b Ha Hb. simpl in Ha, Hb.
  destruct Ha as [<-|[<-|[<-|[]]]], Hb as [<-|[<-|[<-|[]]]]; reflexivity.
Defined.

(** X12: with fewer than three price rows there are fewer than two
    returns per ticker, so every entry of the correlation matrix is
    undefined: no pair has a value, and the top-pairs report holds only
    entries without one. *)
Theorem short_history_no_correlation (rank : Pairs.item -> nat)
        (prices : Frame Date) :
  columns prices <> [] -> (DF.nrows prices <= 2)%nat ->
  (forall i j, DF.cell_at (corr_of prices) i j = NaN) /\
  upper_entries (corr_of prices) = [] /\
  Forall (fun e => Pairs.val e = NaN) (Pairs.top_pairs rank (corr_of prices)).
Proof.
  intros Hne Hrows.
  assert (Hall : forall i j, DF.cell_at (corr_of prices) i j = NaN).
  { intros i j. unfold corr_of.
    rewrite PearsonFacts.corr_cell_at, PearsonFacts.entry_pearson.
    apply CorrMore.pearson_short.
    pose proof (CorrMore.pairwise_complete_length
                  (Corr.col_values (returns_of prices) i)
                  (Corr.col_values (returns_of prices) j)).
    pose proof (CorrMore.returns_col_length prices i Hne). lia. }
  split; [exact Hall|]. now apply CorrMore.all_nan_report.
Qed.

Lemma short_history_no_correlation_witness :
  let prices := mkFrame [0; 1]%nat [("A", [Fin 1; Fin 2]); ("B", [Fin 2; Fin 5])] in
  upper_entries (corr_of prices) = [] /\
  Pairs.top_pairs Pairs.stacking_order (corr_of prices) =
    [(("A", "A"), NaN); (("A", "B"), NaN); (("B", "A"), NaN); (("B", "B"), NaN)].
Proof.
  cbv zeta. split; [|reflexivity].
  refine (proj1 (proj2 (short_history_no_correlation Pairs.stacking_order _ _ _)));
    [discriminate|].
  unfold DF.nrows. simpl. lia.
Defined.

(* ================================================================== *)
(** * Further properties of the top-pairs report                        *)
(* ================================================================== *)

Module TopFacts.
Import Pairs PairsFacts.

Lemma where_nth (mask : nat -> nat -> bool) (m : Frame string) (j : nat)
      (c : string * list cell) :
  nth_error (columns m) j = Some c ->
  exists c', nth_error (columns (where_ mask m)) j = Some c' /\ fst c' = fst c /\
             forall i, DF.at_row i c' = if mask i j then DF.at_row i c else NaN.
Proof.
  intros H.
  destruct (nth_error (columns (where_ mask m)) j) as [c'|] eqn:E.
  - exists c'. split; [reflexivity|].
    apply where_columns in E as (c0 & Hc0 & Hf & Hat).
    rewrite H in Hc0. injection Hc0 as <-. now split.
  - exfalso. apply nth_error_None in E.
    unfold where_, indexed in E. cbn [columns] in E.
    rewrite length_map, length_combine, length_seq, Nat.min_id in E.
    assert (j < length (columns m))%nat by (apply nth_error_Some; congruence).
    lia.
Qed.

(** Every defined entry above the diagonal is stacked. *)
Lemma upper_entries_In (m : Frame string) (i j : nat) (X Y : string) :
  (i < j)%nat -> nth_error (index m) i = Some X ->
  nth_error (DF.names m) j = Some Y ->
  isna (DF.cell_at m i j) = false ->
  In ((X, Y), DF.cell_at m i j) (upper_entries m).
Proof.
  intros Hlt Hi Hj Hna. unfold upper_entries.
  unfold DF.names in Hj. rewrite nth_error_map in Hj.
  destruct (nth_error (columns m) j) as [c|] eqn:Ec; [|discriminate].
  simpl in Hj. injection Hj as <-.
  destruct (where_nth triu1 m j c Ec) as (c' & Hc' & Hf & Hat).
  assert (Hv : DF.at_row i c' = DF.cell_at m i j).
  { rewrite Hat. unfold triu1. apply Nat.ltb_lt in Hlt. rewrite Hlt.
    unfold DF.cell_at. now rewrite Ec. }
  apply filter_In. split.
  - apply In_stack. exists i, c'.
    split; [exact Hi|]. split; [eapply nth_error_In; eassumption|].
    split; [exact Hf|]. now rewrite Hv.
  - unfold defined, val, notna. cbn [snd]. now rewrite Hna.
Qed.

Lemma top_pairs_split (rank : item -> nat) (m : Frame string) :
  sort_values_desc rank (stack (where_ triu1 m)) =
  top_pairs rank m ++ skipn 5 (sort_values_desc rank (stack (where_ triu1 m))).
Proof.
  unfold top_pairs, head. now rewrite firstn_skipn.
Qed.

Lemma filter_keep {A} (p : A -> bool) (l : list A) :
  Forall (fun a => p a = true) l -> filter p l = l.
Proof.
  induction 1 as [|a l Ha _ IH]; [reflexivity|].
  cbn [filter]. now rewrite Ha, IH.
Qed.

Lemma filter_drop {A} (p : A -> bool) (l : list A) :
  Forall (fun a => p a = false) l -> filter p l = [].
Proof.
  induction 1 as [|a l Ha _ IH]; [reflexivity|].
  cbn [filter]. now rewrite Ha.
Qed.

(** With at most five defined pairs the defined part of the report is
    the whole sorted list. *)
Lemma defined_part (rank : item -> nat) (m : Frame string) :
  (length (upper_entries m) <= 5)%nat ->
  filter defined (top_pairs rank m) = isort (before rank) (upper_entries m).
Proof.
  intros Hlen. rewrite top_pairs_parts. cbv zeta.
  rewrite firstn_all2 by (now rewrite SortFacts.isort_length).
  rewrite filter_app, filter_keep, filter_drop; [apply app_nil_r| |].
  - apply Forall_forall. intros e He. apply In_firstn in He.
    apply filter_In in He as [_ He]. unfold undefined in He.
    unfold defined, notna. now rewrite He.
  - apply Forall_forall. intros e He. apply SortFacts.isort_In in He.
    unfold upper_entries in He. now apply filter_In in He.
Qed.

End TopFacts.

(** X13: the report holds the largest entries: every reported pair has a
    correlation at least as large as that of every defined pair above the
    diagonal that is left out, and the first reported pair is a maximum
    over all of them, in whatever order the sort leaves equal values. *)
Theorem top_pairs_are_largest (rank : Pairs.item -> nat) (m : Frame string)
        (e e' : Pairs.item) :
  In e' (upper_entries m) ->
  (In e (Pairs.top_pairs rank m) -> ~ In e' (Pairs.top_pairs rank m) ->
   Num.geb (Pairs.val e) (Pairs.val e') = true) /\
  (forall r, Pairs.top_pairs rank m = e :: r ->
   Num.geb (Pairs.val e) (Pairs.val e') = true).
Proof.
  intros He'.
  pose proof (PairsFacts.sorted_desc_strong rank
                (Pairs.stack (Pairs.where_ Pairs.triu1 m))) as Hs.
  assert (Hin : In e' (Pairs.sort_values_desc rank
                         (Pairs.stack (Pairs.where_ Pairs.triu1 m)))).
  { apply PairsFacts.sort_values_desc_In. unfold upper_entries in He'.
    now apply filter_In in He'. }
  rewrite TopFacts.top_pairs_split in Hs, Hin.
  split.
  - intros He Hout.
    apply in_app_or in Hin as [Hin|Hin]; [contradiction|].
    exact (PairsFacts.strongly_sorted_app _ _ _ _ _ Hs He Hin).
  - intros r Hr. rewrite Hr in Hs, Hin.
    cbn [app] in Hs, Hin. inversion Hs as [|? ? _ Hall]; subst.
    destruct Hin as [<-|Hin]; [apply PairsFacts.geb_refl|].
    rewrite Forall_forall in Hall. now apply Hall.
Qed.

Lemma top_pairs_are_largest_witness :
  let m := mkFrame ["A"; "B"; "C"; "D"]
                   [("A", [Fin 1; Fin (1 # 2); Fin (1 # 3); Fin (1 # 4)]);
                    ("B", [Fin (1 # 2); Fin 1; Fin (1 # 5); Fin (1 # 6)]);
                    ("C", [Fin (1 # 3); Fin (1 # 5); Fin 1; Fin (1 # 7)]);
                    ("D", [Fin (1 # 4); Fin (1 # 6); Fin (1 # 7); Fin 1])] in
  In (("C", "D"), Fin (1 # 7)) (upper_entries m) /\
  Num.geb (Fin (1 # 6)) (Fin (1 # 7)) = true /\
  Num.geb (Fin (1 # 2)) (Fin (1 # 7)) = true.
Proof.
  cbv zeta.
  match goal with
  | |- In ?e' (upper_entries ?m) /\ _ =>
      assert (He' : In e' (upper_entries m)) by (vm_compute; tauto);
      pose proof (top_pairs_are_largest Pairs.stacking_order m
                    (("B", "D"), Fin (1 # 6)) e' He') as [H1 _];
      pose proof (top_pairs_are_largest Pairs.stacking_order m
                    (("A", "B"), Fin (1 # 2)) e' He') as [_ H2]
  end.
  split; [exact He'|]. split.
  - apply H1.
    + vm_compute. tauto.
    + vm_compute. intros H.
      repeat (destruct H as [H|H]; [discriminate H|]). exact H.
  - eapply H2. vm_compute. reflexivity.
Defined.

(** X14: no pair is lost when there are few: with at most three tickers
    there are at most three defined pairs, and whenever there are at most
    five, the entries of the report that have a value are the whole
    sorted list of them, so every defined entry above the diagonal is
    reported. *)
Theorem few_pairs_all_reported (rank : Pairs.item -> nat) (m : Frame string) :
  index m = DF.names m ->
  ((DF.ncols m <= 3)%nat -> (length (upper_entries m) <= 3)%nat) /\
  ((length (upper_entries m) <= 5)%nat ->
   filter Pairs.defined (Pairs.top_pairs rank m) =
     Pairs.isort (Pairs.before rank) (upper_entries m) /\
   Permutation (filter Pairs.defined (Pairs.top_pairs rank m)) (upper_entries m) /\
   forall i j X Y,
     (i < j)%nat -> nth_error (DF.names m) i = Some X ->
     nth_error (DF.names m) j = Some Y ->
     isna (DF.cell_at m i j) = false ->
     In ((X, Y), DF.cell_at m i j) (Pairs.top_pairs rank m)).
Proof.
  intros Hidx. split.
  - intros Hk. pose proof (PairsFacts.upper_entries_length m) as H.
    assert (DF.ncols m * (DF.ncols m - 1) <= 6)%nat by nia. lia.
  - intros Hlen.
    pose proof (TopFacts.defined_part rank m Hlen) as Heq.
    split; [exact Heq|]. split.
    + rewrite Heq. apply SortFacts.isort_perm.
    + intros i j X Y Hlt Hi Hj Hna.
      assert (Hin : In ((X, Y), DF.cell_at m i j)
                       (filter Pairs.defined (Pairs.top_pairs rank m))).
      { rewrite Heq. apply SortFacts.isort_In.
        apply TopFacts.upper_entries_In; try assumption. now rewrite Hidx. }
      now apply filter_In in Hin.
Qed.

Lemma few_pairs_all_reported_witness :
  let m := mkFrame ["A"; "B"; "C"]
                   [("A", [Fin 1; Fin (1 # 2); NaN]);
                    ("B", [Fin (1 # 2); Fin 1; Fin (3 # 4)]);
                    ("C", [NaN; Fin (3 # 4); Fin 1])] in
  (length (upper_entries m) <= 3)%nat /\
  In (("B", "C"), Fin (3 # 4)) (Pairs.top_pairs Pairs.stacking_order m).
Proof.
  cbv zeta.
  match goal with
  | |- (length (upper_entries ?m) <= 3)%nat /\ _ =>
      pose proof (few_pairs_all_reported Pairs.stacking_order m eq_refl) as [H1 H2]
  end.
  split.
  - apply H1. vm_compute. lia.
  - destruct H2 as (_ & _ & H3); [vm_compute; lia|].
    apply (H3 1%nat 2%nat "B" "C"); [lia|reflexivity|reflexivity|reflexivity].
Defined.

(* ================================================================== *)
(** * Further properties of the runs of [main]                          *)
(* ================================================================== *)

Module RunFacts.
Import MainFacts TraceFacts.

(** A non-empty price table leads to the heatmap branch. *)
Lemma corr_branch_live (prices : Frame Date) :
  DF.empty prices = false ->
  DF.empty (corr_of prices) || Nat.ltb (DF.nrows (corr_of prices)) 1 = false.
Proof.
  intros H. pose proof (corr_not_empty prices H) as Hc.
  rewrite Hc. cbn [orb]. unfold DF.empty in Hc.
  apply orb_false_iff in Hc as [Hr _]. apply Nat.eqb_neq in Hr.
  apply Nat.ltb_ge. lia.
Qed.

(** Every run, made explicit event by event. *)
Ltac run_cases args env :=
  rewrite (main_eq args env); cbv zeta;
  let Hp := fresh "Hp" in
  destruct (resolve_tickers_run args env) as [_ [Hp|Hp]]; rewrite Hp; clear Hp;
  (let t := fresh "t" in
   let tks := fresh "tks" in
   let dl := fresh "dl" in
   destruct (resolved_tickers args env) as [|t tks] eqn:Etks;
   [| destruct (is_empty (outdir args)) eqn:Eo;
      [| destruct (yfinance env) as [dl|] eqn:Eyf;
         [ destruct (DF.empty (acquired dl args (t :: tks))) eqn:Ee;
           [| pose proof (acquired_cleaned_not_empty dl args (t :: tks) Ee) as Ec;
              pose proof (corr_branch_live _ Ec) as Eco;
              rewrite Ec; rewrite derive_and_clean_run;
              unfold export_csv, present_normalized, present_corr, show_or_save;
              rewrite Eco;
              destruct (save_csv args) eqn:Ecsv; destruct (display args) eqn:Ed;
              destruct (Nat.eqb _ _); destruct (DF.any_notna _) ]
         | ] ] ]);
  unfold trace, result; cbn [fst snd negb bind emit print ret exit_with app].

Lemma before_split (pre rest : list event) (g : event) :
  (forall x, In x pre -> written_path x = None) -> written_path g = None ->
  forall tr1 tr2 e,
  pre ++ g :: rest = tr1 ++ e :: tr2 -> written_path e <> None -> In g tr1.
Proof.
  intros Hpre Hg. induction pre as [|a pre IH]; intros tr1 tr2 e Heq He.
  - destruct tr1 as [|x tr1]; simpl in Heq; injection Heq as -> Hr.
    + congruence.
    + now left.
  - destruct tr1 as [|x tr1]; simpl in Heq; injection Heq as -> Hr.
    + exfalso. apply He. apply Hpre. now left.
    + right. apply (IH (fun y Hy => Hpre y (or_intror Hy)) tr1 tr2 e Hr He).
Qed.

Lemma main_trace_shape (args : Args) (env : Env) :
  trace (main args env) = trace (resolve_tickers args env) ++ [Print no_tickers_msg] \/
  exists rest,
    trace (main args env) =
    trace (resolve_tickers args env) ++ MakeDirs (outdir args) :: rest.
Proof.
  rewrite main_eq. cbv zeta.
  destruct (resolved_tickers args env) as [|t tks]; [now left|right].
  destruct (is_empty (outdir args)); [unfold trace at 1; cbn [fst]; eauto|].
  destruct (yfinance env) as [dl|].
  - destruct (DF.empty (acquired dl args (t :: tks))).
    + unfold trace at 1. cbn [fst]. rewrite <- app_assoc. cbn [app]. eauto.
    + destruct (DF.empty (cleaned (acquired dl args (t :: tks))));
        unfold trace at 1; cbn [fst]; rewrite <- !app_assoc; cbn [app]; eauto.
  - unfold trace at 1. cbn [fst]. eauto.
Qed.

Lemma normalized_written (args : Args) (ts : string) (t : Frame Date)
      (e : event) (p : string) :
  In e (trace (present_normalized args ts t)) -> written_path e = Some p ->
  display args = false /\
  e = SaveFig p 200 /\
  p = path_join (outdir args) ("normalized_price_chart_" ++ ts ++ ".png").
Proof.
  unfold present_normalized, show_or_save.
  destruct (DF.any_notna t), (display args); simpl; intros H Hp;
    repeat (destruct H as [H|H]; [subst e; simpl in Hp; try discriminate|]);
    try contradiction.
  injection Hp as <-. auto.
Qed.

Lemma corr_written (args : Args) (ts : string) (rank : Pairs.item -> nat)
      (m : Frame string) (e : event) (p : string) :
  In e (trace (present_corr args ts rank m)) -> written_path e = Some p ->
  display args = false /\
  e = SaveFig p 200 /\
  p = path_join (outdir args) ("correlation_heatmap_" ++ ts ++ ".png").
Proof.
  unfold present_corr, show_or_save.
  destruct (DF.empty m || Nat.ltb (DF.nrows m) 1), (display args); simpl;
    intros H Hp;
    repeat (destruct H as [H|H]; [subst e; simpl in Hp; try discriminate|]);
    try contradiction.
  injection Hp as <-. auto.
Qed.

End RunFacts.

(** X15: in every run the figures are handled one at a time: a chart is
    created only when no figure is open, it is shown or saved while open
    and closed before the next one and before the run ends; a run creates
    at most two figures, shows them and saves nothing with the display
    option, and saves them and shows nothing without it. *)
Theorem figures_are_released (args : Args) (env : Env) :
  let tr := trace (main args env) in
  figures_ok false tr = true /\
  count_events opens_fig tr = count_events closes_fig tr /\
  (count_events opens_fig tr <= 2)%nat /\
  (if display args
   then forallb (fun e => match e with SaveFig _ _ => false | _ => true end) tr
   else forallb (fun e => match e with ShowFig => false | _ => true end) tr) = true.
Proof.
  cbv zeta. RunFacts.run_cases args env;
    cbn; rewrite ?Ed; repeat split; try reflexivity; try lia;
    try (destruct (display args); reflexivity).
Qed.

(** X16: a file is written only after the output directory has been
    created, and only under one of the three names of the run: the CSV
    file (only with the CSV option), the normalized chart and the heatmap
    (only without the display option, at 200 dpi). *)
Theorem files_written_by_run (args : Args) (env : Env)
        (tr1 tr2 : list event) (e : event) (p : string) :
  trace (main args env) = tr1 ++ e :: tr2 -> written_path e = Some p ->
  In (MakeDirs (outdir args)) tr1 /\
  In p (run_paths args env) /\
  match e with
  | WriteCsv _ label _ => save_csv args = true /\ label = "Date"
  | SaveFig _ dpi => display args = false /\ dpi = 200%nat
  | _ => False
  end.
Proof.
  intros Heq Hp.
  assert (Hpre : forall x, In x (trace (resolve_tickers args env)) ->
                           written_path x = None).
  { intros x Hx. apply TraceFacts.resolve_trace_In in Hx. now subst x. }
  assert (Hne : written_path e <> None) by congruence.
  assert (Hin : In e (trace (main args env))) by (rewrite Heq; apply in_elt).
  split; [|].
  - destruct (RunFacts.main_trace_shape args env) as [Hs|(rest & Hs)].
    + exfalso. rewrite Hs in Hin. apply in_app_or in Hin as [Hin|[<-|[]]].
      * apply Hpre in Hin. congruence.
      * discriminate.
    + rewrite Hs in Heq.
      exact (RunFacts.before_split _ rest (MakeDirs (outdir args)) Hpre eq_refl _ _ _ Heq Hne).
  - apply TraceFacts.main_trace_In in Hin. cbv zeta in Hin.
    unfold run_paths.
    destruct Hin as [Hin|[->|(_ & [->|(_ & [->|Hin])])]];
      try discriminate.
    + apply Hpre in Hin. congruence.
    + destruct (yfinance env) as [dl|]; [|contradiction].
      destruct Hin as [[_ ->]|(_ & [Hin|[Hin|[[_ ->]|(_ & [Hin|Hin])]]])];
        try discriminate.
      * apply TraceFacts.export_trace_In in Hin as (Hcsv & [->| ->]);
          [|discriminate].
        injection Hp as <-. split; [now left|now split].
      * apply TraceFacts.clean_trace_In in Hin. subst e. discriminate.
      * destruct (RunFacts.normalized_written _ _ _ _ _ Hin Hp) as (Hd & -> & ->).
        split; [right; now left|now split].
      * destruct (RunFacts.corr_written _ _ _ _ _ _ Hin Hp) as (Hd & -> & ->).
        split; [right; right; now left|now split].
Qed.

Lemma files_written_by_run_witness :
  let args := mkArgs (Some "a,b") "2021-01-01" None "outputs" true false in
  let env := mkEnv (Some (fun _ _ _ =>
                      MultiCols [0; 1; 2]%nat
                        [("Adj Close",
                          [("A", [Fin 1; Fin 2; Fin 4]); ("B", [Fin 1; Fin 3; Fin 4])])]))
                   "" "20240102T030405Z" Pairs.stacking_order in
  In (MakeDirs "outputs") (firstn 2 (trace (main args env))) /\
  In "outputs/prices_20240102T030405Z_A_B_adj_close.csv" (run_paths args env).
Proof.
  cbv zeta.
  match goal with
  | |- In _ (firstn 2 (trace (main ?a ?v))) /\ _ =>
      pose proof (files_written_by_run a v
                    (firstn 2 (trace (main a v)))
                    (skipn 3 (trace (main a v)))
                    (WriteCsv "outputs/prices_20240102T030405Z_A_B_adj_close.csv" "Date"
                       (mkFrame [0; 1; 2]%nat
                          [("A", [Fin 1; Fin 2; Fin 4]); ("B", [Fin 1; Fin 3; Fin 4])]))
                    "outputs/prices_20240102T030405Z_A_B_adj_close.csv") as H
  end.
  destruct H as (H1 & H2 & _); [vm_compute; reflexivity|reflexivity|].
  split; [exact H1|exact H2].
Defined.

(** X17: two messages of [main] are never printed when the downloaded
    table has distinct column names: after [get_price_data] has dropped
    the all-missing rows the cleaner cannot empty a non-empty table, and
    the correlation matrix of a table with a column is not empty. *)
Theorem dead_branches_unreachable (args : Args) (env : Env) :
  (forall dl, yfinance env = Some dl ->
              NoDup (DF.names (acquired dl args (resolved_tickers args env)))) ->
  ~ In (Print no_columns_msg) (trace (main args env)) /\
  ~ In (Print empty_corr_msg) (trace (main args env)).
Proof.
  intros _.
  assert (H : forall m, m = no_columns_msg \/ m = empty_corr_msg ->
                        ~ In (Print m) (trace (main args env))).
  { intros m Hm. RunFacts.run_cases args env;
      unfold no_columns_msg, empty_corr_msg in Hm;
      unfold fetching_msg, no_tickers_msg, no_data_msg, skip_normalized_msg;
      destruct Hm as [-> | ->]; simpl; intuition discriminate. }
  split; apply H; auto.
Qed.

Lemma dead_branches_unreachable_witness :
  let args := mkArgs (Some "a,b") "2021-01-01" None "outputs" false true in
  let env := mkEnv (Some (fun _ _ _ =>
                      MultiCols [0; 1]%nat
                        [("Adj Close",
                          [("A", [NaN; NaN]); ("B", [Fin 1; Fin 2])])]))
                   "" "20240102T030405Z" Pairs.stacking_order in
  ~ In (Print no_columns_msg) (trace (main args env)).
Proof.
  cbv zeta. apply dead_branches_unreachable.
  intros dl [= <-]. vm_compute.
  repeat constructor; simpl; intuition discriminate.
Defined.



(* ================================================================== *)
(** * The cleaner and the returns                                       *)
(* ================================================================== *)

Module CleanFacts.
Import Corr DFFacts.

Lemma all_missing_cells (c : string * list cell) :
  DF.all_missing c = true -> forall v, In v (snd c) -> v = NaN.
Proof.
  unfold DF.all_missing. rewrite negb_true_iff. intros H v Hv.
  destruct v; try reflexivity;
    (assert (E : existsb notna (snd c) = true)
       by (apply existsb_exists; eexists; split; [exact Hv|reflexivity]);
     congruence).
Qed.

Lemma nth_all_nan (l : list cell) (t : nat) :
  (forall v, In v l -> v = NaN) -> nth t l NaN = NaN.
Proof.
  intros H. destruct (nth_in_or_default t l NaN) as [Hin|E]; [now apply H|exact E].
Qed.

Lemma pct_change_all_missing (c : string * list cell) (t : nat) :
  DF.all_missing c = true -> nth t (DF.pct_change_col (snd c)) NaN = NaN.
Proof.
  intros H. apply nth_all_nan. intros v Hv.
  unfold DF.pct_change_col in Hv. apply in_map_iff in Hv as ([a b] & <- & Hab).
  apply in_combine_l in Hab. cbn [fst snd].
  now rewrite (all_missing_cells c H a Hab).
Qed.

Lemma filter_none {A} (f : A -> bool) (l : list A) :
  (forall a, In a l -> f a = false) -> filter f l = [].
Proof.
  induction l as [|a l IH]; simpl; [reflexivity|].
  intros H. rewrite (H a) by now left. apply IH. intros b Hb. apply H. now right.
Qed.

Lemma return_rows_all_missing (prices : Frame Date) (c : string * list cell) :
  In c (columns prices) -> DF.all_missing c = true -> return_rows prices = [].
Proof.
  intros Hc Hm. unfold return_rows, DF.rows_where. apply filter_none.
  intros t _. rewrite row_complete_pct.
  destruct (forallb _ (columns prices)) eqn:E; [|reflexivity].
  rewrite forallb_forall in E. specialize (E c Hc).
  now rewrite (pct_change_all_missing c t Hm) in E.
Qed.

Lemma returns_of_no_rows (prices : Frame Date) :
  return_rows prices = [] ->
  returns_of prices = mkFrame [] (map (fun c => (fst c, [])) (columns prices)).
Proof.
  intros H. unfold returns_of, DF.dropna, DF.take_rows.
  fold (return_rows prices). rewrite H. unfold DF.pick, DF.pct_change.
  cbn [flat_map index columns]. now rewrite map_map.
Qed.

Lemma corr_no_rows {I} (df : Frame I) :
  (forall c, In c (columns df) -> snd c = []) ->
  forall i j, DF.cell_at (corr df) i j = NaN.
Proof.
  intros H i j. rewrite PearsonFacts.corr_cell_at, PearsonFacts.entry_pearson.
  assert (E : col_values df i = []).
  { unfold col_values. destruct (nth_error (columns df) i) as [c|] eqn:Ec;
      [|reflexivity].
    apply H. eapply nth_error_In; eassumption. }
  now rewrite E.
Qed.

Lemma filter_idem {A} (f : A -> bool) (l : list A) :
  filter f (filter f l) = filter f l.
Proof.
  induction l as [|a l IH]; simpl; [reflexivity|].
  destruct (f a) eqn:E; simpl; [rewrite E; now f_equal|exact IH].
Qed.

Lemma returns_col_values (prices : Frame Date) (j : nat) (c : string * list cell) :
  nth_error (columns prices) j = Some c ->
  col_values (returns_of prices) j =
  DF.pick (return_rows prices) (DF.pct_change_col (snd c)).
Proof.
  intros H. unfold col_values, returns_of, DF.dropna, DF.take_rows, DF.pct_change.
  cbn [columns]. rewrite !nth_error_map, H. reflexivity.
Qed.

End CleanFacts.

(** X19: why the cleaner recomputes: a price column without any
    observation makes every row of the percentage changes incomplete, so
    the returns table computed from the uncleaned prices has no row, every
    entry of its correlation matrix is undefined, no pair above the
    diagonal has a value and a report of it would hold entries without a
    value only. *)
Theorem missing_column_empties_returns (rank : Pairs.item -> nat)
        (prices : Frame Date) (c : string * list cell) :
  In c (columns prices) -> DF.all_missing c = true ->
  index (returns_of prices) = [] /\
  (forall c', In c' (columns (returns_of prices)) -> snd c' = []) /\
  (forall i j, DF.cell_at (corr_of prices) i j = NaN) /\
  upper_entries (corr_of prices) = [] /\
  Forall (fun e => Pairs.val e = NaN) (Pairs.top_pairs rank (corr_of prices)).
Proof.
  intros Hc Hm.
  pose proof (CleanFacts.returns_of_no_rows prices
                (CleanFacts.return_rows_all_missing prices c Hc Hm)) as Hr.
  assert (Hcols : forall c', In c' (columns (returns_of prices)) -> snd c' = []).
  { intros c' H. rewrite Hr in H. cbn [columns] in H.
    now apply in_map_iff in H as (c0 & <- & _). }
  assert (Hall : forall i j, DF.cell_at (corr_of prices) i j = NaN)
    by (apply CleanFacts.corr_no_rows; exact Hcols).
  split; [now rewrite Hr|]. split; [exact Hcols|]. split; [exact Hall|].
  now apply CorrMore.all_nan_report.
Qed.

Lemma missing_column_empties_returns_witness :
  let prices := mkFrame [0; 1; 2]%nat
                        [("A", [NaN; NaN; NaN]); ("B", [Fin 1; Fin 2; Fin 3]);
                         ("C", [Fin 2; Fin 6; Fin 7])] in
  index (returns_of prices) = [] /\
  upper_entries (corr_of prices) = [] /\
  DF.cell_at (corr_of (cleaned prices)) 0 1 = Fin 1.
Proof.
  cbv zeta.
  match goal with
  | |- index (returns_of ?p) = [] /\ _ =>
      pose proof (missing_column_empties_returns Pairs.stacking_order p
                    ("A", [NaN; NaN; NaN]) (or_introl eq_refl) eq_refl)
        as (H1 & _ & _ & H4 & _)
  end.
  split; [exact H1|]. split; [exact H4|].
  vm_compute. reflexivity.
Defined.

(** X20: the cleaner is idempotent: a cleaned table has no column left to
    drop, so cleaning it again changes nothing and prints nothing. *)
Theorem cleaner_idempotent (prices : Frame Date) :
  cleaned (cleaned prices) = cleaned prices /\
  valid_cols (cleaned prices) = columns (cleaned prices) /\
  dropped_names (cleaned prices) = [] /\
  derive_and_clean (cleaned prices) =
    ([], Go (mkDerived (cleaned prices) (returns_of (cleaned prices))
                       (corr_of (cleaned prices)))).
Proof.
  assert (Hv : valid_cols (cleaned prices) = columns (cleaned prices)).
  { unfold valid_cols, cleaned, DF.select_cols. cbn [columns].
    apply CleanFacts.filter_idem. }
  assert (Hc : cleaned (cleaned prices) = cleaned prices).
  { apply cleaned_unchanged. now rewrite Hv. }
  split; [exact Hc|]. split; [exact Hv|]. split.
  - unfold dropped_names. rewrite Hv.
    rewrite CleanFacts.filter_none; [reflexivity|].
    intros n Hn. apply negb_false_iff. unfold mem. apply existsb_exists.
    exists n. split; [exact Hn|apply String.eqb_refl].
  - rewrite derive_and_clean_run, Hv, Nat.eqb_refl, Hc. reflexivity.
Qed.

(** X21: a ticker whose prices are a positive multiple of another's (the
    same share in another unit) has the same returns, so the two correlate
    with each other exactly as each does with itself: 1, unless the
    returns have no variance. *)
Theorem proportional_tickers_correlation (k : Q) (prices : Frame Date)
        (i j : nat) (ci cj : string * list cell) :
  0 < k ->
  nth_error (columns prices) i = Some ci ->
  nth_error (columns prices) j = Some cj ->
  snd cj = map (scale k) (snd ci) ->
  DF.cell_at (corr_of prices) i j = DF.cell_at (corr_of prices) i i /\
  DF.cell_at (corr_of prices) j i = DF.cell_at (corr_of prices) i i /\
  (~ Corr.zero_variance (Corr.col_values (returns_of prices) i) ->
   DF.cell_at (corr_of prices) i j = Fin 1).
Proof.
  intros Hk Hi Hj Hs.
  assert (Hcol : Corr.col_values (returns_of prices) j =
                 Corr.col_values (returns_of prices) i).
  { rewrite (CleanFacts.returns_col_values prices j cj Hj),
            (CleanFacts.returns_col_values prices i ci Hi), Hs.
    now rewrite ScaleFacts.pct_change_col_scale. }
  assert (Hij : DF.cell_at (corr_of prices) i j = DF.cell_at (corr_of prices) i i).
  { unfold corr_of. rewrite !PearsonFacts.corr_cell_at, !PearsonFacts.entry_pearson.
    now rewrite Hcol. }
  split; [exact Hij|]. split.
  - unfold corr_of. rewrite !PearsonFacts.corr_cell_at, !PearsonFacts.entry_pearson.
    now rewrite Hcol.
  - intros Hz. rewrite Hij. unfold corr_of.
    rewrite PearsonFacts.corr_cell_at, PearsonFacts.entry_pearson.
    rewrite DiagFacts.pairwise_complete_diag.
    now apply DiagFacts.pearson_diag_one.
Qed.

Lemma proportional_tickers_correlation_witness :
  let prices := mkFrame [0; 1; 2]%nat
                        [("A", [Fin 1; Fin 2; Fin 3]); ("B", [Fin 3; Fin 6; Fin 9])] in
  DF.cell_at (corr_of prices) 0 1 = Fin 1.
Proof.
  cbv zeta.
  refine (proj2 (proj2 (proportional_tickers_correlation 3
                          (mkFrame [0; 1; 2]%nat
                             [("A", [Fin 1; Fin 2; Fin 3]); ("B", [Fin 3; Fin 6; Fin 9])])
                          0 1
                          ("A", [Fin 1; Fin 2; Fin 3]) ("B", [Fin 3; Fin 6; Fin 9])
                          _ eq_refl eq_refl eq_refl)) _).
  - reflexivity.
  - intros H. specialize (H 1 (1 # 2)).
    assert (E : 1 == 1 # 2) by (apply H; vm_compute; tauto).
    discriminate E.
Defined.

(* ================================================================== *)
(** * The file names of a run                                           *)
(* ================================================================== *)

Module PathFacts.

Lemma append_inj_l (a x y : string) : (a ++ x = a ++ y)%string -> x = y.
Proof.
  induction a as [|c a IH]; simpl; intros H; [exact H|].
  injection H as H. now apply IH.
Qed.

(** Joining two relative file names onto one directory keeps them apart. *)
Lemma path_join_inj (a : string) (c1 c2 : ascii) (b1 b2 : string) :
  c1 <> "/"%char -> c2 <> "/"%char ->
  path_join a (String c1 b1) = path_join a (String c2 b2) ->
  String c1 b1 = String c2 b2.
Proof.
  intros H1 H2. unfold path_join.
  assert (E1 : Ascii.eqb c1 "/" = false) by now apply Ascii.eqb_neq.
  assert (E2 : Ascii.eqb c2 "/" = false) by now apply Ascii.eqb_neq.
  replace (match String c1 b1 with
           | String "/"%char _ => String c1 b1
           | _ => if is_empty a || ends_with_slash a
                  then (a ++ String c1 b1)%string
                  else (a ++ "/" ++ String c1 b1)%string
           end)
    with (if is_empty a || ends_with_slash a
          then (a ++ String c1 b1)%string
          else (a ++ "/" ++ String c1 b1)%string).
  2:{ destruct c1 as [[] [] [] [] [] [] [] []]; try reflexivity. now elim H1. }
  replace (match String c2 b2 with
           | String "/"%char _ => String c2 b2
           | _ => if is_empty a || ends_with_slash a
                  then (a ++ String c2 b2)%string
                  else (a ++ "/" ++ String c2 b2)%string
           end)
    with (if is_empty a || ends_with_slash a
          then (a ++ String c2 b2)%string
          else (a ++ "/" ++ String c2 b2)%string).
  2:{ destruct c2 as [[] [] [] [] [] [] [] []]; try reflexivity. now elim H2. }
  destruct (is_empty a || ends_with_slash a); intros H;
    apply append_inj_l in H; [exact H|].
  simpl in H. injection H as -> ->. reflexivity.
Qed.

End PathFacts.

(** X22: the three files a run may write (the CSV file, the normalized
    chart and the heatmap) have pairwise different paths, whatever the
    output directory, the time stamp and the tickers: no output of a run
    overwrites another. *)
Theorem run_paths_distinct (args : Args) (env : Env) : NoDup (run_paths args env).
Proof.
  unfold run_paths, csv_path.
  apply NoDup_cons; [|apply NoDup_cons; [|apply NoDup_cons; [|apply NoDup_nil]]];
    cbn [In append]; intros H;
    repeat (destruct H as [H|H];
            [apply PathFacts.path_join_inj in H; discriminate|]);
    exact H.
Qed.
